(** * awswrangler.s3 : a shallow embedding of the Amazon S3 module

    The module talks to three collaborators: the object store (boto3 /
    s3fs), the dataframe engine (pandas / pyarrow) and the thread pool of
    concurrent.futures.  Every call that leaves the module is a [request];
    a function of the module is a [prog]ram, a tree of requests whose
    continuations receive the collaborator's answer.  [run] executes a
    program against an arbitrary [handler] and records the trace of
    requests and answers, so that statements such as "one bulk delete per
    chunk" or "raises before any request is made" are statements about the
    trace, for every behaviour of the collaborators. *)

From Stdlib Require Import String Ascii List ZArith QArith Bool Arith Lia.
From Stdlib Require Import Permutation DecimalString.
Import ListNotations.
Close Scope Q_scope.
Open Scope string_scope.
Open Scope list_scope.

Set Implicit Arguments.

(** ** Exceptions and results *)

(** The exception classes the module raises itself (awswrangler.exceptions
    and the built-in ones its expressions can raise) and the ones it
    receives from a collaborator.  Messages are left out. *)
Inductive exn : Type :=
| InvalidCompression
| InvalidArgumentCombination
| InvalidArgumentValue
| InvalidArgumentType
| ValueError
| IndexError
| OverflowError
| ClientError (HTTPStatusCode : Z)   (* botocore.exceptions.ClientError *)
| OtherError (name : string).        (* any other exception of a collaborator *)

Inductive result (A : Type) : Type :=
| Ok (a : A)
| Err (e : exn).
Arguments Ok {A} a.
Arguments Err {A} e.

(** ** Data *)

(** A cell of a dataframe, and [str(val)] as the f-string formats it. *)
Inductive value : Type :=
| VInt (z : Z)
| VStr (s : string).

Definition str (v : value) : string :=
  match v with
  | VInt z => NilZero.string_of_int (Z.to_int z)
  | VStr s => s
  end.

(** The key pandas yields for a group: a scalar or a tuple. *)
Inductive group_key : Type :=
| KScalar (v : value)
| KTuple (vs : list value).

(** [Union[int, float]]: a finite float is the rational it denotes; the
    other floats are the two infinities and NaN. *)
Inductive number : Type :=
| PyInt (z : Z)
| PyFloat (q : Q)
| PyInf (negative : bool)
| PyNaN.

(** [int(x)]: a finite float is truncated towards zero; an infinity raises
    OverflowError and NaN raises ValueError. *)
Definition int (x : number) : result Z :=
  match x with
  | PyInt z => Ok z
  | PyFloat q => Ok (Z.quot (Qnum q) (Zpos (Qden q)))
  | PyInf _ => Err OverflowError
  | PyNaN => Err ValueError
  end.

(** The response of head_object: a dict of attributes. *)
Definition attributes : Type := list (string * string).

(** One entry of a listing page (only "Key" is read) and one page. *)
Record content : Type := { Key : option string }.
Record page : Type := { Contents : option (list (option content)) }.

(** The page a provider sends for a run of keys. *)
Definition page_of_keys (keys : list string) : page :=
  {| Contents := Some (map (fun k => Some {| Key := Some k |}) keys) |}.

(** [Union[str, List[str]]], and whatever else a caller may pass. *)
Inductive path_arg : Type :=
| PStr (s : string)
| PList (l : list string)
| POther.

(** Keyword arguments forwarded to pandas. *)
Definition kwargs : Type := list (string * string).

(** ** Collaborators that are not part of the module *)

(** The dataframe engine: grouping, dropping columns, concatenation. *)
Class DataFrameEngine (DF : Type) : Type := {
  groupby : DF -> list string -> result (list (group_key * DF));
  drop : DF -> list string -> result DF;
  concat : list DF -> result DF
}.

(** [_utils.parse_path]: the split of a locator into bucket and key. *)
Class Utils : Type := {
  parse_path : string -> result (string * string)
}.

(** ** Strings *)

(** [s.replace("s3://", "")]: every occurrence, leftmost first.  [skip]
    counts the characters of a match that are still to be dropped. *)
Fixpoint replace_scheme_from (skip : nat) (s : string) : string :=
  match s with
  | EmptyString => EmptyString
  | String c s' =>
      match skip with
      | S n => replace_scheme_from n s'
      | O => if prefix "s3://" s then replace_scheme_from 4 s'
             else String c (replace_scheme_from 0 s')
      end
  end.

Definition replace_scheme (s : string) : string := replace_scheme_from 0 s.

(** [s.split("/", 1)]: the part before the first "/" and, when there is
    one, the part after it. *)
Fixpoint split1 (s : string) : string * option string :=
  match s with
  | EmptyString => (EmptyString, None)
  | String c s' =>
      if Ascii.eqb c "/"%char then (EmptyString, Some s')
      else let (a, b) := split1 s' in (String c a, b)
  end.

(** [s[-1]] *)
Fixpoint last_char (s : string) : option ascii :=
  match s with
  | EmptyString => None
  | String c EmptyString => Some c
  | String _ s' => last_char s'
  end.

(** [path if path[-1] == "/" else f"{path}/"] *)
Definition with_slash (path : string) : result string :=
  match last_char path with
  | None => Err IndexError
  | Some c => Ok (if Ascii.eqb c "/"%char then path else (path ++ "/")%string)
  end.

(** ** Dictionaries in insertion order *)

Fixpoint dict_set {V : Type} (d : list (string * V)) (k : string) (v : V)
  : list (string * V) :=
  match d with
  | [] => [(k, v)]
  | (k', v') :: d' =>
      if String.eqb k' k then (k', v) :: d' else (k', v') :: dict_set d' k v
  end.

(** [dict(items)] *)
Definition dict {V : Type} (items : list (string * V)) : list (string * V) :=
  fold_left (fun d kv => dict_set d (fst kv) (snd kv)) items [].

(** [buckets[bucket].append(key)], after [buckets[bucket] = []] when the
    bucket is new. *)
Fixpoint dict_append (buckets : list (string * list string))
         (bucket key : string) : list (string * list string) :=
  match buckets with
  | [] => [(bucket, [key])]
  | (b, keys) :: rest =>
      if String.eqb b bucket then (b, keys ++ [key]) :: rest
      else (b, keys) :: dict_append rest bucket key
  end.

Definition option_string_eqb (a b : option string) : bool :=
  match a, b with
  | None, None => true
  | Some x, Some y => String.eqb x y
  | _, _ => false
  end.

(** [_COMPRESSION_2_EXT] *)
Definition _COMPRESSION_2_EXT : list (option string * string) :=
  [(None, ""); (Some "gzip", ".gz"); (Some "snappy", ".snappy")].

(** [d.get(k, None)] on a dictionary keyed by [Optional[str]]. *)
Fixpoint get (d : list (option string * string)) (k : option string)
  : option string :=
  match d with
  | [] => None
  | (k', v) :: d' => if option_string_eqb k' k then Some v else get d' k
  end.

(** Modelled from the spec: [_utils.chunkify] is not part of the source
    at hand.  The spec has delete "chunk each container's key list into
    batches no larger than 1000" and issue "ceil(M/1000) batched delete
    requests, never larger": the list is cut, front to back, into batches
    of [max_length] items, the last one holding the rest. *)
Fixpoint chunkify_from {A : Type} (fuel : nat) (lst : list A) (max_length : nat)
  : list (list A) :=
  match fuel, lst with
  | S fuel', _ :: _ =>
      firstn max_length lst :: chunkify_from fuel' (skipn max_length lst) max_length
  | _, _ => []
  end.

Definition chunkify {A : Type} (lst : list A) (max_length : nat) : list (list A) :=
  chunkify_from (length lst) lst max_length.

(** ** Requests, programs and their execution *)

Section Programs.

Context {DF : Type}.

(** What the module asks of its collaborators. *)
Inductive request : Type :=
| HeadObject (Bucket Key : string)
| Paginate (Bucket Prefix : string) (PageSize : Z)   (* list_objects_v2 paginator *)
| DeleteObjects (Bucket : string) (Keys : list string)
| Sleep (secs : Z)
| Uuid4                                              (* uuid.uuid4().hex *)
| WriteTable (df : DF) (where_ : string) (preserve_index : bool)
             (compression : option string)           (* pyarrow.parquet.write_table *)
| ReadCsv (path : string) (pandas_args : kwargs)
| Pick (n : nat).                                    (* the pool runs one of n pending tasks *)

(** What comes back: a value, or an exception where the call can fail. *)
Definition answer (r : request) : Type :=
  match r with
  | HeadObject _ _ => result attributes
  | Paginate _ _ _ => result (list page)
  | DeleteObjects _ _ => result unit
  | Sleep _ => unit
  | Uuid4 => string
  | WriteTable _ _ _ _ => result unit
  | ReadCsv _ _ => result DF
  | Pick _ => nat
  end.

Inductive prog (A : Type) : Type :=
| Ret (a : A)
| Raise (e : exn)
| Vis (r : request) (k : answer r -> prog A).
Arguments Ret {A} a.
Arguments Raise {A} e.
Arguments Vis {A} r k.

Fixpoint bind {A B : Type} (p : prog A) (f : A -> prog B) : prog B :=
  match p with
  | Ret a => f a
  | Raise e => Raise e
  | Vis r k => Vis r (fun a => bind (k a) f)
  end.

(** [try: p] with the outcome kept as a value, as a future keeps it. *)
Fixpoint catch {A : Type} (p : prog A) : prog (result A) :=
  match p with
  | Ret a => Ret (Ok a)
  | Raise e => Ret (Err e)
  | Vis r k => Vis r (fun a => catch (k a))
  end.

Definition call (r : request) : prog (answer r) := Vis r (fun a => Ret a).

Definition lift {A : Type} (x : result A) : prog A :=
  match x with
  | Ok a => Ret a
  | Err e => Raise e
  end.

(** One request and its answer, as recorded by [run]. *)
Record event : Type := Event { ev_request : request; ev_answer : answer ev_request }.

Definition handler (W : Type) : Type := forall r : request, W -> answer r * W.

Fixpoint run {W A : Type} (h : handler W) (p : prog A) (w : W)
  : result A * W * list event :=
  match p with
  | Ret a => (Ok a, w, [])
  | Raise e => (Err e, w, [])
  | Vis r k =>
      let (a, w') := h r w in
      let '(res, w'', t) := run h (k a) w' in
      (res, w'', Event r a :: t)
  end.

End Programs.

Arguments request : clear implicits.
Arguments prog : clear implicits.
Arguments event : clear implicits.
Arguments handler : clear implicits.
Arguments Ret {DF A} a.
Arguments Raise {DF A} e.
Arguments Vis {DF A} r k.
Arguments lift {DF A} x.

Declare Scope prog_scope.
Delimit Scope prog_scope with prog.
Notation "x <- p ;; k" := (bind p (fun x => k))
  (at level 61, p at next level, right associativity) : prog_scope.
Notation "p ;; k" := (bind p (fun _ => k))
  (at level 61, right associativity) : prog_scope.
Open Scope prog_scope.

(** ** The thread pool *)

Section Pool.

Context {DF : Type} {R : Type}.

(** The [i]-th element of the non-empty list [x0 :: l] (the last one when
    [i] is too large) and the elements that stay. *)
Fixpoint extract {X : Type} (i : nat) (x0 : X) (l : list X) : X * list X :=
  match i, l with
  | S i', y :: l' => let (z, rest) := extract i' y l' in (z, x0 :: rest)
  | _, _ => (x0, l)
  end.

(** The pool runs its tasks to completion one after the other, in the order
    the scheduler picks; the outcome of task number [idx] is stored under
    [idx], whether it returned or raised. *)
Fixpoint pool (n : nat) (pending : list (nat * prog DF R))
         (done : list (nat * result R)) : prog DF (list (nat * result R)) :=
  match n, pending with
  | S n', x0 :: l =>
      i <- call (Pick (length pending)) ;;
      let (picked, rest) := extract i x0 l in
      r <- catch (snd picked) ;;
      pool n' rest ((fst picked, r) :: done)
  | _, _ => Ret done
  end.

Fixpoint future (done : list (nat * result R)) (idx : nat) : option (result R) :=
  match done with
  | [] => None
  | (i, r) :: done' => if Nat.eqb i idx then Some r else future done' idx
  end.

Definition enumerate {X : Type} (l : list X) : list (nat * X) :=
  combine (seq 0 (length l)) l.

(** [executor.map(f, items)] inside [with ThreadPoolExecutor(...)]: every
    task is submitted, the block waits for all of them, and the outcomes
    are in the order of the items. *)
Definition submit_all (tasks : list (prog DF R)) : prog DF (list (result R)) :=
  done <- pool (length tasks) (enumerate tasks) [] ;;
  Ret (flat_map (fun idx => match future done idx with
                            | Some r => [r]
                            | None => []
                            end) (seq 0 (length tasks))).

(** Iterating over the results re-raises the first exception met. *)
Fixpoint results (outcomes : list (result R)) : prog DF (list R) :=
  match outcomes with
  | [] => Ret []
  | Ok r :: rest => rs <- results rest ;; Ret (r :: rs)
  | Err e :: _ => Raise e
  end.

End Pool.

(** [list(executor.map(f, items))] *)
Definition executor_map {DF A R : Type} (f : A -> prog DF R) (items : list A)
  : prog DF (list R) :=
  outcomes <- submit_all (map f items) ;;
  results outcomes.

(** [[f(x) for x in items]] *)
Fixpoint for_list {DF A R : Type} (f : A -> prog DF R) (items : list A)
  : prog DF (list R) :=
  match items with
  | [] => Ret []
  | x :: rest => y <- f x ;; ys <- for_list f rest ;; Ret (y :: ys)
  end.

(** [for x in items: f(x)] *)
Fixpoint for_each {DF A : Type} (f : A -> prog DF unit) (items : list A)
  : prog DF unit :=
  match items with
  | [] => Ret tt
  | x :: rest => f x ;; for_each f rest
  end.

(** ** The module

    The functions of awswrangler/s3.py that the properties below are
    about, under their names.  A boto3 session only selects the client and
    [cpus] only sizes the thread pools of the collaborators: neither
    changes which requests are made, and neither is a parameter here; log
    messages and the messages of exceptions are left out.  A loop or a
    sub-expression that a proof refers to has a name of its own. *)

Section S3.

Context {DF : Type} {engine : DataFrameEngine DF} {utils : Utils}.

Definition is_not_found (e : exn) : bool :=
  match e with
  | ClientError code => (code =? 404)%Z
  | _ => false
  end.

Definition does_object_exists (path : string) : prog DF bool :=
  match split1 (replace_scheme path) with
  | (bucket, Some key) =>
      a <- call (HeadObject bucket key) ;;
      match a with
      | Ok _ => Ret true
      | Err (ClientError code) =>
          if (code =? 404)%Z then Ret false else Raise (ClientError code)
      | Err ex => Raise ex
      end
  | (_, None) => Raise ValueError
  end.

(** The locators of one page, in the order of its contents. *)
Definition page_paths (bucket : string) (pg : page) : list string :=
  match Contents pg with
  | Some contents =>
      flat_map (fun c => match c with
                         | Some {| Key := Some key |} =>
                             [("s3://" ++ bucket ++ "/" ++ key)%string]
                         | _ => []
                         end) contents
  | None => []
  end.

Definition list_objects (path : string) : prog DF (list string) :=
  bp <- lift (parse_path path) ;;
  let (bucket, prefix) := bp : string * string in
  pages <- call (Paginate bucket prefix 1000) ;;
  pages <- lift pages ;;
  Ret (flat_map (page_paths bucket) pages).

Definition _path2list (path : path_arg) : prog DF (list string) :=
  match path with
  | PStr s => list_objects s
  | PList l => Ret l
  | POther => Raise InvalidArgumentType
  end.

Fixpoint split_paths (paths : list string) (buckets : list (string * list string))
  : result (list (string * list string)) :=
  match paths with
  | [] => Ok buckets
  | path :: rest =>
      match parse_path path with
      | Ok (bucket, key) => split_paths rest (dict_append buckets bucket key)
      | Err e => Err e
      end
  end.

Definition _split_paths_by_bucket (paths : list string)
  : result (list (string * list string)) :=
  split_paths paths [].

Definition _delete_objects (bucket : string) (keys : list string) : prog DF unit :=
  a <- call (DeleteObjects bucket keys) ;;
  lift a.

(** The body of the loop over [buckets.items()]. *)
Definition delete_bucket (use_threads : bool) (bk : string * list string)
  : prog DF unit :=
  let (bucket, keys) := bk in
  let chunks := chunkify keys 1000 in
  if negb use_threads then for_each (_delete_objects bucket) chunks
  else submit_all (map (_delete_objects bucket) chunks) ;; Ret tt.

(** [delete_objects] once the argument is resolved. *)
Definition delete_paths (use_threads : bool) (paths : list string) : prog DF unit :=
  if (length paths <? 1)%nat then Ret tt
  else
    buckets <- lift (_split_paths_by_bucket paths) ;;
    for_each (delete_bucket use_threads) buckets.

Definition delete_objects (path : path_arg) (use_threads : bool) : prog DF unit :=
  paths <- _path2list path ;;
  delete_paths use_threads paths.

(** [int(wait_time) if isinstance(wait_time, float) else wait_time] *)
Definition as_int (wait_time : number) : result Z :=
  match wait_time with
  | PyInt z => Ok z
  | x => int x
  end.

(** [tries] of [_describe_object]: the conversion of the line before it
    comes first, and its exception is the function's. *)
Definition tries_of (wait_time : option number) : result Z :=
  match wait_time with
  | Some x =>
      match as_int x with
      | Ok n => Ok (if (n >? 0)%Z then n else 1%Z)
      | Err e => Err e
      end
  | None => Ok 1%Z
  end.

(** [for i in range(tries, 0, -1)], [i] being the tries that are left. *)
Fixpoint describe_loop (bucket key : string) (i : nat) : prog DF attributes :=
  match i with
  | O => Ret []
  | S i' =>
      a <- call (HeadObject bucket key) ;;
      match a with
      | Ok desc => Ret desc
      | Err (ClientError code) =>
          if (code =? 404)%Z then
            if Nat.eqb i 1 then Ret []
            else call (Sleep 1) ;; describe_loop bucket key i'
          else Raise (ClientError code)
      | Err e => Raise e
      end
  end.

Definition _describe_object (path : string) (wait_time : option number)
  : prog DF (string * attributes) :=
  tries <- lift (tries_of wait_time) ;;
  bk <- lift (parse_path path) ;;
  let (bucket, key) := bk : string * string in
  desc <- describe_loop bucket key (Z.to_nat tries) ;;
  Ret (path, desc).

Definition describe_objects (path : path_arg) (wait_time : option number)
           (use_threads : bool) : prog DF (list (string * attributes)) :=
  paths <- _path2list path ;;
  if (length paths <? 1)%nat then Ret []
  else
    resp_list <- (if negb use_threads
                  then for_list (fun p => _describe_object p wait_time) paths
                  else executor_map (fun p => _describe_object p wait_time) paths) ;;
    Ret (dict resp_list).

Definition _to_parquet_file (df : DF) (path : string) (index : bool)
           (compression : option string) : prog DF string :=
  a <- call (WriteTable df path index compression) ;;
  lift a ;;
  Ret path.

(** Truth value of an [Optional[List[str]]] and of an [Optional[str]]. *)
Definition truthy_cols (partition_cols : option (list string)) : bool :=
  match partition_cols with
  | Some (_ :: _) => true
  | _ => false
  end.

Definition truthy_str (s : option string) : bool :=
  match s with
  | Some (String _ _) => true
  | _ => false
  end.

Definition cols_of (partition_cols : option (list string)) : list string :=
  match partition_cols with
  | Some cols => cols
  | None => []
  end.

(** [(keys,) if not isinstance(keys, tuple) else keys] *)
Definition as_tuple (keys : group_key) : list value :=
  match keys with
  | KTuple vs => vs
  | KScalar v => [v]
  end.

(** ["/".join([f"{name}={val}" for name, val in zip(partition_cols, keys)])] *)
Definition subdir_of (partition_cols : list string) (keys : list value) : string :=
  String.concat "/"
    (map (fun nv => (fst nv ++ "=" ++ str (snd nv))%string)
         (combine partition_cols keys)).

(** The loop over the groups of [_to_parquet_dataset]. *)
Fixpoint write_groups (path : string) (index : bool) (compression : option string)
         (compression_ext : string) (use_threads : bool) (mode : string)
         (partition_cols : list string) (groups : list (group_key * DF))
  : prog DF (list string) :=
  match groups with
  | [] => Ret []
  | (keys, subgroup) :: rest =>
      subgroup <- lift (drop subgroup partition_cols) ;;
      let keys := as_tuple keys in
      let subdir := subdir_of partition_cols keys in
      let prefix := (path ++ subdir ++ "/")%string in
      (if (mode =? "partitions_upsert")%string
       then delete_objects (PStr prefix) use_threads
       else Ret tt) ;;
      hex <- call Uuid4 ;;
      let file_path := (prefix ++ hex ++ compression_ext ++ ".parquet")%string in
      _to_parquet_file subgroup file_path index compression ;;
      paths <- write_groups path index compression compression_ext use_threads
                            mode partition_cols rest ;;
      Ret (file_path :: paths)
  end.

Definition mode_in (mode : string) (modes : list string) : bool :=
  existsb (String.eqb mode) modes.

Definition _to_parquet_dataset (df : DF) (path : string) (index : bool)
           (compression : option string) (compression_ext : string)
           (use_threads : bool) (mode : string)
           (partition_cols : option (list string)) : prog DF (list string) :=
  path <- lift (with_slash path) ;;
  if negb (mode_in mode ["append"; "overwrite"; "partitions_upsert"])
  then Raise InvalidArgumentValue
  else
    (if (mode =? "overwrite")%string
        || ((mode =? "partitions_upsert")%string && negb (truthy_cols partition_cols))
     then delete_objects (PStr path) use_threads
     else Ret tt) ;;
    if negb (truthy_cols partition_cols) then
      hex <- call Uuid4 ;;
      let file_path := (path ++ hex ++ compression_ext ++ ".parquet")%string in
      _to_parquet_file df file_path index compression ;;
      Ret [file_path]
    else
      groups <- lift (groupby df (cols_of partition_cols)) ;;
      write_groups path index compression compression_ext use_threads mode
                   (cols_of partition_cols) groups.

Definition to_parquet (df : DF) (path : string) (index : bool)
           (compression : option string) (use_threads : bool) (dataset : bool)
           (partition_cols : option (list string)) (mode : option string)
  : prog DF (list string) :=
  match get _COMPRESSION_2_EXT compression with
  | None => Raise InvalidCompression
  | Some compression_ext =>
      if negb dataset then
        if truthy_cols partition_cols then Raise InvalidArgumentCombination
        else if truthy_str mode then Raise InvalidArgumentCombination
        else
          p <- _to_parquet_file df path index compression ;;
          Ret [p]
      else
        let mode := match mode with None => "append" | Some m => m end in
        _to_parquet_dataset df path index compression compression_ext
                            use_threads mode partition_cols
  end.

Definition _read_csv (path : string) (pandas_args : kwargs) : prog DF DF :=
  a <- call (ReadCsv path pandas_args) ;;
  lift a.

Definition read_csv (path : path_arg) (use_threads : bool) (pandas_kwargs : kwargs)
  : prog DF DF :=
  paths <- _path2list path ;;
  frames <- (if negb use_threads
             then for_list (fun p => _read_csv p pandas_kwargs) paths
             else executor_map (fun p => _read_csv p pandas_kwargs) paths) ;;
  lift (concat frames).

End S3.

(** ** Sizes *)

Section Sizes.

Context {DF : Type} {utils : Utils}.

(** [d.get(key, None)] on the response of head_object. *)
Fixpoint attribute (d : attributes) (key : string) : option string :=
  match d with
  | [] => None
  | (k, v) :: d' => if String.eqb k key then Some v else attribute d' key
  end.

(** The dictionary comprehension of [size_objects]. *)
Definition sizes_of (desc_list : list (string * attributes))
  : list (string * option string) :=
  map (fun kd => (fst kd, attribute (snd kd) "ContentLength")) desc_list.

Definition size_objects (path : path_arg) (wait_time : option number)
           (use_threads : bool) : prog DF (list (string * option string)) :=
  desc_list <- describe_objects path wait_time use_threads ;;
  Ret (sizes_of desc_list).

End Sizes.

(** ** Outcomes in the order of the items *)

(** The result of iterating over outcomes: the values, or the first
    exception. *)
Fixpoint collect {R : Type} (outcomes : list (result R)) : result (list R) :=
  match outcomes with
  | [] => Ok []
  | Ok r :: rest =>
      match collect rest with
      | Ok rs => Ok (r :: rs)
      | Err e => Err e
      end
  | Err e :: _ => Err e
  end.

(** ** The layout of a dataset *)

(** The file of one group, as [_to_parquet_dataset] names it:
    [<path><col1=v1/col2=v2/...>/<hex><ext>.parquet]. *)
Definition group_path (path : string) (partition_cols : list string)
           (compression_ext : string) (keys : group_key) (hex : string) : string :=
  ((path ++ subdir_of partition_cols (as_tuple keys) ++ "/")
     ++ hex ++ compression_ext ++ ".parquet")%string.

(** The files of the groups, the [i]-th group under the [i]-th name. *)
Fixpoint group_files {DF : Type} (path : string) (partition_cols : list string)
         (compression_ext : string) (groups : list (group_key * DF))
         (hexes : list string) : list string :=
  match groups, hexes with
  | (keys, _) :: groups', hex :: hexes' =>
      group_path path partition_cols compression_ext keys hex
      :: group_files path partition_cols compression_ext groups' hexes'
  | _, _ => []
  end.

(** ** The layout of a dataset, in the words of the spec

    What follows is written from the spec, not from the source, to be
    compared with what [_to_parquet_dataset] computes: the file of a group
    lies at [<normalized-prefix><col1=v1/col2=v2/...>/<name><ext>.parquet],
    "the column=value segments joined in the given partition-column
    order". *)

(** A value as a segment shows it: a string as it is, an integer in
    decimal digits. *)
Definition spec_text (v : value) : string :=
  match v with
  | VStr s => s
  | VInt z => NilZero.string_of_int (Z.to_int z)
  end.

(** The values of the key of a group, one per partition column: the key
    itself when there is one column, the components of the tuple when
    there are several. *)
Definition spec_values (keys : group_key) : list value :=
  match keys with
  | KScalar v => [v]
  | KTuple vs => vs
  end.

(** [col1=v1/col2=v2/...], the first partition column first. *)
Fixpoint spec_segments (cols : list string) (vals : list value) : string :=
  match cols, vals with
  | c :: cols', v :: vals' =>
      match cols', vals' with
      | _ :: _, _ :: _ =>
          (c ++ "=" ++ spec_text v ++ "/" ++ spec_segments cols' vals')%string
      | _, _ => (c ++ "=" ++ spec_text v)%string
      end
  | _, _ => EmptyString
  end.

(** The file of the group of key [keys], under the name [hex]. *)
Definition spec_file (dir : string) (cols : list string) (ext : string)
           (keys : group_key) (hex : string) : string :=
  (dir ++ spec_segments cols (spec_values keys) ++ "/" ++ hex ++ ext ++ ".parquet")%string.

(** The files of the groups, the [i]-th group under the [i]-th name. *)
Definition spec_files {DF : Type} (dir : string) (cols : list string) (ext : string)
           (groups : list (group_key * DF)) (hexes : list string) : list string :=
  map (fun gh => spec_file dir cols ext (fst (fst gh)) (snd gh)) (combine groups hexes).

(** ** Observations on a run *)

Section Observations.

Context {DF : Type}.

Definition outcome {W A : Type} (x : result A * W * list (event DF)) : result A :=
  fst (fst x).

Definition final {W A : Type} (x : result A * W * list (event DF)) : W :=
  snd (fst x).

Definition trace {W A : Type} (x : result A * W * list (event DF)) : list (event DF) :=
  snd x.

Definition requests (t : list (event DF)) : list (request DF) :=
  map (@ev_request DF) t.

Definition is_head (r : request DF) : bool :=
  match r with HeadObject _ _ => true | _ => false end.

Definition is_write (r : request DF) : bool :=
  match r with WriteTable _ _ _ _ => true | _ => false end.

Definition is_listing (r : request DF) : bool :=
  match r with Paginate _ _ _ => true | _ => false end.

Definition is_delete (r : request DF) : bool :=
  match r with DeleteObjects _ _ => true | _ => false end.

Definition is_pick (r : request DF) : bool :=
  match r with Pick _ => true | _ => false end.

(** The bulk deletes of a trace: bucket and keys of each, in order. *)
Definition delete_requests (t : list (event DF)) : list (string * list string) :=
  flat_map (fun ev => match ev_request ev with
                      | DeleteObjects b keys => [(b, keys)]
                      | _ => []
                      end) t.

(** The table writes of a trace, in order. *)
Definition write_requests (t : list (event DF)) : list (request DF) :=
  filter is_write (requests t).

(** The requests a delete is made of: one listing, bulk deletes and the
    picks of the scheduler. *)
Definition is_cleanup (r : request DF) : bool :=
  is_listing r || is_delete r || is_pick r.

(** The keys of the locators of one bucket, in the order of the locators,
    [parsed] being the bucket and key of each locator. *)
Definition keys_of_bucket (parsed : list (string * string)) (bucket : string)
  : list string :=
  map snd (filter (fun bk => String.eqb (fst bk) bucket) parsed).

(** [buckets.get(bucket, [])] *)
Fixpoint keys_in (buckets : list (string * list string)) (bucket : string)
  : list string :=
  match buckets with
  | [] => []
  | (b, keys) :: rest => if String.eqb b bucket then keys else keys_in rest bucket
  end.

(** The dictionary after the loop of [_split_paths_by_bucket] over
    locators parsed as [parsed]. *)
Definition group_keys (parsed : list (string * string))
           (buckets : list (string * list string)) : list (string * list string) :=
  fold_left (fun d bk => dict_append d (fst bk) (snd bk)) parsed buckets.

(** One bulk delete per chunk of a bucket's keys, bucket after bucket. *)
Definition chunk_deletes (buckets : list (string * list string))
  : list (string * list string) :=
  flat_map (fun bk => map (pair (fst bk)) (chunkify (snd bk) 1000)) buckets.

(** The names the uuid generator handed out, in order. *)
Definition uuid_answers (t : list (event DF)) : list string :=
  flat_map (fun ev => match ev with
                      | Event Uuid4 hex => [hex]
                      | _ => []
                      end) t.

(** The answers to the point lookups of a trace, in order. *)
Definition head_answers (t : list (event DF)) : list (result attributes) :=
  flat_map (fun ev => match ev with
                      | Event (HeadObject _ _) a => [a]
                      | _ => []
                      end) t.

(** No bulk delete of the trace was answered by an exception. *)
Definition deletes_succeed (t : list (event DF)) : Prop :=
  Forall (fun ev => match ev with
                    | Event (DeleteObjects _ _) (Err _) => False
                    | _ => True
                    end) t.

(** [n] point lookups of one object, one second of sleep between two. *)
Fixpoint polling (bucket key : string) (n : nat) : list (request DF) :=
  match n with
  | O => []
  | S O => [HeadObject bucket key]
  | S n' => HeadObject bucket key :: Sleep 1 :: polling bucket key n'
  end.

End Observations.

(** ** Words for the statements *)

(** ["s3://" in s] *)
Fixpoint has_scheme (s : string) : bool :=
  match s with
  | EmptyString => false
  | String _ s' => prefix "s3://" s || has_scheme s'
  end.

(** ["/" in s] *)
Fixpoint has_slash (s : string) : bool :=
  match s with
  | EmptyString => false
  | String c s' => Ascii.eqb c "/"%char || has_slash s'
  end.

(** The keys of a list, each once, in the order of their first occurrence. *)
Definition distinct (keys : list string) : list string :=
  fold_left (fun acc k => if existsb (String.eqb k) acc then acc else acc ++ [k])
            keys [].

(** The bucket and key pairs a dictionary of buckets, or a list of bulk
    deletes, stands for. *)
Definition flatten (buckets : list (string * list string)) : list (string * string) :=
  flat_map (fun bk => map (pair (fst bk)) (snd bk)) buckets.

(** What [_describe_object] says of a locator in a run of trace [t]: its
    attributes are empty, or they are the answer the store gave in [t] to
    a lookup of its bucket and key. *)
Definition described {DF : Type} {utils : Utils} (t : list (event DF))
           (p : string) (v : string * attributes) : Prop :=
  fst v = p /\
  (snd v = [] \/
   exists b k, parse_path p = Ok (b, k) /\ In (Event (HeadObject b k) (Ok (snd v))) t).

(** A waiting time that has whole seconds: None, an integer or a finite
    float. *)
Definition finite (wait_time : option number) : Prop :=
  match wait_time with
  | Some (PyInf _) | Some PyNaN => False
  | _ => True
  end.

(** In the trace [t] the prefix [dir] was listed, and every locator of the
    listing is named by a bulk delete of [t]. *)
Definition cleaned {DF : Type} {utils : Utils} (t : list (event DF)) (dir : string)
  : Prop :=
  exists bucket prefix pages,
    parse_path dir = Ok (bucket, prefix) /\
    In (Event (Paginate bucket prefix 1000) (Ok pages)) t /\
    forall p, In p (flat_map (page_paths bucket) pages) ->
              exists b k keys,
                parse_path p = Ok (b, k) /\
                In (b, keys) (delete_requests t) /\ In k keys.

(** The answers to the reads of a trace, in order. *)
Definition read_answers {DF : Type} (t : list (event DF)) : list (result DF) :=
  flat_map (fun ev => match ev with
                      | Event (ReadCsv _ _) a => [a]
                      | _ => []
                      end) t.

(** The exception a table write was answered with, if the event is one. *)
Definition write_error {DF : Type} (ev : event DF) : option exn :=
  match ev with
  | Event (WriteTable _ _ _ _) (Err e) => Some e
  | _ => None
  end.

(** In every run of [p], a table write answered with an exception is the
    last request, and the run raises that exception. *)
Definition stops_at_failed_write {DF W A : Type} (h : handler DF W) (p : prog DF A)
  : Prop :=
  forall (w : W) t1 ev t2 e,
    trace (run h p w) = t1 ++ ev :: t2 ->
    write_error ev = Some e ->
    t2 = [] /\ outcome (run h p w) = Err e.

(** ** A reference environment

    One concrete choice for each collaborator, to run the module on: the
    locator parser of the spec, a dataframe engine over rows of cells and
    an object store that keeps what is written to it. *)

Module Reference.

(** [s] without its leading [p], when it starts with [p]. *)
Fixpoint after_prefix (p s : string) : option string :=
  match p, s with
  | EmptyString, _ => Some s
  | String a p', String b s' => if Ascii.eqb a b then after_prefix p' s' else None
  | String _ _, EmptyString => None
  end.

(** Modelled from the spec: [_utils.parse_path] is not part of the source
    at hand.  The spec has it "split on the first path separator after
    the scheme" and "fail with InvalidArgument if the remainder is
    empty"; a locator "must contain exactly one container segment and a
    non-empty remainder; malformed locators fail fast".  So only the
    leading scheme is taken off, and a locator without it, without a
    container or without a key is refused. *)
Definition spec_parse_path (path : string) : result (string * string) :=
  match after_prefix "s3://" path with
  | Some rest =>
      match split1 rest with
      | (String b bucket, Some (String c key)) => Ok (String b bucket, String c key)
      | _ => Err (OtherError "InvalidArgument")
      end
  | None => Err (OtherError "InvalidArgument")
  end.

#[global] Instance spec_utils : Utils := {| parse_path := spec_parse_path |}.

(** A dataframe: the column names and the rows, a cell per column. *)
Record frame : Type := { columns : list string; rows : list (list value) }.

Definition value_compare (a b : value) : comparison :=
  match a, b with
  | VInt x, VInt y => Z.compare x y
  | VInt _, VStr _ => Lt
  | VStr _, VInt _ => Gt
  | VStr x, VStr y => String.compare x y
  end.

Fixpoint key_compare (a b : list value) : comparison :=
  match a, b with
  | [], [] => Eq
  | [], _ :: _ => Lt
  | _ :: _, [] => Gt
  | x :: a', y :: b' =>
      match value_compare x y with
      | Eq => key_compare a' b'
      | c => c
      end
  end.

Definition key_eqb (a b : list value) : bool :=
  match key_compare a b with Eq => true | _ => false end.

(** Insertion into a sorted list of distinct keys. *)
Fixpoint insert_key (k : list value) (l : list (list value)) : list (list value) :=
  match l with
  | [] => [k]
  | k' :: l' =>
      match key_compare k k' with
      | Lt => k :: l
      | Eq => l
      | Gt => k' :: insert_key k l'
      end
  end.

Fixpoint index_of (c : string) (cols : list string) : option nat :=
  match cols with
  | [] => None
  | c' :: cols' =>
      if String.eqb c' c then Some O
      else match index_of c cols' with
           | Some i => Some (S i)
           | None => None
           end
  end.

Fixpoint positions (by_ : list string) (cols : list string) : option (list nat) :=
  match by_ with
  | [] => Some []
  | c :: by' =>
      match index_of c cols, positions by' cols with
      | Some i, Some ps => Some (i :: ps)
      | _, _ => None
      end
  end.

Definition cell (row : list value) (i : nat) : value := nth i row (VStr "nan").

Definition key_of (ps : list nat) (row : list value) : list value :=
  map (cell row) ps.

(** [df.groupby(by=cols, observed=True)]: one group per distinct tuple of
    the values of [cols], the groups in the order of their keys; the key
    is a scalar when there is one column. *)
Definition frame_groupby (df : frame) (by_ : list string)
  : result (list (group_key * frame)) :=
  match positions by_ (columns df) with
  | None => Err (OtherError "KeyError")
  | Some ps =>
      let keys := fold_right insert_key [] (map (key_of ps) (rows df)) in
      Ok (map (fun k =>
                 (match k with [v] => KScalar v | _ => KTuple k end,
                  {| columns := columns df;
                     rows := filter (fun row => key_eqb (key_of ps row) k) (rows df) |}))
              keys)
  end.

Definition mem (c : string) (cols : list string) : bool :=
  existsb (String.eqb c) cols.

(** [df.drop(cols, axis="columns")] *)
Definition frame_drop (df : frame) (cols : list string) : result frame :=
  match positions cols (columns df) with
  | None => Err (OtherError "KeyError")
  | Some _ =>
      let keep (named : list (string * value)) :=
        map snd (filter (fun cv => negb (mem (fst cv) cols)) named) in
      Ok {| columns := filter (fun c => negb (mem c cols)) (columns df);
            rows := map (fun row => keep (combine (columns df) row)) (rows df) |}
  end.

(** [pd.concat(objs, ignore_index=True, sort=False)] *)
Definition frame_concat (objs : list frame) : result frame :=
  match objs with
  | [] => Err ValueError
  | _ =>
      let cols := fold_left (fun acc df =>
                    acc ++ filter (fun c => negb (mem c acc)) (columns df)) objs [] in
      let widen (df : frame) (row : list value) :=
        map (fun c => match index_of c (columns df) with
                      | Some i => cell row i
                      | None => VStr "nan"
                      end) cols in
      Ok {| columns := cols;
            rows := flat_map (fun df => map (widen df) (rows df)) objs |}
  end.

#[global] Instance frames : DataFrameEngine frame :=
  {| groupby := frame_groupby; drop := frame_drop; concat := frame_concat |}.

(** The object store: the objects it holds, the next name the uuid
    generator hands out and the picks the scheduler will make. *)
Record s3 : Type := {
  objects : list (string * string * frame);
  next_uuid : nat;
  schedule : list nat
}.

Definition same_object (bucket key : string) (o : string * string * frame) : bool :=
  String.eqb (fst (fst o)) bucket && String.eqb (snd (fst o)) key.

Definition find_object (bucket key : string) (w : s3) : option frame :=
  match filter (same_object bucket key) (objects w) with
  | o :: _ => Some (snd o)
  | [] => None
  end.

Definition with_objects (objs : list (string * string * frame)) (w : s3) : s3 :=
  {| objects := objs; next_uuid := next_uuid w; schedule := schedule w |}.

(** The store answers every request from what it holds. *)
Definition serve : handler frame s3 :=
  fun r =>
    match r as r' return s3 -> answer r' * s3 with
    | HeadObject b k => fun w =>
        (match find_object b k w with
         | Some df => Ok [("ContentLength", NilZero.string_of_uint (Nat.to_uint (length (rows df))))]
         | None => Err (ClientError 404)
         end, w)
    | Paginate b p size => fun w =>
        let keys := map (fun o => snd (fst o))
                        (filter (fun o => String.eqb (fst (fst o)) b
                                          && prefix p (snd (fst o))) (objects w)) in
        (Ok (map page_of_keys (chunkify keys (Z.to_nat size))), w)
    | DeleteObjects b keys => fun w =>
        (Ok tt, with_objects (filter (fun o => negb (String.eqb (fst (fst o)) b
                                                      && mem (snd (fst o)) keys))
                                     (objects w)) w)
    | Sleep _ => fun w => (tt, w)
    | Uuid4 => fun w =>
        (NilZero.string_of_uint (Nat.to_uint (next_uuid w)),
         {| objects := objects w; next_uuid := S (next_uuid w); schedule := schedule w |})
    | WriteTable df p _ _ => fun w =>
        match spec_parse_path p with
        | Ok (b, k) =>
            (Ok tt, with_objects (filter (fun o => negb (same_object b k o)) (objects w)
                                  ++ [(b, k, df)]) w)
        | Err e => (Err e, w)
        end
    | ReadCsv p _ => fun w =>
        (match spec_parse_path p with
         | Ok (b, k) => match find_object b k w with
                        | Some df => Ok df
                        | None => Err (ClientError 404)
                        end
         | Err e => Err e
         end, w)
    | Pick _ => fun w =>
        match schedule w with
        | i :: rest => (i, {| objects := objects w; next_uuid := next_uuid w; schedule := rest |})
        | [] => (O, w)
        end
    end.

(** The dataframe of the spec's partitioning example:
    [{a: [1, 2, 3], b: ["x", "x", "y"]}]. *)
Definition example_df : frame :=
  {| columns := ["a"; "b"];
     rows := [[VInt 1; VStr "x"]; [VInt 2; VStr "x"]; [VInt 3; VStr "y"]] |}.

(** Sales by year and city, to be partitioned by both. *)
Definition sales_df : frame :=
  {| columns := ["year"; "city"; "amount"];
     rows := [[VInt 2021; VStr "Natal"; VInt 20];
              [VInt 2020; VStr "Recife"; VInt 10];
              [VInt 2020; VStr "Recife"; VInt 30];
              [VInt 2020; VStr "Natal"; VInt 5]] |}.

Definition empty_store : s3 := {| objects := []; next_uuid := 0; schedule := [] |}.

(** A store that holds an earlier version of a dataset. *)
Definition dataset_store : s3 :=
  {| objects := [("bucket", "prefix/old0.parquet", example_df);
                 ("bucket", "elsewhere/file.parquet", example_df);
                 ("bucket", "prefix/old1.parquet", example_df)];
     next_uuid := 0;
     schedule := [] |}.

(** What overwriting that dataset with one file asks of the store before
    the file is written, and the write itself. *)
Definition cleanup_trace : list (event frame) :=
  [Event (Paginate "bucket" "prefix/" 1000)
         (Ok [page_of_keys ["prefix/old0.parquet"; "prefix/old1.parquet"]]);
   Event (DeleteObjects "bucket" ["prefix/old0.parquet"; "prefix/old1.parquet"])
         (Ok tt);
   Event Uuid4 "0"].

Definition first_write : event frame :=
  Event (WriteTable example_df "s3://bucket/prefix/0.snappy.parquet" false
                    (Some "snappy")) (Ok tt).

(** A store that holds two partitions of a dataset, and what the upsert of
    [example_df] by column [b] asks of it before it writes the partition
    [b=x], followed by that write. *)
Definition partitioned_store : s3 :=
  {| objects := [("bucket", "prefix/b=x/old.snappy.parquet", example_df);
                 ("bucket", "prefix/b=z/keep.snappy.parquet", example_df)];
     next_uuid := 0;
     schedule := [] |}.

Definition upsert_cleanup : list (event frame) :=
  [Event (Paginate "bucket" "prefix/b=x/" 1000)
         (Ok [page_of_keys ["prefix/b=x/old.snappy.parquet"]]);
   Event (DeleteObjects "bucket" ["prefix/b=x/old.snappy.parquet"]) (Ok tt);
   Event Uuid4 "0"].

Definition upsert_write : event frame :=
  Event (WriteTable {| columns := ["a"]; rows := [[VInt 1]; [VInt 2]] |}
                    "s3://bucket/prefix/b=x/0.snappy.parquet" false (Some "snappy"))
        (Ok tt).

(** A store that accepts as many table writes as its state says and
    refuses the next ones. *)
Definition quota : handler frame nat :=
  fun r =>
    match r as r' return nat -> answer r' * nat with
    | HeadObject _ _ => fun w => (Err (ClientError 404), w)
    | Paginate _ _ _ => fun w => (Ok [], w)
    | DeleteObjects _ _ => fun w => (Ok tt, w)
    | Sleep _ => fun w => (tt, w)
    | Uuid4 => fun w => ("0", w)
    | WriteTable _ _ _ _ => fun w =>
        match w with
        | S n => (Ok tt, n)
        | O => (Err (ClientError 403), O)
        end
    | ReadCsv _ _ => fun w => (Err (ClientError 404), w)
    | Pick _ => fun w => (O, w)
    end.

(** The second write of [example_df] by column [a], refused. *)
Definition refused_write : event frame :=
  Event (WriteTable {| columns := ["b"]; rows := [[VStr "x"]] |}
                    "s3://bucket/prefix/a=2/0.parquet" false None)
        (Err (ClientError 403)).

(** A store that answers every request the same way whenever it is asked;
    its state is the list of picks the scheduler has left. *)
Definition steady : handler frame (list nat) :=
  fun r =>
    match r as r' return list nat -> answer r' * list nat with
    | HeadObject _ k => fun w => (Ok [("ETag", k)], w)
    | Paginate _ _ _ => fun w => (Ok [], w)
    | DeleteObjects _ _ => fun w => (Ok tt, w)
    | Sleep _ => fun w => (tt, w)
    | Uuid4 => fun w => ("0", w)
    | WriteTable _ _ _ _ => fun w => (Ok tt, w)
    | ReadCsv p _ => fun w => (Ok {| columns := [p]; rows := [[VStr p]] |}, w)
    | Pick _ => fun w =>
        match w with
        | i :: rest => (i, rest)
        | [] => (O, [])
        end
    end.

(** [n] locators of one bucket. *)
Definition numbered_paths (n : nat) : list string :=
  map (fun i => ("s3://bucket/key" ++ NilZero.string_of_uint (Nat.to_uint i))%string)
      (seq 0 n).

(** A store with three objects, two of them under one prefix. *)
Definition listed_store : s3 :=
  {| objects :=
       [("bucket", "prefix0", example_df);
        ("bucket", "other", example_df);
        ("bucket", "prefix1", example_df)];
     next_uuid := 0;
     schedule := [] |}.

End Reference.

(** * Properties *)

Unset Implicit Arguments.
#[local] Arguments String.eqb : simpl never.

Section RunLemmas.

Context {DF W : Type} (h : handler DF W).

Lemma run_bind (A B : Type) (p : prog DF A) (f : A -> prog DF B) (w : W) :
  run h (bind p f) w =
  match run h p w with
  | (Ok a, w', t) => let '(r, w'', t') := run h (f a) w' in (r, w'', t ++ t')
  | (Err e, w', t) => (Err e, w', t)
  end.
Proof.
  revert w. induction p as [a | e | r k IH]; intro w; simpl.
  - destruct (run h (f a) w) as [[r w''] t']. reflexivity.
  - reflexivity.
  - destruct (h r w) as [a w1]. rewrite IH.
    destruct (run h (k a) w1) as [[[x | e] w2] t]; [|reflexivity].
    destruct (run h (f x) w2) as [[r' w3] t']. reflexivity.
Qed.

Lemma run_catch (A : Type) (p : prog DF A) (w : W) :
  run h (catch p) w =
  let '(r, w', t) := run h p w in (Ok r, w', t).
Proof.
  revert w. induction p as [a | e | r k IH]; intro w; simpl; try reflexivity.
  destruct (h r w) as [a w1]. rewrite IH.
  destruct (run h (k a) w1) as [[r' w2] t]. reflexivity.
Qed.

Lemma run_call (r : request DF) (w : W) :
  run h (call r) w = (Ok (fst (h r w)), snd (h r w), [Event r (fst (h r w))]).
Proof. unfold call. simpl. destruct (h r w). reflexivity. Qed.

Lemma run_lift (A : Type) (x : result A) (w : W) :
  run h (lift x) w = (x, w, []).
Proof. destruct x; reflexivity. Qed.

End RunLemmas.

(** ** Existence of an object *)

Section Existence.

Context {DF W : Type} (h : handler DF W).

(** C10: for a locator that splits into bucket and key,
    [does_object_exists] makes one point lookup; it returns True when the
    lookup succeeds, returns False exactly when the lookup fails with a
    client error of HTTP status 404, and raises any other error as it
    received it. *)
Theorem does_object_exists_outcome (w : W) (path bucket key : string) :
  split1 (replace_scheme path) = (bucket, Some key) ->
  let a := fst (h (HeadObject bucket key) w) in
  let r := run h (does_object_exists path) w in
  requests (trace r) = [HeadObject bucket key] /\
  (forall desc, a = Ok desc -> outcome r = Ok true) /\
  (outcome r = Ok false <-> a = Err (ClientError 404)) /\
  (forall e, a = Err e -> e <> ClientError 404 -> outcome r = Err e).
Proof.
  intros Hsplit. unfold does_object_exists. rewrite Hsplit.
  rewrite run_bind, run_call. cbv zeta.
  destruct (h (HeadObject bucket key) w) as [a w'].
  cbn [fst snd]. destruct a as [desc | e].
  - cbn. repeat split; try discriminate; congruence.
  - destruct e as [ | | | | | | | code | name]; cbn;
      try (repeat split; try discriminate; congruence).
    destruct (Z.eqb_spec code 404) as [-> | Hne]; cbn.
    + repeat split; try discriminate; congruence.
    + repeat split; try discriminate; congruence.
Qed.

End Existence.

Lemma does_object_exists_outcome_witness :
  outcome (run Reference.serve (does_object_exists "s3://bucket/key")
               Reference.empty_store) = Ok false.
Proof.
  apply (does_object_exists_outcome Reference.serve Reference.empty_store
           "s3://bucket/key" "bucket" "key"); reflexivity.
Defined.

(** ** Arguments of the writer *)

Lemma get_ext_cases (c : option string) (ext : string) :
  get _COMPRESSION_2_EXT c = Some ext ->
  (c = None /\ ext = "") \/
  (c = Some "gzip" /\ ext = ".gz") \/
  (c = Some "snappy" /\ ext = ".snappy").
Proof.
  destruct c as [s | ]; simpl.
  - destruct (String.eqb_spec "gzip" s) as [<- | _].
    + intros [= <-]. auto.
    + destruct (String.eqb_spec "snappy" s) as [<- | _]; [|discriminate].
      intros [= <-]. auto.
  - intros [= <-]. auto.
Qed.

Lemma get_ext_unknown (c : option string) :
  ~ In c [None; Some "gzip"; Some "snappy"] -> get _COMPRESSION_2_EXT c = None.
Proof.
  intros Hc. destruct (get _COMPRESSION_2_EXT c) as [ext | ] eqn:E; [|reflexivity].
  exfalso. apply Hc. simpl.
  destruct (get_ext_cases _ _ E) as [[-> _] | [[-> _] | [-> _]]]; auto.
Qed.

Section WriterArguments.

Context {DF : Type} {engine : DataFrameEngine DF} {utils : Utils}.
Context {W : Type} (h : handler DF W).

(** C5: the three compression kinds None, "gzip" and "snappy" map to the
    suffixes "", ".gz" and ".snappy", no two of them to the same one; with
    any other kind [to_parquet] raises InvalidCompression and has made no
    request at all by then. *)
Theorem to_parquet_compression_kinds :
  (get _COMPRESSION_2_EXT None = Some "" /\
   get _COMPRESSION_2_EXT (Some "gzip") = Some ".gz" /\
   get _COMPRESSION_2_EXT (Some "snappy") = Some ".snappy") /\
  (forall c1 c2 ext,
      get _COMPRESSION_2_EXT c1 = Some ext ->
      get _COMPRESSION_2_EXT c2 = Some ext -> c1 = c2) /\
  (forall (w : W) df path index compression use_threads dataset partition_cols mode,
      ~ In compression [None; Some "gzip"; Some "snappy"] ->
      run h (to_parquet df path index compression use_threads dataset
                        partition_cols mode) w
      = (Err InvalidCompression, w, [])).
Proof.
  split; [repeat split | split].
  - intros c1 c2 ext H1 H2.
    destruct (get_ext_cases _ _ H1) as [[-> ->] | [[-> ->] | [-> ->]]];
      destruct (get_ext_cases _ _ H2) as [[-> E] | [[-> E] | [-> E]]];
      try reflexivity; discriminate.
  - intros w df path index compression use_threads dataset partition_cols mode Hc.
    unfold to_parquet. rewrite (get_ext_unknown _ Hc). reflexivity.
Qed.

(** C4, as the code has it: with dataset=False and a recognized
    compression kind, a non-empty partition_cols or a non-empty mode
    string raises InvalidArgumentCombination before any request is made;
    otherwise (partition_cols None or empty, mode None or the empty
    string) the one request is the encoding of the dataframe at the given
    path, and the result is the one-element list of that path when the
    write succeeds and the write's exception when it does not. *)
Theorem to_parquet_single_file (w : W) (df : DF) (path : string) (index : bool)
        (compression : option string) (ext : string) (use_threads : bool)
        (partition_cols : option (list string)) (mode : option string) :
  get _COMPRESSION_2_EXT compression = Some ext ->
  let r := run h (to_parquet df path index compression use_threads false
                             partition_cols mode) w in
  ((exists c cols, partition_cols = Some (c :: cols)) \/
   (exists c m, mode = Some (String c m)) ->
   r = (Err InvalidArgumentCombination, w, [])) /\
  ((partition_cols = None \/ partition_cols = Some []) ->
   (mode = None \/ mode = Some "") ->
   let a := fst (h (WriteTable df path index compression) w) in
   requests (trace r) = [WriteTable df path index compression] /\
   (a = Ok tt -> outcome r = Ok [path]) /\
   (forall e, a = Err e -> outcome r = Err e)).
Proof.
  intros Hext r. subst r. unfold to_parquet. rewrite Hext. cbn [negb].
  split.
  - intros [(c & cols & ->) | (c & m & ->)].
    + reflexivity.
    + destruct (truthy_cols partition_cols); reflexivity.
  - intros Hcols Hmode.
    assert (truthy_cols partition_cols = false) as -> by (destruct Hcols; subst; reflexivity).
    assert (truthy_str mode = false) as -> by (destruct Hmode; subst; reflexivity).
    unfold _to_parquet_file. rewrite !run_bind, run_call. cbv zeta.
    destruct (h (WriteTable df path index compression) w) as [a w'].
    cbn [fst snd]. destruct a as [[] | e]; cbn.
    + repeat split; congruence.
    + repeat split; congruence.
Qed.

End WriterArguments.

Lemma to_parquet_compression_kinds_witness :
  run Reference.serve
      (to_parquet Reference.example_df "s3://bucket/prefix/my_file.parquet" false
                  (Some "bzip2") true false None None) Reference.empty_store
  = (Err InvalidCompression, Reference.empty_store, []).
Proof.
  apply (proj2 (proj2 (to_parquet_compression_kinds Reference.serve))).
  simpl. intros [H | [H | [H | []]]]; discriminate H.
Defined.

Lemma to_parquet_single_file_witness :
  run Reference.serve
      (to_parquet Reference.example_df "s3://bucket/prefix/my_file.parquet"
                  false (Some "snappy") true false (Some ["b"]) None)
      Reference.empty_store
  = (Err InvalidArgumentCombination, Reference.empty_store, []) /\
  outcome (run Reference.serve
               (to_parquet Reference.example_df "s3://bucket/prefix/my_file.parquet"
                           false (Some "snappy") true false None None)
               Reference.empty_store)
  = Ok ["s3://bucket/prefix/my_file.parquet"].
Proof.
  split.
  - apply (to_parquet_single_file Reference.serve
             Reference.empty_store Reference.example_df
             "s3://bucket/prefix/my_file.parquet" false (Some "snappy") ".snappy" true
             (Some ["b"]) None); [reflexivity|].
    left. exists "b", []. reflexivity.
  - apply (to_parquet_single_file Reference.serve
             Reference.empty_store Reference.example_df
             "s3://bucket/prefix/my_file.parquet" false (Some "snappy") ".snappy" true
             None None); auto.
Defined.

(** C4 as the spec words it fails: the empty string is a mode that is not
    None, and with it the file is written and its path returned. *)
Lemma to_parquet_empty_mode_writes :
  let r := run Reference.serve
               (to_parquet Reference.example_df "s3://bucket/prefix/my_file.parquet"
                           false (Some "snappy") true false None (Some ""))
               Reference.empty_store in
  Some "" <> (None : option string) /\
  outcome r = Ok ["s3://bucket/prefix/my_file.parquet"] /\
  outcome r <> Err InvalidArgumentCombination /\
  requests (trace r)
  = [WriteTable Reference.example_df "s3://bucket/prefix/my_file.parquet" false
                (Some "snappy")].
Proof. cbv zeta. repeat split; try discriminate; reflexivity. Qed.

(** The modes [_to_parquet_dataset] lets through. *)
Lemma mode_in_recognized (mode : string) :
  mode_in mode ["append"; "overwrite"; "partitions_upsert"] = true
  <-> mode = "append" \/ mode = "overwrite" \/ mode = "partitions_upsert".
Proof.
  unfold mode_in. cbn [existsb]. rewrite !orb_true_iff, !String.eqb_eq.
  intuition discriminate.
Qed.

(** Any other mode of a dataset write is refused before any request. *)
Lemma to_parquet_mode_validation {DF : Type} {engine : DataFrameEngine DF}
      {utils : Utils} {W : Type} (h : handler DF W) (w : W) (df : DF)
      (path dir : string) (index : bool) (compression : option string)
      (ext : string) (use_threads : bool) (partition_cols : option (list string))
      (mode : string) :
  get _COMPRESSION_2_EXT compression = Some ext ->
  with_slash path = Ok dir ->
  mode <> "append" -> mode <> "overwrite" -> mode <> "partitions_upsert" ->
  run h (to_parquet df path index compression use_threads true partition_cols
                    (Some mode)) w
  = (Err InvalidArgumentValue, w, []).
Proof.
  intros Hext Hdir H1 H2 H3. unfold to_parquet. rewrite Hext. cbn [negb].
  unfold _to_parquet_dataset. rewrite run_bind, run_lift, Hdir.
  destruct (mode_in mode ["append"; "overwrite"; "partitions_upsert"]) eqn:E.
  - apply mode_in_recognized in E. intuition.
  - reflexivity.
Qed.

(** C1, where the code departs from it: the mode its docstring calls
    [partition_upsert] is refused with InvalidArgumentValue before any
    request is made, whatever the collaborators do, while the spelling
    [partitions_upsert] passes the validation and the dataset is
    written. *)
Theorem to_parquet_refuses_documented_mode :
  (forall (DF : Type) (engine : DataFrameEngine DF) (utils : Utils) (W : Type)
          (h : handler DF W) (w : W) (df : DF) index use_threads partition_cols,
      run h (to_parquet df "s3://bucket/prefix" index (Some "snappy") use_threads
                        true partition_cols (Some "partition_upsert")) w
      = (Err InvalidArgumentValue, w, [])) /\
  outcome (run Reference.serve
               (to_parquet Reference.example_df "s3://bucket/prefix" false
                           (Some "snappy") true true (Some ["b"])
                           (Some "partitions_upsert")) Reference.empty_store)
  = Ok ["s3://bucket/prefix/b=x/0.snappy.parquet";
        "s3://bucket/prefix/b=y/1.snappy.parquet"].
Proof. split; [intros; reflexivity | vm_compute; reflexivity]. Qed.

(** ** The path resolver *)

Lemma page_paths_of_keys (bucket : string) (keys : list string) :
  page_paths bucket (page_of_keys keys)
  = map (fun key => ("s3://" ++ bucket ++ "/" ++ key)%string) keys.
Proof.
  unfold page_paths, page_of_keys. cbn [Contents].
  induction keys as [ | k keys IH]; cbn [map flat_map]; [reflexivity|].
  rewrite IH. reflexivity.
Qed.

Section PathResolver.

Context {DF : Type} {utils : Utils} {W : Type} (h : handler DF W).

Lemma run_list_objects (w : W) (path bucket prefix : string) :
  parse_path path = Ok (bucket, prefix) ->
  run h (list_objects path) w =
  (match fst (h (Paginate bucket prefix 1000) w) with
   | Ok pages => Ok (flat_map (page_paths bucket) pages)
   | Err e => Err e
   end,
   snd (h (Paginate bucket prefix 1000) w),
   [Event (Paginate bucket prefix 1000) (fst (h (Paginate bucket prefix 1000) w))]).
Proof.
  intros Hparse. unfold list_objects.
  rewrite run_bind, run_lift, Hparse. cbv iota.
  rewrite run_bind, run_call.
  destruct (h (Paginate bucket prefix 1000) w) as [a w']. cbn [fst snd].
  rewrite run_bind, run_lift. destruct a as [pages | e]; reflexivity.
Qed.

(** C7: a list is returned as it is and no request is made; anything that
    is neither a string nor a list raises InvalidArgumentType; a string is
    a prefix, listed in full by one paginated listing of page size 1000,
    and the result holds the locator of every listed key, page after page
    and in the order of each page. *)
Theorem path2list_resolves (w : W) :
  (forall l, run h (_path2list (PList l)) w = (Ok l, w, [])) /\
  run h (_path2list POther) w = (Err InvalidArgumentType, w, []) /\
  (forall path bucket prefix,
      parse_path path = Ok (bucket, prefix) ->
      let a := fst (h (Paginate bucket prefix 1000) w) in
      let r := run h (_path2list (PStr path)) w in
      trace r = [Event (Paginate bucket prefix 1000) a] /\
      (forall e, a = Err e -> outcome r = Err e) /\
      (forall pages, a = Ok pages ->
                     outcome r = Ok (flat_map (page_paths bucket) pages)) /\
      (forall keys, a = Ok (map page_of_keys keys) ->
                    outcome r = Ok (map (fun key => ("s3://" ++ bucket ++ "/" ++ key)%string)
                                        (List.concat keys)))).
Proof.
  split; [reflexivity | split; [reflexivity|]].
  intros path bucket prefix Hparse a r. subst a r.
  cbn [_path2list]. rewrite run_list_objects with (1 := Hparse).
  destruct (h (Paginate bucket prefix 1000) w) as [a w']. cbn [fst snd trace outcome].
  split; [reflexivity|]. split; [|split].
  - intros e ->. reflexivity.
  - intros pages ->. reflexivity.
  - intros keys ->. f_equal.
    induction keys as [ | ks keys IH]; cbn [map flat_map List.concat]; [reflexivity|].
    rewrite IH, page_paths_of_keys, map_app. reflexivity.
Qed.

End PathResolver.

Lemma path2list_resolves_witness :
  outcome (run Reference.serve (_path2list (PStr "s3://bucket/prefix")) Reference.listed_store)
  = Ok ["s3://bucket/prefix0"; "s3://bucket/prefix1"].
Proof.
  destruct (path2list_resolves Reference.serve Reference.listed_store) as (_ & _ & H).
  destruct (H "s3://bucket/prefix" "bucket" "prefix") as (_ & _ & _ & Hkeys);
    [reflexivity|].
  apply (Hkeys [["prefix0"; "prefix1"]]). reflexivity.
Defined.

(** ** Describing an object *)

Section Describe.

Context {DF : Type} {utils : Utils} {W : Type} (h : handler DF W).

Lemma polling_succ (bucket key : string) (n : nat) :
  (1 <= n)%nat ->
  polling bucket key (S n)
  = HeadObject bucket key :: Sleep 1 :: @polling DF bucket key n.
Proof. destruct n; [lia | reflexivity]. Qed.

Lemma head_answers_head (bucket key : string) (a : result attributes)
      (t : list (event DF)) :
  head_answers (Event (HeadObject bucket key) a :: t) = a :: head_answers t.
Proof. reflexivity. Qed.

Lemma head_answers_other (r : request DF) (a : answer r) (t : list (event DF)) :
  is_head r = false -> head_answers (Event r a :: t) = head_answers t.
Proof. destruct r; try discriminate; reflexivity. Qed.

(** The loop of [_describe_object] with [i] tries left: it looks the
    object up [n] times, [n] between 1 and [i], sleeping a second between
    two lookups; all lookups but the last were answered "not found", and
    the last answer decides the outcome. *)
Lemma describe_loop_polling (bucket key : string) (i : nat) (w : W) :
  (1 <= i)%nat ->
  let r := run h (describe_loop bucket key i) w in
  exists (n : nat) (last : result attributes),
    (1 <= n <= i)%nat /\
    requests (trace r) = polling bucket key n /\
    head_answers (trace r) = repeat (Err (ClientError 404)) (n - 1) ++ [last] /\
    match last with
    | Ok desc => outcome r = Ok desc
    | Err e => if is_not_found e then n = i /\ outcome r = Ok []
               else outcome r = Err e
    end.
Proof.
  revert w. induction i as [ | i IH]; intros w Hi; [lia|].
  cbv zeta. cbn [describe_loop]. rewrite run_bind, run_call.
  destruct (h (HeadObject bucket key) w) as [a w1]. cbn [fst snd].
  destruct a as [desc | e].
  - exists 1%nat, (Ok desc). cbn. repeat split; lia.
  - destruct e as [ | | | | | | | code | name];
      try (exists 1%nat; eexists (Err _); cbn; repeat split; lia).
    destruct (Z.eqb_spec code 404) as [-> | Hne].
    + cbn [Z.eqb Pos.eqb]. destruct i as [ | i'].
      * exists 1%nat, (Err (ClientError 404)). cbn. repeat split; lia.
      * cbn [Nat.eqb]. rewrite run_bind, run_call. cbn [fst snd].
        destruct (h (Sleep 1) w1) as [[] w2]. cbn [fst snd].
        destruct (IH w2 ltac:(lia)) as (n & last & Hn & Hreq & Hans & Hlast).
        destruct (run h (describe_loop bucket key (S i')) w2) as [[res w3] t] eqn:E.
        cbn [trace outcome fst snd app] in *.
        exists (S n), last. split; [lia|]. split; [|split].
        -- rewrite polling_succ by lia. cbn [requests map ev_request].
           fold (requests t). rewrite Hreq. reflexivity.
        -- rewrite head_answers_head, head_answers_other by reflexivity.
           rewrite Hans. replace (S n - 1)%nat with (S (n - 1)) by lia.
           reflexivity.
        -- destruct last as [desc | e]; [exact Hlast|].
           destruct (is_not_found e); [|exact Hlast].
           destruct Hlast as [-> ->]. split; reflexivity.
    + exists 1%nat, (Err (ClientError code)). cbn.
      apply Z.eqb_neq in Hne. rewrite Hne. cbn. repeat split; lia.
Qed.

Lemma tries_of_positive (wait_time : option number) (tries : Z) :
  tries_of wait_time = Ok tries -> (1 <= tries)%Z.
Proof.
  unfold tries_of. destruct wait_time as [x | ]; [|intros [= <-]; lia].
  destruct (as_int x) as [n | e]; [|discriminate]. intros [= <-].
  destruct (Z.gtb_spec n 0); lia.
Qed.

(** [int] of a finite float that lies between the integers [m] and
    [m + 1]: it is [m] when the float is not negative, and it is not
    positive when the float is negative. *)
Lemma int_between (q : Q) (m : Z) :
  (inject_Z m <= q)%Q -> (q < inject_Z (m + 1))%Q ->
  exists n, int (PyFloat q) = Ok n /\
            ((0 <= m)%Z -> n = m) /\ ((m < 0)%Z -> (n <= 0)%Z).
Proof.
  destruct q as [a b]. unfold Qle, Qlt, inject_Z. cbn [Qnum Qden int].
  intros Hlow Hhigh. eexists. split; [reflexivity|]. split.
  - intros Hm. rewrite Z.quot_div_nonneg by nia.
    symmetry. apply (Z.div_unique_pos a (Zpos b) m (a - m * Zpos b)); nia.
  - intros Hm. assert (Ha : (a <= 0)%Z) by nia.
    replace a with (- (- a))%Z by lia. rewrite Z.quot_opp_l by lia.
    pose proof (Z.quot_pos (- a) (Zpos b)). lia.
Qed.

(** The tries there are, from what the spec says of the waiting time:
    one for None, the whole seconds of the waiting time otherwise, and one
    when that is not positive. *)
Lemma tries_of_cases (wait_time : option number) (tries : nat) :
  (wait_time = None /\ tries = 1%nat) \/
  (exists z, wait_time = Some (PyInt z) /\ tries = Z.to_nat (Z.max 1 z)) \/
  (exists q m, wait_time = Some (PyFloat q) /\
               (inject_Z m <= q)%Q /\ (q < inject_Z (m + 1))%Q /\
               tries = Z.to_nat (Z.max 1 m)) ->
  exists t, tries_of wait_time = Ok t /\ Z.to_nat t = tries.
Proof.
  intros [[-> ->] | [(z & -> & ->) | (q & m & -> & Hlow & Hhigh & ->)]].
  - exists 1%Z. split; reflexivity.
  - cbn [tries_of as_int]. eexists. split; [reflexivity|].
    destruct (Z.gtb_spec z 0); f_equal; lia.
  - destruct (int_between q m Hlow Hhigh) as (n & Hint & Hpos & Hneg).
    cbn [tries_of as_int]. rewrite Hint. eexists. split; [reflexivity|].
    destruct (Z.gtb_spec n 0); f_equal; lia.
Qed.

Lemma is_not_found_spec (e : exn) : is_not_found e = true <-> e = ClientError 404.
Proof.
  destruct e; cbn; try (split; [discriminate | discriminate]).
  rewrite Z.eqb_eq. split; [intros ->; reflexivity | intros [= ->]; reflexivity].
Qed.

(** C6: the tries of [_describe_object] are one when wait_time is None,
    and otherwise the whole seconds of wait_time (an integer as it is, a
    finite float between [m] and [m + 1] counting for [m]), or one when
    that is not positive.  It looks the object up [n] times, [n] between 1
    and the number of tries, and sleeps one second between two lookups;
    every lookup but the last was answered "not found" (404).  A
    successful last lookup gives its attributes; a last lookup answered
    "not found" was the last try there is and gives the empty attributes,
    without an exception; any other error ends the polling at once and is
    raised as it came.  A float that is infinite or not a number has no
    whole seconds: the conversion raises OverflowError or ValueError, and
    no lookup is made at all. *)
Theorem describe_object_polling (w : W) (wait_time : option number)
        (path bucket key : string) :
  let r := run h (_describe_object path wait_time) w in
  (forall negative, wait_time = Some (PyInf negative) ->
                    r = (Err OverflowError, w, [])) /\
  (wait_time = Some PyNaN -> r = (Err ValueError, w, [])) /\
  (parse_path path = Ok (bucket, key) ->
   forall tries : nat,
     (wait_time = None /\ tries = 1%nat) \/
     (exists z, wait_time = Some (PyInt z) /\ tries = Z.to_nat (Z.max 1 z)) \/
     (exists q m, wait_time = Some (PyFloat q) /\
                  (inject_Z m <= q)%Q /\ (q < inject_Z (m + 1))%Q /\
                  tries = Z.to_nat (Z.max 1 m)) ->
     (tries = 1%nat -> requests (trace r) = [HeadObject bucket key]) /\
     exists (n : nat) (last : result attributes),
       (1 <= n <= tries)%nat /\
       requests (trace r) = polling bucket key n /\
       head_answers (trace r) = repeat (Err (ClientError 404)) (n - 1) ++ [last] /\
       (forall desc, last = Ok desc -> outcome r = Ok (path, desc)) /\
       (last = Err (ClientError 404) -> n = tries /\ outcome r = Ok (path, [])) /\
       (forall e, last = Err e -> e <> ClientError 404 -> outcome r = Err e)).
Proof.
  cbv zeta. split; [|split].
  - intros negative ->. reflexivity.
  - intros ->. reflexivity.
  - intros Hparse tries Hwait.
    destruct (tries_of_cases wait_time tries Hwait) as (t & Ht & Hnat).
    pose proof (tries_of_positive wait_time t Ht) as Hpos.
    set (r := run h (_describe_object path wait_time) w).
    assert (Hmain : exists (n : nat) (last : result attributes),
      (1 <= n <= tries)%nat /\
      requests (trace r) = polling bucket key n /\
      head_answers (trace r) = repeat (Err (ClientError 404)) (n - 1) ++ [last] /\
      (forall desc, last = Ok desc -> outcome r = Ok (path, desc)) /\
      (last = Err (ClientError 404) -> n = tries /\ outcome r = Ok (path, [])) /\
      (forall e, last = Err e -> e <> ClientError 404 -> outcome r = Err e)).
    { subst r. unfold _describe_object.
      rewrite run_bind, run_lift, Ht. cbv iota.
      rewrite run_bind, run_lift, Hparse. cbv iota. rewrite run_bind.
      rewrite Hnat.
      assert (Htries : (1 <= tries)%nat) by lia.
      destruct (describe_loop_polling bucket key tries w Htries)
        as (n & last & Hn & Hreq & Hans & Hlast).
      destruct (run h (describe_loop bucket key tries) w) as [[res w1] t0].
      cbn [trace outcome fst snd] in Hreq, Hans, Hlast.
      exists n, last. split; [exact Hn|].
      destruct res as [desc | e]; cbn [run trace outcome fst snd app];
        rewrite ?app_nil_r; (split; [exact Hreq|]); (split; [exact Hans|]).
      - destruct last as [desc' | e'].
        + injection Hlast as <-. split; [|split].
          * intros d [= <-]. reflexivity.
          * discriminate.
          * discriminate.
        + destruct (is_not_found e') eqn:E; [|discriminate].
          destruct Hlast as [-> [= <-]]. apply is_not_found_spec in E. subst e'.
          split; [|split].
          * discriminate.
          * intros _. split; reflexivity.
          * intros e0 [= <-] Hne. congruence.
      - destruct last as [desc' | e']; [discriminate|].
        destruct (is_not_found e') eqn:E; [destruct Hlast; discriminate|].
        injection Hlast as <-. split; [|split].
        * discriminate.
        * intros [= ->]. discriminate E.
        * intros e0 [= <-] _. reflexivity. }
    split; [|exact Hmain].
    intros ->. destruct Hmain as (n & last & Hn & Hreq & _).
    assert (n = 1%nat) as -> by lia. exact Hreq.
Qed.

End Describe.

Lemma describe_object_polling_witness :
  let r := run Reference.serve
               (_describe_object "s3://bucket/key" (Some (PyFloat (5 # 2))))
               Reference.empty_store in
  let r1 := run Reference.serve
                (_describe_object "s3://bucket/key" (Some (PyFloat (-1 # 2))))
                Reference.empty_store in
  requests (trace r1) = [HeadObject "bucket" "key"] /\
  requests (trace r) = [HeadObject "bucket" "key"; Sleep 1; HeadObject "bucket" "key"] /\
  exists (n : nat) (last : result attributes),
    (1 <= n <= 2)%nat /\
    requests (trace r) = polling "bucket" "key" n /\
    head_answers (trace r) = repeat (Err (ClientError 404)) (n - 1) ++ [last] /\
    (last = Err (ClientError 404) ->
     n = 2%nat /\ outcome r = Ok ("s3://bucket/key", [])).
Proof.
  cbv zeta. split; [|split; [reflexivity|]].
  - destruct (describe_object_polling Reference.serve Reference.empty_store
                (Some (PyFloat (-1 # 2))) "s3://bucket/key" "bucket" "key")
      as (_ & _ & Hrun).
    destruct (Hrun eq_refl 1%nat) as (Hone & _); [|exact (Hone eq_refl)].
    right. right. exists (-1 # 2)%Q, (-1)%Z.
    split; [reflexivity|]. split; [discriminate|]. split; reflexivity.
  - destruct (describe_object_polling Reference.serve Reference.empty_store
                (Some (PyFloat (5 # 2))) "s3://bucket/key" "bucket" "key")
      as (_ & _ & Hrun).
    destruct (Hrun eq_refl 2%nat)
      as (_ & n & last & Hn & Hreq & Hans & _ & Hlast & _).
    { right. right. exists (5 # 2)%Q, 2%Z.
      split; [reflexivity|]. split; [discriminate|]. split; reflexivity. }
    exists n, last.
    repeat split;
      solve [apply Hn | exact Hreq | exact Hans | apply Hlast; assumption].
Defined.

(** C6 as the spec words it fails: minus infinity is a waiting time that
    is not positive, and with it no attempt is made, not one; the
    conversion to whole seconds raises OverflowError before the locator is
    even parsed. *)
Lemma describe_object_negative_infinity :
  let r := run Reference.serve
               (_describe_object "s3://bucket/key" (Some (PyInf true)))
               Reference.empty_store in
  requests (trace r) = [] /\
  requests (trace r) <> [HeadObject "bucket" "key"] /\
  outcome r = Err OverflowError /\
  parse_path "no locator" = Err (OtherError "InvalidArgument") /\
  outcome (run Reference.serve
               (_describe_object "no locator" (Some (PyInf true)))
               Reference.empty_store) = Err OverflowError.
Proof. cbv zeta. repeat split; try discriminate; reflexivity. Qed.

(** ** Chunks *)

Section Chunks.

Context {A : Type}.

Lemma ceiling_step (n m : nat) :
  (1 <= n)%nat -> (1 <= m)%nat ->
  ((n + m - 1) / m = S ((n - m + m - 1) / m))%nat.
Proof.
  intros Hn Hm. destruct (Nat.le_gt_cases m n) as [Hle | Hlt].
  - replace (n + m - 1)%nat with ((n - m + m - 1) + 1 * m)%nat by lia.
    rewrite Nat.div_add by lia. lia.
  - replace (n - m + m - 1)%nat with (m - 1)%nat by lia.
    rewrite (Nat.div_small (m - 1) m) by lia.
    symmetry. apply Nat.div_unique with (r := (n - 1)%nat); lia.
Qed.

Lemma chunkify_from_spec (m : nat) (fuel : nat) (lst : list A) :
  (1 <= m)%nat -> (length lst <= fuel)%nat ->
  List.concat (chunkify_from fuel lst m) = lst /\
  Forall (fun chunk => 1 <= length chunk <= m)%nat (chunkify_from fuel lst m) /\
  length (chunkify_from fuel lst m) = ((length lst + m - 1) / m)%nat.
Proof.
  intros Hm. revert lst. induction fuel as [ | fuel IH]; intros lst Hlen.
  - destruct lst; [|cbn in Hlen; lia]. cbn.
    repeat split; [constructor | rewrite Nat.div_small; lia].
  - destruct lst as [ | x lst].
    + cbn. repeat split; [constructor | rewrite Nat.div_small; lia].
    + cbn [chunkify_from].
      assert (Hskip : (length (skipn m (x :: lst)) <= fuel)%nat)
        by (rewrite length_skipn; cbn [length] in *; lia).
      destruct (IH _ Hskip) as (Hcat & Hall & Hcount).
      split; [|split].
      * cbn [List.concat]. rewrite Hcat. apply firstn_skipn.
      * constructor; [|exact Hall].
        rewrite length_firstn. cbn [length]. lia.
      * cbn [length]. rewrite Hcount, length_skipn.
        symmetry. apply ceiling_step; cbn [length]; lia.
Qed.

(** What the spec asks of the chunks of [M] keys: together they are the
    keys, in order; none is empty or larger than the limit; there are
    [ceil(M / limit)] of them. *)
Lemma chunkify_spec (lst : list A) (m : nat) :
  (1 <= m)%nat ->
  List.concat (chunkify lst m) = lst /\
  Forall (fun chunk => 1 <= length chunk <= m)%nat (chunkify lst m) /\
  length (chunkify lst m) = ((length lst + m - 1) / m)%nat.
Proof. intros Hm. apply chunkify_from_spec; [exact Hm | lia]. Qed.

End Chunks.

(** ** Keys by bucket *)

Lemma dict_append_buckets (d : list (string * list string)) (b k b' : string) :
  In b' (map fst (dict_append d b k)) <-> b' = b \/ In b' (map fst d).
Proof.
  induction d as [ | [b0 ks] d IH]; cbn [dict_append map fst In].
  - intuition.
  - destruct (String.eqb_spec b0 b) as [-> | Hne]; cbn [map fst In].
    + intuition.
    + rewrite IH. intuition.
Qed.

Lemma dict_append_nodup (d : list (string * list string)) (b k : string) :
  NoDup (map fst d) -> NoDup (map fst (dict_append d b k)).
Proof.
  induction d as [ | [b0 ks] d IH]; cbn [dict_append map fst]; intros Hnd.
  - constructor; [intros [] | constructor].
  - inversion Hnd as [ | ? ? Hnotin Hnd']; subst.
    destruct (String.eqb_spec b0 b) as [-> | Hne]; cbn [map fst].
    + constructor; assumption.
    + constructor; [|auto].
      rewrite dict_append_buckets. intros [-> | Hin]; [congruence | contradiction].
Qed.

Lemma dict_append_keys (d : list (string * list string)) (b k b' : string) :
  keys_in (dict_append d b k) b'
  = if String.eqb b b' then keys_in d b' ++ [k] else keys_in d b'.
Proof.
  induction d as [ | [b0 ks] d IH]; cbn [dict_append keys_in].
  - destruct (String.eqb_spec b b'); reflexivity.
  - destruct (String.eqb_spec b0 b) as [-> | Hne]; cbn [keys_in].
    + destruct (String.eqb_spec b b'); reflexivity.
    + destruct (String.eqb_spec b0 b') as [-> | Hne'].
      * destruct (String.eqb_spec b b'); [congruence | reflexivity].
      * exact IH.
Qed.

Lemma keys_in_member (d : list (string * list string)) (b : string)
      (keys : list string) :
  NoDup (map fst d) -> In (b, keys) d -> keys_in d b = keys.
Proof.
  induction d as [ | [b0 ks] d IH]; cbn [map fst keys_in]; intros Hnd Hin.
  - destruct Hin.
  - inversion Hnd as [ | ? ? Hnotin Hnd']; subst.
    destruct Hin as [[= -> ->] | Hin].
    + rewrite String.eqb_refl. reflexivity.
    + destruct (String.eqb_spec b0 b) as [-> | Hne]; [|auto].
      exfalso. apply Hnotin. apply (in_map fst) in Hin. exact Hin.
Qed.

Lemma member_keys_in (d : list (string * list string)) (b : string) :
  In b (map fst d) -> In (b, keys_in d b) d.
Proof.
  induction d as [ | [b0 ks] d IH]; cbn [map fst keys_in In]; [tauto|].
  destruct (String.eqb_spec b0 b) as [-> | Hne]; [auto|].
  intros [Heq | Hin]; [congruence | auto].
Qed.

(** The loop of [_split_paths_by_bucket]: no bucket is entered twice, the
    buckets are those of the locators, and a bucket's keys are the keys
    of its locators in the order of the locators. *)
Lemma group_keys_spec (parsed : list (string * string))
      (d : list (string * list string)) :
  NoDup (map fst d) ->
  NoDup (map fst (group_keys parsed d)) /\
  (forall b, In b (map fst (group_keys parsed d))
             <-> In b (map fst d) \/ In b (map fst parsed)) /\
  (forall b, keys_in (group_keys parsed d) b
             = keys_in d b ++ keys_of_bucket parsed b).
Proof.
  revert d. induction parsed as [ | [b0 k0] parsed IH]; intros d Hnd.
  - cbn. split; [exact Hnd|]. split; [intuition|].
    intros b. rewrite app_nil_r. reflexivity.
  - cbn [group_keys fold_left fst snd].
    destruct (IH (dict_append d b0 k0) (dict_append_nodup d b0 k0 Hnd))
      as (Hnd' & Hin & Hkeys).
    split; [exact Hnd'|]. split.
    + intros b. unfold group_keys in Hin. rewrite Hin, dict_append_buckets.
      cbn [map fst In]. intuition.
    + intros b. unfold group_keys in Hkeys. rewrite Hkeys, dict_append_keys.
      unfold keys_of_bucket. cbn [filter fst].
      destruct (String.eqb_spec b0 b); cbn [map snd];
        [rewrite <- app_assoc|]; reflexivity.
Qed.

Section Buckets.

Context {utils : Utils}.

Lemma split_paths_parsed (paths : list string)
      (d buckets : list (string * list string)) :
  split_paths paths d = Ok buckets ->
  exists parsed,
    Forall2 (fun p bk => parse_path p = Ok bk) paths parsed /\
    buckets = group_keys parsed d.
Proof.
  revert d. induction paths as [ | p paths IH]; intros d; cbn [split_paths].
  - intros [= <-]. exists []. split; [constructor | reflexivity].
  - destruct (parse_path p) as [[b k] | e] eqn:E; [|discriminate].
    intros H. destruct (IH _ H) as (parsed & Hall & ->).
    exists ((b, k) :: parsed). split; [constructor; assumption | reflexivity].
Qed.

(** [_split_paths_by_bucket]: the keys are grouped by bucket, and the
    order of the keys of a bucket is kept. *)
Lemma split_paths_by_bucket_spec (paths : list string)
      (buckets : list (string * list string)) :
  _split_paths_by_bucket paths = Ok buckets ->
  exists parsed,
    Forall2 (fun p bk => parse_path p = Ok bk) paths parsed /\
    NoDup (map fst buckets) /\
    (forall b, In b (map fst buckets) <-> In b (map fst parsed)) /\
    (forall b keys, In (b, keys) buckets -> keys = keys_of_bucket parsed b).
Proof.
  intros H. destruct (split_paths_parsed _ _ _ H) as (parsed & Hall & ->).
  destruct (group_keys_spec parsed [] (NoDup_nil _)) as (Hnd & Hin & Hkeys).
  exists parsed. split; [exact Hall|]. split; [exact Hnd|]. split.
  - intros b. rewrite Hin. cbn. intuition.
  - intros b keys Hmem. rewrite <- (keys_in_member _ _ _ Hnd Hmem), Hkeys.
    reflexivity.
Qed.

End Buckets.

(** ** Traces *)

Section Traces.

Context {DF : Type}.

Lemma requests_app (t1 t2 : list (event DF)) :
  requests (t1 ++ t2) = requests t1 ++ requests t2.
Proof. apply map_app. Qed.

Lemma delete_requests_app (t1 t2 : list (event DF)) :
  delete_requests (t1 ++ t2) = delete_requests t1 ++ delete_requests t2.
Proof. apply flat_map_app. Qed.

Lemma delete_requests_cons (ev : event DF) (t : list (event DF)) :
  delete_requests (ev :: t)
  = match ev_request ev with
    | DeleteObjects b keys => [(b, keys)]
    | _ => []
    end ++ delete_requests t.
Proof. reflexivity. Qed.

Lemma deletes_succeed_app (t1 t2 : list (event DF)) :
  deletes_succeed (t1 ++ t2) <-> deletes_succeed t1 /\ deletes_succeed t2.
Proof. apply Forall_app. Qed.

Lemma write_requests_app (t1 t2 : list (event DF)) :
  write_requests (t1 ++ t2) = write_requests t1 ++ write_requests t2.
Proof. unfold write_requests. rewrite requests_app. apply filter_app. Qed.

Lemma uuid_answers_app (t1 t2 : list (event DF)) :
  uuid_answers (t1 ++ t2) = uuid_answers t1 ++ uuid_answers t2.
Proof. apply flat_map_app. Qed.

(** A trace of cleanup requests holds no write and no uuid. *)
Lemma cleanup_no_write (t : list (event DF)) :
  Forall (fun q => is_cleanup q = true) (requests t) ->
  write_requests t = [] /\ uuid_answers t = [].
Proof.
  induction t as [ | [r a] t IH]; cbn [requests map ev_request]; intros H.
  - split; reflexivity.
  - inversion H as [ | ? ? Hr Ht]; subst. destruct (IH Ht) as [Hw Hu].
    unfold write_requests in *. cbn [requests map ev_request filter].
    unfold uuid_answers in *. cbn [flat_map]. rewrite Hu.
    destruct r; try discriminate Hr; cbn [is_write]; auto.
Qed.

Lemma cleanup_not_write (t : list (event DF)) (ev : event DF) :
  Forall (fun q => is_cleanup q = true) (requests t) ->
  In ev t -> is_write (ev_request ev) = false.
Proof.
  intros H Hin. rewrite Forall_forall in H.
  specialize (H (ev_request ev) (in_map _ _ _ Hin)).
  destruct (ev_request ev); try discriminate H; reflexivity.
Qed.

End Traces.

(** ** The pool *)

Section PoolLemmas.

Lemma extract_map {X Y : Type} (f : X -> Y) (i : nat) (x0 : X) (l : list X) :
  extract i (f x0) (map f l)
  = (f (fst (extract i x0 l)), map f (snd (extract i x0 l))).
Proof.
  revert x0 l. induction i as [ | i IH]; intros x0 l.
  - destruct l; reflexivity.
  - destruct l as [ | y l]; [reflexivity|].
    cbn [extract map]. rewrite IH.
    destruct (extract i y l) as [z rest]. reflexivity.
Qed.

Lemma extract_perm {X : Type} (i : nat) (x0 : X) (l : list X) :
  Permutation (x0 :: l) (fst (extract i x0 l) :: snd (extract i x0 l)).
Proof.
  revert x0 l. induction i as [ | i IH]; intros x0 l.
  - destruct l; reflexivity.
  - destruct l as [ | y l]; [reflexivity|].
    cbn [extract]. specialize (IH y l).
    destruct (extract i y l) as [z rest]. cbn [fst snd] in *.
    transitivity (x0 :: z :: rest); [apply perm_skip; exact IH | apply perm_swap].
Qed.

Lemma extract_length {X : Type} (i : nat) (x0 : X) (l : list X) :
  length (snd (extract i x0 l)) = length l.
Proof.
  pose proof (Permutation_length (extract_perm i x0 l)) as H.
  cbn [length] in H. lia.
Qed.

Lemma enumerate_map {X Y : Type} (f : X -> Y) (l : list X) :
  enumerate (map f l) = map (fun ix => (fst ix, f (snd ix))) (enumerate l).
Proof.
  unfold enumerate. rewrite length_map. generalize (seq 0 (length l)) as ns.
  induction l as [ | x l IH]; intros [ | n ns]; cbn [map combine fst snd];
    try reflexivity.
  rewrite IH. reflexivity.
Qed.

Lemma enumerate_snd {X : Type} (l : list X) : map snd (enumerate l) = l.
Proof.
  unfold enumerate. generalize 0%nat as s.
  induction l as [ | x l IH]; intros s; cbn [length seq combine map snd];
    [reflexivity|]. rewrite IH. reflexivity.
Qed.

Lemma enumerate_fst {X : Type} (l : list X) :
  map fst (enumerate l) = seq 0 (length l).
Proof.
  unfold enumerate. generalize 0%nat as s.
  induction l as [ | x l IH]; intros s; cbn [length seq combine map fst];
    [reflexivity|]. rewrite IH. reflexivity.
Qed.

Lemma enumerate_length {X : Type} (l : list X) : length (enumerate l) = length l.
Proof. rewrite <- (length_map fst), enumerate_fst, length_seq. reflexivity. Qed.

End PoolLemmas.

(** ** Deleting *)

Section Delete.

Context {DF : Type} {utils : Utils} {W : Type} (h : handler DF W).

Lemma run_delete_one (bucket : string) (keys : list string) (w : W) :
  run h (_delete_objects bucket keys) w
  = (fst (h (DeleteObjects bucket keys) w), snd (h (DeleteObjects bucket keys) w),
     [Event (DeleteObjects bucket keys) (fst (h (DeleteObjects bucket keys) w))]).
Proof.
  unfold _delete_objects. rewrite run_bind, run_call, run_lift.
  rewrite app_nil_r. reflexivity.
Qed.

(** The chunks of one bucket, one after the other: the loop stops at the
    first bulk delete that fails. *)
Lemma run_delete_chunks (bucket : string) (chunks : list (list string)) (w : W) :
  let r := run h (for_each (_delete_objects bucket) chunks) w in
  Forall (fun q => is_cleanup q = true) (requests (trace r)) /\
  (outcome r = Ok tt <-> deletes_succeed (trace r)) /\
  (deletes_succeed (trace r) ->
   delete_requests (trace r) = map (pair bucket) chunks).
Proof.
  revert w. induction chunks as [ | chunk chunks IH]; intros w; cbv zeta.
  - cbn. split; [constructor|]. split; [|reflexivity].
    split; [constructor | reflexivity].
  - cbn [for_each]. rewrite run_bind, run_delete_one.
    destruct (h (DeleteObjects bucket chunk) w) as [a w1]. cbn [fst snd].
    destruct a as [[] | e].
    + specialize (IH w1). cbv zeta in IH.
      destruct (run h (for_each (_delete_objects bucket) chunks) w1)
        as [[res w2] t].
      cbn [outcome trace fst snd app] in *.
      destruct IH as (Hkind & Hok & Hreq).
      split; [constructor; [reflexivity | exact Hkind]|].
      split.
      * rewrite Hok. unfold deletes_succeed. split.
        -- intros H. constructor; [exact I | exact H].
        -- intros H. inversion H; subst. assumption.
      * intros H. inversion H as [ | ? ? _ Ht]; subst.
        rewrite delete_requests_cons. cbn [ev_request app map].
        rewrite (Hreq Ht). reflexivity.
    + cbn [outcome trace fst snd].
      split; [constructor; [reflexivity | constructor]|].
      split.
      * split; [discriminate|]. intros H. inversion H as [ | ? ? Hev _]; subst.
        destruct Hev.
      * intros H. inversion H as [ | ? ? Hev _]; subst. destruct Hev.
Qed.

(** The pool on the bulk deletes of one bucket: every one of them is
    issued, once, in the order the scheduler picks; what a bulk delete
    raises stays in its future. *)
Lemma run_delete_pool (bucket : string) (n : nat) :
  forall (items : list (nat * list string)) (done : list (nat * result unit)) (w : W),
    length items = n ->
    let r := run h (pool n (map (fun ik => (fst ik, _delete_objects bucket (snd ik)))
                                items) done) w in
    (exists done', outcome r = Ok done') /\
    Forall (fun q => is_cleanup q = true) (requests (trace r)) /\
    Permutation (delete_requests (trace r)) (map (fun ik => (bucket, snd ik)) items).
Proof.
  induction n as [ | n IH]; intros items done w Hlen; cbv zeta.
  - destruct items; [|discriminate]. cbn.
    split; [eexists; reflexivity|]. split; constructor.
  - destruct items as [ | x0 l]; [discriminate|].
    set (f := fun ik : nat * list string => (fst ik, _delete_objects bucket (snd ik)))
      in *.
    cbn [map pool]. rewrite run_bind, run_call.
    destruct (h (Pick (length (f x0 :: map f l))) w) as [i w1]. cbn [fst snd].
    rewrite extract_map.
    pose proof (extract_perm i x0 l) as Hperm.
    pose proof (extract_length i x0 l) as Hrest.
    destruct (extract i x0 l) as [z rest]. cbn [fst snd] in *.
    rewrite run_bind, run_catch.
    change (snd (f z)) with (_delete_objects (DF := DF) bucket (snd z)).
    change (fst (f z)) with (fst z).
    rewrite run_delete_one.
    destruct (h (DeleteObjects bucket (snd z)) w1) as [a w2]. cbn [fst snd].
    assert (Hn : length rest = n) by (cbn [length] in Hlen; lia).
    match goal with
    | |- context [run h (pool n (map f rest) ?d) w2] =>
        pose proof (IH rest d w2 Hn) as IH'; cbv zeta in IH';
        destruct (run h (pool n (map f rest) d) w2) as [[res w3] t]
    end.
    cbn [outcome trace fst snd app] in *.
    destruct IH' as (Hdone & Hkind & Hdel).
    split; [exact Hdone|]. split.
    + constructor; [reflexivity|]. constructor; [reflexivity | exact Hkind].
    + rewrite !delete_requests_cons. cbn [ev_request app].
      etransitivity;
        [|symmetry;
          exact (Permutation_map (fun ik : nat * list string => (bucket, snd ik)) Hperm)].
      cbn [map]. apply perm_skip. exact Hdel.
Qed.

(** The body of the loop over the buckets. *)
Lemma run_delete_bucket (use_threads : bool) (bk : string * list string) (w : W) :
  let r := run h (delete_bucket use_threads bk) w in
  Forall (fun q => is_cleanup q = true) (requests (trace r)) /\
  (use_threads = true -> outcome r = Ok tt) /\
  (outcome r = Ok tt \/ deletes_succeed (trace r) ->
   outcome r = Ok tt /\
   Permutation (delete_requests (trace r))
               (map (pair (fst bk)) (chunkify (snd bk) 1000)) /\
   (use_threads = false ->
    delete_requests (trace r) = map (pair (fst bk)) (chunkify (snd bk) 1000))).
Proof.
  destruct bk as [bucket keys]. cbv zeta. unfold delete_bucket. cbn [fst snd].
  destruct use_threads; cbn [negb].
  - unfold submit_all. rewrite !run_bind, enumerate_map, length_map.
    pose proof (run_delete_pool bucket (length (chunkify keys 1000))
                  (enumerate (chunkify keys 1000)) [] w
                  (enumerate_length _)) as H.
    cbv zeta in H.
    destruct (run h (pool (length (chunkify keys 1000))
                          (map (fun ix => (fst ix, _delete_objects bucket (snd ix)))
                               (enumerate (chunkify keys 1000))) []) w)
      as [[res w1] t].
    cbn [outcome trace fst snd] in H. destruct H as ((done' & ->) & Hkind & Hperm).
    cbn [run outcome trace fst snd app]. rewrite !app_nil_r.
    split; [exact Hkind|]. split; [reflexivity|].
    intros _. split; [reflexivity|]. split; [|discriminate].
    rewrite Hperm, <- (map_map snd (pair bucket)), enumerate_snd. reflexivity.
  - pose proof (run_delete_chunks bucket (chunkify keys 1000) w) as H.
    cbv zeta in H. destruct H as (Hkind & Hok & Hreq).
    split; [exact Hkind|]. split; [discriminate|].
    intros Hor.
    assert (Hs : deletes_succeed
                   (trace (run h (for_each (_delete_objects bucket)
                                           (chunkify keys 1000)) w)))
      by (destruct Hor as [Ho | Hs]; [apply Hok; exact Ho | exact Hs]).
    split; [apply Hok; exact Hs|].
    rewrite (Hreq Hs). split; [reflexivity | reflexivity].
Qed.

End Delete.

Section DeleteObjects.

Context {DF : Type} {utils : Utils} {W : Type} (h : handler DF W).

(** The loop over the buckets. *)
Lemma run_delete_buckets (use_threads : bool)
      (buckets : list (string * list string)) (w : W) :
  let r := run h (for_each (delete_bucket use_threads) buckets) w in
  Forall (fun q => is_cleanup q = true) (requests (trace r)) /\
  (use_threads = true -> outcome r = Ok tt) /\
  (outcome r = Ok tt \/ deletes_succeed (trace r) ->
   outcome r = Ok tt /\
   Permutation (delete_requests (trace r)) (chunk_deletes buckets) /\
   (use_threads = false -> delete_requests (trace r) = chunk_deletes buckets)).
Proof.
  revert w. induction buckets as [ | bk buckets IH]; intros w; cbv zeta.
  - cbn. split; [constructor|]. split; [reflexivity|].
    intros _. split; [reflexivity|]. split; [constructor | reflexivity].
  - cbn [for_each]. rewrite run_bind.
    pose proof (run_delete_bucket h use_threads bk w) as H1. cbv zeta in H1.
    destruct (run h (delete_bucket use_threads bk) w) as [[res1 w1] t1].
    cbn [outcome trace fst snd] in H1. destruct H1 as (Hk1 & Ht1 & Hd1).
    destruct res1 as [[] | e].
    + specialize (IH w1). cbv zeta in IH.
      destruct (run h (for_each (delete_bucket use_threads) buckets) w1)
        as [[res2 w2] t2].
      cbn [outcome trace fst snd] in *. destruct IH as (Hk2 & Ht2 & Hd2).
      split; [rewrite requests_app; apply Forall_app; split; assumption|].
      split; [exact Ht2|].
      intros Hor.
      destruct (Hd1 (or_introl eq_refl)) as (_ & Hp1 & Hs1).
      assert (Hor2 : res2 = Ok tt \/ deletes_succeed t2).
      { destruct Hor as [Ho | Hs]; [left; exact Ho|].
        right. apply deletes_succeed_app in Hs. apply Hs. }
      destruct (Hd2 Hor2) as (Ho2 & Hp2 & Hs2).
      split; [exact Ho2|]. rewrite delete_requests_app. cbn [chunk_deletes flat_map].
      split.
      * apply Permutation_app; assumption.
      * intros Hu. rewrite (Hs1 Hu). unfold chunk_deletes in Hs2.
        rewrite (Hs2 Hu). reflexivity.
    + cbn [outcome trace fst snd].
      split; [exact Hk1|]. split.
      * intros Hu. discriminate (Ht1 Hu).
      * intros [Ho | Hs]; [discriminate Ho|].
        destruct (Hd1 (or_intror Hs)) as (Ho & _). discriminate Ho.
Qed.

(** [delete_objects] on a resolved list of locators. *)
Lemma run_delete_paths (use_threads : bool) (paths : list string) (w : W) :
  let r := run h (delete_paths use_threads paths) w in
  Forall (fun q => is_cleanup q = true) (requests (trace r)) /\
  (paths = [] -> r = (Ok tt, w, [])) /\
  (outcome r = Ok tt ->
   paths = [] \/ exists buckets, _split_paths_by_bucket paths = Ok buckets) /\
  (forall buckets,
      paths <> [] -> _split_paths_by_bucket paths = Ok buckets ->
      (use_threads = true -> outcome r = Ok tt) /\
      (outcome r = Ok tt \/ deletes_succeed (trace r) ->
       outcome r = Ok tt /\
       Permutation (delete_requests (trace r)) (chunk_deletes buckets) /\
       (use_threads = false -> delete_requests (trace r) = chunk_deletes buckets))).
Proof.
  cbv zeta. unfold delete_paths. destruct paths as [ | p paths].
  - cbn. split; [constructor|]. split; [reflexivity|]. split; [auto|].
    intros buckets Hne. congruence.
  - cbn [length Nat.ltb Nat.leb]. rewrite run_bind, run_lift.
    destruct (_split_paths_by_bucket (p :: paths)) as [buckets | e].
    + pose proof (run_delete_buckets use_threads buckets w) as H. cbv zeta in H.
      destruct (run h (for_each (delete_bucket use_threads) buckets) w)
        as [[res w1] t].
      cbn [outcome trace fst snd app] in *. destruct H as (Hk & Ht & Hd).
      split; [exact Hk|]. split; [discriminate|]. split; [eauto|].
      intros buckets' _ [= <-]. split; assumption.
    + cbn. split; [constructor|]. split; [discriminate|].
      split; [discriminate|]. intros buckets' _ H. discriminate H.
Qed.

(** C8: once the argument is resolved to a list of locators, deleting
    nothing is a no-op that makes no further request.  Otherwise the keys
    are grouped by bucket, the keys of a bucket in the order of their
    locators; the [M] keys of a bucket are cut into [ceil(M / 1000)]
    chunks, none empty or larger than 1000; and the bulk deletes that are
    issued are exactly one per chunk: in the scheduler's order with
    threads, and in the order of the chunks without, as long as no bulk
    delete fails (the sequential loop stops at the first failure). *)
Theorem delete_objects_chunked (w : W) (path : path_arg) (use_threads : bool)
        (paths : list string) (w1 : W) (t1 : list (event DF)) :
  run h (_path2list path) w = (Ok paths, w1, t1) ->
  let r := run h (delete_objects path use_threads) w in
  exists t2,
    trace r = t1 ++ t2 /\
    (paths = [] -> outcome r = Ok tt /\ t2 = []) /\
    (forall buckets,
        paths <> [] -> _split_paths_by_bucket paths = Ok buckets ->
        (exists parsed,
            Forall2 (fun p bk => parse_path p = Ok bk) paths parsed /\
            NoDup (map fst buckets) /\
            (forall b, In b (map fst buckets) <-> In b (map fst parsed)) /\
            (forall b keys, In (b, keys) buckets -> keys = keys_of_bucket parsed b)) /\
        (forall b keys,
            In (b, keys) buckets ->
            List.concat (chunkify keys 1000) = keys /\
            Forall (fun chunk => 1 <= length chunk <= 1000)%nat (chunkify keys 1000) /\
            length (chunkify keys 1000) = ((length keys + 999) / 1000)%nat) /\
        (use_threads = true \/ deletes_succeed t2 ->
         Permutation (delete_requests t2) (chunk_deletes buckets) /\
         (use_threads = false -> delete_requests t2 = chunk_deletes buckets))).
Proof.
  intros Hres. cbv zeta. unfold delete_objects. rewrite run_bind, Hres.
  pose proof (run_delete_paths use_threads paths w1) as H. cbv zeta in H.
  destruct (run h (delete_paths use_threads paths) w1) as [[res w2] t2].
  cbn [outcome trace fst snd] in *. destruct H as (_ & Hnil & _ & Hcons).
  exists t2. split; [reflexivity|]. split.
  - intros Hp. specialize (Hnil Hp). injection Hnil as -> _ ->. auto.
  - intros buckets Hne Hsplit. split; [|split].
    + apply split_paths_by_bucket_spec. exact Hsplit.
    + intros b keys _.
      replace (length keys + 999)%nat with (length keys + 1000 - 1)%nat by lia.
      apply (chunkify_spec keys 1000). lia.
    + destruct (Hcons buckets Hne Hsplit) as (Ht & Hd).
      intros Hor. apply Hd.
      destruct Hor as [Hu | Hs]; [left; exact (Ht Hu) | right; exact Hs].
Qed.

End DeleteObjects.

Lemma delete_objects_chunked_witness :
  let r := run Reference.serve
               (delete_objects (PList ["s3://a/k1"; "s3://b/k2"; "s3://a/k3"]) true)
               {| Reference.objects := []; Reference.next_uuid := 0;
                  Reference.schedule := [1; 0] |} in
  Permutation (delete_requests (trace r)) [("a", ["k1"; "k3"]); ("b", ["k2"])].
Proof.
  destruct (delete_objects_chunked Reference.serve
              {| Reference.objects := []; Reference.next_uuid := 0;
                 Reference.schedule := [1; 0] |}
              (PList ["s3://a/k1"; "s3://b/k2"; "s3://a/k3"]) true
              ["s3://a/k1"; "s3://b/k2"; "s3://a/k3"] _ [] eq_refl)
    as (t2 & Htrace & _ & H).
  destruct (H [("a", ["k1"; "k3"]); ("b", ["k2"])]) as (_ & _ & Hdel);
    [discriminate | reflexivity |].
  cbv zeta. rewrite Htrace. apply Hdel. left. reflexivity.
Defined.

(** ** Cleanup before a dataset is written *)

Section Cleanup.

Context {DF : Type} {utils : Utils} {W : Type} (h : handler DF W).

Lemma parsed_member (paths : list string) (parsed : list (string * string))
      (p : string) :
  Forall2 (fun p bk => parse_path p = Ok bk) paths parsed ->
  In p paths -> exists bk, parse_path p = Ok bk /\ In bk parsed.
Proof.
  induction 1 as [ | p0 bk0 paths parsed Hp _ IH]; intros Hin; [destruct Hin|].
  destruct Hin as [<- | Hin].
  - exists bk0. split; [exact Hp | left; reflexivity].
  - destruct (IH Hin) as (bk & Hbk & Hmem). exists bk. split; [exact Hbk | right; exact Hmem].
Qed.

(** Every key of a bucket is in one of the bulk deletes of that bucket. *)
Lemma chunk_deletes_cover (buckets : list (string * list string))
      (b k : string) (keys : list string) :
  In (b, keys) buckets -> In k keys ->
  exists chunk, In (b, chunk) (chunk_deletes buckets) /\ In k chunk.
Proof.
  intros Hb Hk.
  destruct (chunkify_spec keys 1000 ltac:(lia)) as (Hcat & _).
  rewrite <- Hcat in Hk. apply in_concat in Hk. destruct Hk as (chunk & Hc & Hk).
  exists chunk. split; [|exact Hk].
  unfold chunk_deletes. apply in_flat_map. exists (b, keys).
  split; [exact Hb|]. cbn [fst snd]. apply in_map. exact Hc.
Qed.

(** A delete of a prefix makes cleanup requests only; when it returns,
    the prefix was listed and every locator of the listing is in a bulk
    delete that was issued. *)
Lemma run_delete_prefix (use_threads : bool) (path : string) (w : W) :
  let r := run h (delete_objects (PStr path) use_threads) w in
  Forall (fun q => is_cleanup q = true) (requests (trace r)) /\
  (outcome r = Ok tt ->
   exists bucket prefix pages,
     parse_path path = Ok (bucket, prefix) /\
     In (Event (Paginate bucket prefix 1000) (Ok pages)) (trace r) /\
     forall p, In p (flat_map (page_paths bucket) pages) ->
               exists b k keys,
                 parse_path p = Ok (b, k) /\
                 In (b, keys) (delete_requests (trace r)) /\ In k keys).
Proof.
  cbv zeta. unfold delete_objects. cbn [_path2list]. rewrite run_bind.
  destruct (parse_path path) as [[bucket prefix] | e] eqn:Hparse.
  2:{ unfold list_objects. rewrite run_bind, run_lift, Hparse.
      cbn. split; [constructor | discriminate]. }
  rewrite run_list_objects with (1 := Hparse).
  destruct (h (Paginate bucket prefix 1000) w) as [a w1]. cbn [fst snd].
  destruct a as [pages | e].
  2:{ cbn. split; [repeat constructor | discriminate]. }
  pose proof (run_delete_paths h use_threads (flat_map (page_paths bucket) pages) w1)
    as H. cbv zeta in H.
  destruct (run h (delete_paths use_threads (flat_map (page_paths bucket) pages)) w1)
    as [[res w2] t2].
  cbn [outcome trace fst snd app] in *. destruct H as (Hk & Hnil & Hsome & Hcons).
  split; [constructor; [reflexivity | exact Hk]|].
  intros Hok. exists bucket, prefix, pages.
  split; [reflexivity|]. split; [left; reflexivity|].
  intros p Hp. destruct (Hsome Hok) as [Hempty | (buckets & Hsplit)].
  - rewrite Hempty in Hp. destruct Hp.
  - assert (Hne : flat_map (page_paths bucket) pages <> [])
      by (intros E; rewrite E in Hp; destruct Hp).
    destruct (Hcons buckets Hne Hsplit) as (_ & Hd).
    destruct (Hd (or_introl Hok)) as (_ & Hperm & _).
    destruct (split_paths_by_bucket_spec _ _ Hsplit)
      as (parsed & Hall & Hnd & Hin & Hkeys).
    destruct (parsed_member _ _ _ Hall Hp) as ([b k] & Hbk & Hmem).
    assert (Hb : In (b, keys_in buckets b) buckets).
    { apply member_keys_in. apply Hin. apply (in_map fst) in Hmem. exact Hmem. }
    assert (Hkin : In k (keys_in buckets b)).
    { rewrite (Hkeys _ _ Hb). unfold keys_of_bucket.
      apply (in_map snd (filter _ parsed) (b, k)). apply filter_In. split; [exact Hmem|].
      cbn [fst]. apply String.eqb_refl. }
    destruct (chunk_deletes_cover _ _ _ _ Hb Hkin) as (chunk & Hc & Hkc).
    exists b, k, chunk. split; [exact Hbk|]. split; [|exact Hkc].
    rewrite delete_requests_cons. cbn [ev_request app].
    apply (Permutation_in _ (Permutation_sym Hperm)). exact Hc.
Qed.

End Cleanup.

(** ** Writing a dataset *)

Section RunInversion.

Context {DF W : Type} (h : handler DF W).

Lemma run_bind_ok (A B : Type) (p : prog DF A) (f : A -> prog DF B) (w w2 : W)
      (b : B) (t : list (event DF)) :
  run h (bind p f) w = (Ok b, w2, t) ->
  exists a w1 t1 t2,
    run h p w = (Ok a, w1, t1) /\ run h (f a) w1 = (Ok b, w2, t2) /\ t = t1 ++ t2.
Proof.
  rewrite run_bind. destruct (run h p w) as [[[a | e] w1] t1]; [|discriminate].
  destruct (run h (f a) w1) as [[r w3] t2] eqn:E. intros [= -> -> <-].
  exists a, w1, t1, t2. repeat split. exact E.
Qed.

Lemma run_bind_requests (P : request DF -> Prop) (A B : Type) (p : prog DF A)
      (f : A -> prog DF B) (w : W) :
  Forall P (requests (trace (run h p w))) ->
  (forall a w1, Forall P (requests (trace (run h (f a) w1)))) ->
  Forall P (requests (trace (run h (bind p f) w))).
Proof.
  intros Hp Hf. rewrite run_bind.
  destruct (run h p w) as [[[a | e] w1] t1]; cbn [trace snd] in *; [|exact Hp].
  specialize (Hf a w1). destruct (run h (f a) w1) as [[r w2] t2].
  cbn [trace snd] in *. rewrite requests_app. apply Forall_app. auto.
Qed.

Lemma run_lift_requests (P : request DF -> Prop) (A : Type) (x : result A) (w : W) :
  Forall P (requests (trace (run h (lift x) w))).
Proof. rewrite run_lift. constructor. Qed.

Lemma run_call_requests (P : request DF -> Prop) (r : request DF) (w : W) :
  P r -> Forall P (requests (trace (run h (call r) w))).
Proof. intros Hr. rewrite run_call. constructor; [exact Hr | constructor]. Qed.

End RunInversion.

Section Dataset.

Context {DF : Type} {engine : DataFrameEngine DF} {utils : Utils}.
Context {W : Type} (h : handler DF W).

Lemma run_to_parquet_file (df : DF) (path : string) (index : bool)
      (compression : option string) (w : W) :
  run h (_to_parquet_file df path index compression) w
  = (match fst (h (WriteTable df path index compression) w) with
     | Ok _ => Ok path
     | Err e => Err e
     end,
     snd (h (WriteTable df path index compression) w),
     [Event (WriteTable df path index compression)
            (fst (h (WriteTable df path index compression) w))]).
Proof.
  unfold _to_parquet_file. rewrite !run_bind, run_call.
  destruct (h (WriteTable df path index compression) w) as [[[] | e] w1];
    reflexivity.
Qed.

(** Without the upsert mode, the loop over the groups deletes nothing. *)
Lemma write_groups_no_cleanup (path : string) (index : bool)
      (compression : option string) (ext : string) (use_threads : bool)
      (mode : string) (cols : list string) (groups : list (group_key * DF)) (w : W) :
  (mode =? "partitions_upsert")%string = false ->
  Forall (fun q => is_cleanup q = false)
         (requests (trace (run h (write_groups path index compression ext use_threads
                                               mode cols groups) w))).
Proof.
  intros Hmode. revert w. induction groups as [ | [keys sub] groups IH]; intros w.
  - constructor.
  - cbn [write_groups]. rewrite Hmode.
    apply run_bind_requests; [apply run_lift_requests|]. intros f w1.
    apply run_bind_requests; [constructor|]. intros _ w2.
    apply run_bind_requests; [apply run_call_requests; reflexivity|]. intros hex w3.
    apply run_bind_requests.
    { rewrite run_to_parquet_file. constructor; [reflexivity | constructor]. }
    intros _ w4. apply run_bind_requests; [apply IH|]. intros paths w5. constructor.
Qed.

Lemma group_files_length (path : string) (cols : list string) (ext : string)
      (groups : list (group_key * DF)) (hexes : list string) :
  length hexes = length groups ->
  length (group_files path cols ext groups hexes) = length groups.
Proof.
  revert hexes. induction groups as [ | [keys sub] groups IH]; intros hexes Hlen.
  - reflexivity.
  - destruct hexes as [ | hex hexes]; [discriminate|].
    cbn [group_files length]. rewrite IH; [reflexivity|].
    cbn [length] in Hlen. lia.
Qed.

(** The loop over the groups, when it returns: for each group, in order,
    one name was drawn and one file written under it, holding the group
    without the partition columns; the paths returned are those files. *)
Lemma run_write_groups (path : string) (index : bool) (compression : option string)
      (ext : string) (use_threads : bool) (mode : string) (cols : list string)
      (groups : list (group_key * DF)) :
  forall (w w' : W) (paths : list string) (t : list (event DF)),
    run h (write_groups path index compression ext use_threads mode cols groups) w
    = (Ok paths, w', t) ->
    exists frames hexes,
      Forall2 (fun g f => drop (snd g) cols = Ok f) groups frames /\
      length hexes = length groups /\
      uuid_answers t = hexes /\
      paths = group_files path cols ext groups hexes /\
      write_requests t
      = map (fun fp => WriteTable (fst fp) (snd fp) index compression)
            (combine frames paths).
Proof.
  induction groups as [ | [keys sub] groups IH]; intros w w' paths t H.
  - cbn in H. injection H as <- _ <-. exists [], []. repeat split. constructor.
  - cbn [write_groups] in H.
    apply run_bind_ok in H as (f & wa & ta & tb & Hdrop & H & ->).
    rewrite run_lift in Hdrop. injection Hdrop as Hdrop <- <-.
    apply run_bind_ok in H as (u & wc & tc & td & Hclean & H & ->).
    assert (Hkind : Forall (fun q => is_cleanup q = true) (requests tc)).
    { destruct (mode =? "partitions_upsert")%string.
      - pose proof (run_delete_prefix h use_threads
                      (path ++ subdir_of cols (as_tuple keys) ++ "/")%string w) as Hp.
        cbv zeta in Hp. rewrite Hclean in Hp. apply Hp.
      - cbn in Hclean. injection Hclean as _ _ <-. constructor. }
    apply cleanup_no_write in Hkind. destruct Hkind as [Hnw Hnu].
    apply run_bind_ok in H as (hex & wu & tu & te & Huuid & H & ->).
    rewrite run_call in Huuid. injection Huuid as Hhex _ <-.
    apply run_bind_ok in H as (p & ww & tw & tf & Hwrite & H & ->).
    rewrite run_to_parquet_file in Hwrite.
    set (file := ((path ++ subdir_of cols (as_tuple keys) ++ "/")
                    ++ hex ++ ext ++ ".parquet")%string) in *.
    assert (Hp : p = file /\
                 tw = [Event (WriteTable f file index compression) (Ok tt)]).
    { destruct (h (WriteTable f file index compression) wu) as [[[] | e] w1];
        cbn [fst snd] in Hwrite; [|discriminate].
      injection Hwrite as <- _ <-. auto. }
    destruct Hp as [-> ->].
    apply run_bind_ok in H as (paths' & wr & tr & tg & Hrest & H & ->).
    cbn in H. injection H as <- _ <-.
    destruct (IH _ _ _ _ Hrest) as (frames & hexes & Hall & Hlen & Hu & Hpaths & Hw).
    exists (f :: frames), (hex :: hexes).
    split; [constructor; assumption|].
    split; [cbn [length]; congruence|].
    rewrite !uuid_answers_app, !write_requests_app, Hnw, Hnu, Hu, Hw, !app_nil_r.
    cbn [app]. split; [|split].
    + rewrite <- Hhex. reflexivity.
    + cbn [group_files]. rewrite <- Hpaths. reflexivity.
    + reflexivity.
Qed.

End Dataset.

Lemma app_eq_app_cons {X : Type} (l1 l2 t1 t2 : list X) (x : X) :
  l1 ++ l2 = t1 ++ x :: t2 -> ~ In x l1 -> exists t1', t1 = l1 ++ t1'.
Proof.
  revert t1. induction l1 as [ | a l1 IH]; intros t1 H Hnot.
  - exists t1. reflexivity.
  - destruct t1 as [ | y t1]; cbn [app] in H; injection H as Ha H.
    + exfalso. apply Hnot. left. exact Ha.
    + destruct (IH t1 H) as (t1' & ->); [intros Hin; apply Hnot; right; exact Hin|].
      exists t1'. rewrite Ha. reflexivity.
Qed.

Lemma append_assoc (a b c : string) : ((a ++ b) ++ c = a ++ (b ++ c))%string.
Proof. induction a as [ | x a IH]; cbn [append]; [reflexivity | rewrite IH; reflexivity]. Qed.

(** The subdirectory [_to_parquet_dataset] computes is the one the spec
    describes: a segment per partition column, the first column first,
    joined by "/". *)
Lemma subdir_of_spec (cols : list string) (vals : list value) :
  subdir_of cols vals = spec_segments cols vals.
Proof.
  unfold subdir_of. revert vals.
  induction cols as [ | c cols IH]; intros vals; [reflexivity|].
  destruct vals as [ | v vals]; [reflexivity|].
  cbn [combine map String.concat spec_segments fst snd].
  assert (Hv : str v = spec_text v) by (destruct v; reflexivity).
  rewrite Hv. specialize (IH vals).
  destruct cols as [ | c' cols]; [reflexivity|].
  destruct vals as [ | v' vals]; [reflexivity|].
  cbn [combine map] in IH |- *. rewrite IH, !append_assoc. reflexivity.
Qed.

Lemma group_path_spec (dir : string) (cols : list string) (ext : string)
      (keys : group_key) (hex : string) :
  group_path dir cols ext keys hex = spec_file dir cols ext keys hex.
Proof.
  unfold group_path, spec_file. rewrite subdir_of_spec, !append_assoc.
  destruct keys; reflexivity.
Qed.

Lemma group_files_spec {DF : Type} (dir : string) (cols : list string) (ext : string)
      (groups : list (group_key * DF)) (hexes : list string) :
  group_files dir cols ext groups hexes = spec_files dir cols ext groups hexes.
Proof.
  unfold spec_files. revert hexes.
  induction groups as [ | [keys sub] groups IH]; intros hexes; [reflexivity|].
  destruct hexes as [ | hex hexes]; [reflexivity|].
  cbn [group_files combine map fst snd]. rewrite IH, group_path_spec. reflexivity.
Qed.

Section DatasetClaims.

Context {DF : Type} {engine : DataFrameEngine DF} {utils : Utils}.
Context {W : Type} (h : handler DF W).

(** C2: in a dataset write with mode "overwrite", or with the upsert mode
    (the code spells it "partitions_upsert") and no partition columns,
    every write of a file comes after the listing of the target prefix,
    normalized to end with "/", and after bulk deletes that hold every
    locator of that listing; with mode "append" (or no mode) the run makes
    no listing and no bulk delete at all. *)
Theorem dataset_cleanup_before_write (w : W) (df : DF) (path : string)
        (index : bool) (compression : option string) (use_threads : bool)
        (partition_cols : option (list string)) (mode : option string) :
  let r := run h (to_parquet df path index compression use_threads true
                             partition_cols mode) w in
  (mode = None \/ mode = Some "append" ->
   Forall (fun q => is_listing q = false /\ is_delete q = false)
          (requests (trace r))) /\
  (mode = Some "overwrite" \/
   (mode = Some "partitions_upsert" /\
    (partition_cols = None \/ partition_cols = Some [])) ->
   forall t1 ev t2,
     trace r = t1 ++ ev :: t2 -> is_write (ev_request ev) = true ->
     exists dir bucket prefix pages,
       with_slash path = Ok dir /\
       parse_path dir = Ok (bucket, prefix) /\
       In (Event (Paginate bucket prefix 1000) (Ok pages)) t1 /\
       forall p, In p (flat_map (page_paths bucket) pages) ->
                 exists b k keys,
                   parse_path p = Ok (b, k) /\
                   In (b, keys) (delete_requests t1) /\ In k keys).
Proof.
  cbv zeta. split.
  - intros Hmode.
    apply Forall_impl with (P := fun q => is_cleanup q = false).
    { intros q Hq. unfold is_cleanup in Hq.
      destruct (is_listing q), (is_delete q); try discriminate Hq; auto. }
    unfold to_parquet. destruct (get _COMPRESSION_2_EXT compression) as [ext | ];
      [|constructor].
    cbn [negb].
    replace (match mode with None => "append" | Some m => m end) with "append"
      by (destruct Hmode as [-> | ->]; reflexivity).
    unfold _to_parquet_dataset.
    apply run_bind_requests; [apply run_lift_requests|]. intros dir w1.
    cbn [mode_in existsb]. rewrite String.eqb_refl. cbn [orb negb].
    change ("append" =? "overwrite")%string with false.
    change ("append" =? "partitions_upsert")%string with false.
    cbn [orb andb].
    apply run_bind_requests; [constructor|]. intros _ w2.
    destruct (truthy_cols partition_cols); cbn [negb].
    + apply run_bind_requests; [apply run_lift_requests|]. intros groups w3.
      apply write_groups_no_cleanup. reflexivity.
    + apply run_bind_requests; [apply run_call_requests; reflexivity|]. intros hex w3.
      apply run_bind_requests.
      { rewrite run_to_parquet_file. constructor; [reflexivity | constructor]. }
      intros _ w4. constructor.
  - intros Hmode t1 ev t2 Htrace Hwrite.
    assert (Hnil : forall X (l1 l2 : list X) (x : X), [] <> l1 ++ x :: l2)
      by (intros X l1 l2 x; apply app_cons_not_nil).
    unfold to_parquet in Htrace.
    destruct (get _COMPRESSION_2_EXT compression) as [ext | ];
      [|exfalso; exact (Hnil _ _ _ _ Htrace)].
    cbn [negb] in Htrace. unfold _to_parquet_dataset in Htrace.
    rewrite run_bind, run_lift in Htrace.
    destruct (with_slash path) as [dir | e];
      [|exfalso; exact (Hnil _ _ _ _ Htrace)].
    set (m := match mode with None => "append" | Some m => m end) in *.
    assert (Hin : mode_in m ["append"; "overwrite"; "partitions_upsert"] = true)
      by (destruct Hmode as [-> | [-> _]]; reflexivity).
    assert (Hdel : ((m =? "overwrite")%string
                    || ((m =? "partitions_upsert")%string
                        && negb (truthy_cols partition_cols))) = true)
      by (destruct Hmode as [-> | [-> [-> | ->]]]; reflexivity).
    rewrite Hin, Hdel in Htrace. cbn [negb app] in Htrace.
    rewrite run_bind in Htrace.
    pose proof (run_delete_prefix h use_threads dir w) as Hp. cbv zeta in Hp.
    destruct (run h (delete_objects (PStr dir) use_threads) w) as [[res w1] tc].
    cbn [outcome trace fst snd] in Hp. destruct Hp as (Hkind & Hok).
    assert (Hnot : ~ In ev tc).
    { intros Hev. rewrite (cleanup_not_write tc ev Hkind Hev) in Hwrite.
      discriminate Hwrite. }
    destruct res as [[] | e].
    + match type of Htrace with
      | context [run h ?p w1] => destruct (run h p w1) as [[r2 w2] tr]
      end.
      cbn [trace snd] in Htrace.
      destruct (app_eq_app_cons _ _ _ _ _ Htrace Hnot) as (t1' & ->).
      destruct (Hok eq_refl) as (bucket & prefix & pages & Hparse & Hlist & Hcover).
      exists dir, bucket, prefix, pages.
      split; [reflexivity|]. split; [exact Hparse|].
      split; [apply in_or_app; left; exact Hlist|].
      intros p Hin'. destruct (Hcover p Hin') as (b & k & keys & Hbk & Hd & Hk).
      exists b, k, keys. split; [exact Hbk|]. split; [|exact Hk].
      rewrite delete_requests_app. apply in_or_app. left. exact Hd.
    + cbn [trace snd] in Htrace. exfalso. apply Hnot. rewrite Htrace.
      apply in_or_app. right. left. reflexivity.
Qed.

(** C3: when a dataset write returns, with partition columns the
    dataframe engine grouped the dataframe by those columns, and for each
    group, in the order of the groups, one name was drawn and one file
    written: it holds the group without the partition columns and lies
    where the spec puts it ([spec_files]), at
    [<path/><col1=v1/col2=v2/...>/<name><ext>.parquet], one column=value
    segment per partition column and value of the group's key, the first
    column first; the list returned is the list of those files in that
    order.  Without partition columns one file is written, at
    [<path/><name><ext>.parquet], and the list returned holds just that
    path. *)
Theorem to_parquet_dataset_files (w w' : W) (df : DF) (path : string)
        (index : bool) (compression : option string) (use_threads : bool)
        (partition_cols : option (list string)) (mode : option string)
        (paths : list string) (t : list (event DF)) :
  run h (to_parquet df path index compression use_threads true
                    partition_cols mode) w = (Ok paths, w', t) ->
  exists dir ext,
    with_slash path = Ok dir /\
    get _COMPRESSION_2_EXT compression = Some ext /\
    match partition_cols with
    | Some (c :: cols') =>
        exists groups frames hexes,
          groupby df (c :: cols') = Ok groups /\
          Forall2 (fun g f => drop (snd g) (c :: cols') = Ok f) groups frames /\
          length hexes = length groups /\
          uuid_answers t = hexes /\
          paths = spec_files dir (c :: cols') ext groups hexes /\
          length paths = length groups /\
          write_requests t
          = map (fun fp => WriteTable (fst fp) (snd fp) index compression)
                (combine frames paths)
    | _ =>
        exists hex,
          uuid_answers t = [hex] /\
          paths = [(dir ++ hex ++ ext ++ ".parquet")%string] /\
          write_requests t
          = [WriteTable df (dir ++ hex ++ ext ++ ".parquet")%string index compression]
    end.
Proof.
  intros H. unfold to_parquet in H.
  destruct (get _COMPRESSION_2_EXT compression) as [ext | ]; [|discriminate].
  cbn [negb] in H. unfold _to_parquet_dataset in H.
  apply run_bind_ok in H as (dir & wa & ta & tb & Hdir & H & ->).
  rewrite run_lift in Hdir. injection Hdir as Hdir <- <-.
  exists dir, ext. split; [exact Hdir|]. split; [reflexivity|].
  set (m := match mode with None => "append" | Some m => m end) in *.
  destruct (mode_in m ["append"; "overwrite"; "partitions_upsert"]);
    [|discriminate].
  cbn [negb] in H.
  apply run_bind_ok in H as (u & wc & tc & td & Hclean & H & ->).
  assert (Hkind : Forall (fun q => is_cleanup q = true) (requests tc)).
  { destruct ((m =? "overwrite")%string
              || ((m =? "partitions_upsert")%string
                  && negb (truthy_cols partition_cols))).
    - pose proof (run_delete_prefix h use_threads dir w) as Hp.
      cbv zeta in Hp. rewrite Hclean in Hp. apply Hp.
    - cbn in Hclean. injection Hclean as _ _ <-. constructor. }
  apply cleanup_no_write in Hkind. destruct Hkind as [Hnw Hnu].
  cbn [app]. rewrite uuid_answers_app, write_requests_app, Hnw, Hnu. cbn [app].
  assert (Hsingle : truthy_cols partition_cols = false ->
            exists hex,
              uuid_answers td = [hex] /\
              paths = [(dir ++ hex ++ ext ++ ".parquet")%string] /\
              write_requests td
              = [WriteTable df (dir ++ hex ++ ext ++ ".parquet")%string index
                            compression]).
  { intros Hcols. rewrite Hcols in H. cbn [negb] in H.
    apply run_bind_ok in H as (hex & wu & tu & te & Huuid & H & ->).
    rewrite run_call in Huuid. injection Huuid as Hhex _ <-.
    apply run_bind_ok in H as (p & ww & tw & tf & Hwrite & H & ->).
    rewrite run_to_parquet_file in Hwrite.
    set (file := (dir ++ hex ++ ext ++ ".parquet")%string) in *.
    destruct (h (WriteTable df file index compression) wu) as [[[] | e] w1];
      cbn [fst snd] in Hwrite; [|discriminate].
    injection Hwrite as <- _ <-. cbn in H. injection H as <- _ <-.
    exists hex. subst file. rewrite <- Hhex. repeat split. }
  destruct partition_cols as [[ | c cols'] | ]; try (apply Hsingle; reflexivity).
  cbn [truthy_cols negb cols_of] in H.
  apply run_bind_ok in H as (groups & wg & tg & th & Hgroups & H & ->).
  rewrite run_lift in Hgroups. injection Hgroups as Hgroups <- <-.
  destruct (run_write_groups h _ _ _ _ _ _ _ _ _ _ _ _ H)
    as (frames & hexes & Hall & Hlen & Hu & Hpaths & Hw).
  exists groups, frames, hexes. cbn [app].
  assert (Hcount : length paths = length groups)
    by (rewrite Hpaths; apply group_files_length; exact Hlen).
  rewrite group_files_spec in Hpaths.
  auto 10.
Qed.

End DatasetClaims.

Lemma dataset_cleanup_before_write_witness :
  let r := run Reference.serve
               (to_parquet Reference.example_df "s3://bucket/prefix" false
                           (Some "snappy") false true None (Some "overwrite"))
               Reference.dataset_store in
  let r0 := run Reference.serve
                (to_parquet Reference.example_df "s3://bucket/prefix" false
                            (Some "snappy") false true (Some ["b"]) (Some "append"))
                Reference.dataset_store in
  Forall (fun q => is_listing q = false /\ is_delete q = false) (requests (trace r0)) /\
  trace r = Reference.cleanup_trace ++ Reference.first_write :: [] /\
  exists dir bucket prefix pages,
    with_slash "s3://bucket/prefix" = Ok dir /\
    parse_path dir = Ok (bucket, prefix) /\
    In (Event (DF := Reference.frame) (Paginate bucket prefix 1000) (Ok pages))
       Reference.cleanup_trace /\
    forall p, In p (flat_map (page_paths bucket) pages) ->
              exists b k keys,
                parse_path p = Ok (b, k) /\
                In (b, keys) (delete_requests Reference.cleanup_trace) /\
                In k keys.
Proof.
  cbv zeta. split; [|split; [reflexivity|]].
  - apply (proj1 (dataset_cleanup_before_write Reference.serve Reference.dataset_store
                    Reference.example_df "s3://bucket/prefix" false (Some "snappy")
                    false (Some ["b"]) (Some "append"))).
    right. reflexivity.
  - apply (proj2 (dataset_cleanup_before_write Reference.serve Reference.dataset_store
                    Reference.example_df "s3://bucket/prefix" false (Some "snappy")
                    false None (Some "overwrite")))
      with (t2 := []) (ev := Reference.first_write).
    + left. reflexivity.
    + reflexivity.
    + reflexivity.
Defined.

Lemma to_parquet_dataset_files_witness :
  let r := run Reference.serve
               (to_parquet Reference.sales_df "s3://bucket/prefix" false
                           (Some "gzip") true true (Some ["year"; "city"]) None)
               Reference.empty_store in
  outcome r = Ok ["s3://bucket/prefix/year=2020/city=Natal/0.gz.parquet";
                  "s3://bucket/prefix/year=2020/city=Recife/1.gz.parquet";
                  "s3://bucket/prefix/year=2021/city=Natal/2.gz.parquet"] /\
  exists groups frames,
    groupby Reference.sales_df ["year"; "city"] = Ok groups /\
    map fst groups = [KTuple [VInt 2020; VStr "Natal"];
                      KTuple [VInt 2020; VStr "Recife"];
                      KTuple [VInt 2021; VStr "Natal"]] /\
    Forall2 (fun g f => drop (snd g) ["year"; "city"] = Ok f) groups frames /\
    outcome r
    = Ok (spec_files "s3://bucket/prefix/" ["year"; "city"] ".gz" groups ["0"; "1"; "2"]) /\
    write_requests (trace r)
    = map (fun fp => WriteTable (fst fp) (snd fp) false (Some "gzip"))
          (combine frames
                   ["s3://bucket/prefix/year=2020/city=Natal/0.gz.parquet";
                    "s3://bucket/prefix/year=2020/city=Recife/1.gz.parquet";
                    "s3://bucket/prefix/year=2021/city=Natal/2.gz.parquet"]).
Proof.
  cbv zeta.
  set (r := run Reference.serve
                (to_parquet Reference.sales_df "s3://bucket/prefix" false
                            (Some "gzip") true true (Some ["year"; "city"]) None)
                Reference.empty_store).
  assert (Hrun : r = (Ok ["s3://bucket/prefix/year=2020/city=Natal/0.gz.parquet";
                          "s3://bucket/prefix/year=2020/city=Recife/1.gz.parquet";
                          "s3://bucket/prefix/year=2021/city=Natal/2.gz.parquet"],
                      snd (fst r), snd r)) by (vm_compute; reflexivity).
  split; [rewrite Hrun; reflexivity|].
  destruct (to_parquet_dataset_files Reference.serve Reference.empty_store _
              Reference.sales_df "s3://bucket/prefix" false (Some "gzip") true
              (Some ["year"; "city"]) None _ _ Hrun)
    as (dir & ext & Hdir & Hext & groups & frames & hexes & Hg & Hf & Hl & Hu & Hp & _ & Hw).
  injection Hdir as <-. injection Hext as <-.
  exists groups, frames. split; [exact Hg|].
  split; [injection Hg as <-; reflexivity|].
  split; [exact Hf|].
  assert (Hhex : hexes = ["0"; "1"; "2"]) by (rewrite <- Hu; reflexivity).
  split.
  - rewrite Hrun. cbn [outcome fst]. rewrite Hp, Hhex. reflexivity.
  - exact Hw.
Defined.

(** ** Threads and the order of results *)

Section Threads.

Context {DF W : Type} (h : handler DF W).

Lemma run_results (R : Type) (outcomes : list (result R)) (w : W) :
  run h (results outcomes) w = (collect outcomes, w, []).
Proof.
  induction outcomes as [ | [r | e] rest IH]; cbn [results collect];
    try reflexivity.
  rewrite run_bind, IH. destruct (collect rest); reflexivity.
Qed.

Lemma collect_values (A R : Type) (value : A -> R) (items : list A) :
  collect (map (fun x => Ok (value x)) items) = Ok (map value items).
Proof.
  induction items as [ | x items IH]; cbn [map collect]; [reflexivity|].
  rewrite IH. reflexivity.
Qed.

Lemma future_member (R : Type) (done : list (nat * result R)) (idx : nat) :
  In idx (map fst done) -> exists r, future done idx = Some r /\ In (idx, r) done.
Proof.
  induction done as [ | [i r] done IH]; cbn [map fst In future]; [tauto|].
  destruct (Nat.eqb_spec i idx) as [-> | Hne].
  - intros _. exists r. auto.
  - intros [Heq | Hin]; [contradiction|].
    destruct (IH Hin) as (r' & Hf & Hm). exists r'. auto.
Qed.

(** Whatever the scheduler picks, the pool ends with the outcome of every
    task stored under the number of the task, provided the outcome of a
    task does not depend on when it runs. *)
Lemma run_pool_outcomes (R : Type) (expected : nat -> result R) (n : nat) :
  forall (pending : list (nat * prog DF R)) (done : list (nat * result R)) (w : W),
    length pending = n ->
    NoDup (map fst pending ++ map fst done) ->
    (forall idx t w', In (idx, t) pending -> outcome (run h t w') = expected idx) ->
    (forall idx r, In (idx, r) done -> r = expected idx) ->
    exists done',
      outcome (run h (pool n pending done) w) = Ok done' /\
      forall idx, In idx (map fst pending ++ map fst done) ->
                  future done' idx = Some (expected idx).
Proof.
  induction n as [ | n IH]; intros pending done w Hlen Hnd Htasks Hdone.
  - destruct pending; [|discriminate]. cbn [pool run outcome fst].
    exists done. split; [reflexivity|]. cbn [map app]. intros idx Hin.
    destruct (future_member R done idx Hin) as (r & Hf & Hm).
    rewrite Hf, (Hdone idx r Hm). reflexivity.
  - destruct pending as [ | x0 l]; [discriminate|].
    cbn [pool]. rewrite run_bind, run_call.
    destruct (h (Pick (length (x0 :: l))) w) as [i w1]. cbn [fst snd].
    pose proof (extract_perm i x0 l) as Hperm.
    pose proof (extract_length i x0 l) as Hrest.
    destruct (extract i x0 l) as [[zi zt] rest]. cbn [fst snd] in *.
    rewrite run_bind, run_catch.
    pose proof (Htasks zi zt w1
                  (Permutation_in _ (Permutation_sym Hperm) (or_introl eq_refl)))
      as Hz.
    destruct (run h zt w1) as [[r w2] t]. cbn [outcome fst] in Hz. subst r.
    assert (Hp : Permutation (map fst (x0 :: l) ++ map fst done)
                             (map fst rest ++ map fst ((zi, expected zi) :: done))).
    { cbn [map fst]. apply Permutation_trans with ((zi :: map fst rest) ++ map fst done).
      - apply Permutation_app_tail.
        exact (Permutation_map fst Hperm).
      - apply Permutation_middle. }
    destruct (IH rest ((zi, expected zi) :: done) w2) as (done' & Hout & Hfut).
    + cbn [length] in Hlen. lia.
    + exact (Permutation_NoDup Hp Hnd).
    + intros idx t' w' Hin. apply Htasks.
      apply (Permutation_in _ (Permutation_sym Hperm)). right. exact Hin.
    + intros idx r [[= <- <-] | Hin]; [reflexivity | auto].
    + destruct (run h (pool n rest ((zi, expected zi) :: done)) w2)
        as [[res w3] t'].
      cbn [outcome fst] in Hout. subst res.
      exists done'. split; [reflexivity|].
      intros idx Hin. apply Hfut. exact (Permutation_in _ Hp Hin).
Qed.

Lemma enumerate_member {X : Type} (l : list X) (idx : nat) (x : X) :
  In (idx, x) (enumerate l) -> nth_error l idx = Some x.
Proof.
  unfold enumerate.
  assert (H : forall s, In (idx, x) (combine (seq s (length l)) l) ->
                        (s <= idx)%nat /\ nth_error l (idx - s) = Some x).
  { induction l as [ | y l IH]; intros s; cbn [length seq combine In]; [tauto|].
    intros [[= -> ->] | Hin].
    - rewrite Nat.sub_diag. auto.
    - destruct (IH (S s) Hin) as [Hle Hnth]. split; [lia|].
      replace (idx - s)%nat with (S (idx - S s)) by lia. exact Hnth. }
  intros Hin. destruct (H 0%nat Hin) as [_ Hnth].
  rewrite Nat.sub_0_r in Hnth. exact Hnth.
Qed.

Lemma map_seq_nth_error {X Y : Type} (F : option X -> Y) (l : list X) :
  map (fun i => F (nth_error l i)) (seq 0 (length l)) = map (fun x => F (Some x)) l.
Proof.
  induction l as [ | x l IH]; cbn [length seq map nth_error]; [reflexivity|].
  rewrite <- seq_shift, map_map. cbn [nth_error]. rewrite IH. reflexivity.
Qed.

(** [executor.map]: the outcomes are those of the items, in their order. *)
Lemma run_submit_all (R : Type) (tasks : list (prog DF R))
      (expected : nat -> result R) (w : W) :
  (forall idx t w', nth_error tasks idx = Some t ->
                    outcome (run h t w') = expected idx) ->
  outcome (run h (submit_all tasks) w) = Ok (map expected (seq 0 (length tasks))).
Proof.
  intros Htasks. unfold submit_all. rewrite run_bind.
  destruct (run_pool_outcomes R expected (length tasks) (enumerate tasks) [] w)
    as (done' & Hout & Hfut).
  - apply enumerate_length.
  - cbn [map]. rewrite app_nil_r, enumerate_fst. apply seq_NoDup.
  - intros idx t w' Hin. apply Htasks. apply enumerate_member. exact Hin.
  - intros idx r [].
  - destruct (run h (pool (length tasks) (enumerate tasks) []) w) as [[res w1] t1].
    cbn [outcome fst] in Hout. subst res. cbn [run outcome fst]. f_equal.
    cbn [map] in Hfut. rewrite app_nil_r, enumerate_fst in Hfut.
    induction (seq 0 (length tasks)) as [ | idx idxs IH]; cbn [flat_map map];
      [reflexivity|].
    rewrite (Hfut idx (or_introl eq_refl)). cbn [app]. f_equal.
    apply IH. intros idx' Hin. apply Hfut. right. exact Hin.
Qed.

Section PerItem.

Context {A R : Type} (f : A -> prog DF R) (items : list A) (value : A -> result R).

Hypothesis run_item :
  forall x w', In x items -> outcome (run h (f x) w') = value x.

Lemma run_executor_map (w : W) :
  outcome (run h (executor_map f items) w) = collect (map value items).
Proof.
  unfold executor_map. rewrite run_bind.
  pose proof (run_submit_all R (map f items)
                (fun idx => match nth_error items idx with
                            | Some x => value x
                            | None => Err ValueError
                            end) w) as H.
  rewrite length_map, (map_seq_nth_error
                         (fun o => match o with
                                   | Some x => value x
                                   | None => Err ValueError
                                   end) items) in H.
  destruct (run h (submit_all (map f items)) w) as [[res w1] t1].
  cbn [outcome fst] in H. rewrite H.
  - rewrite run_results. reflexivity.
  - intros idx t w' Hnth. rewrite nth_error_map in Hnth.
    destruct (nth_error items idx) as [x | ] eqn:E; [|discriminate].
    injection Hnth as <-. apply run_item. exact (nth_error_In _ _ E).
Qed.

End PerItem.

Lemma run_for_list (A R : Type) (f : A -> prog DF R) (items : list A)
      (value : A -> result R) (w : W) :
  (forall x w', In x items -> outcome (run h (f x) w') = value x) ->
  outcome (run h (for_list f items) w) = collect (map value items).
Proof.
  revert w. induction items as [ | x items IH]; intros w Hitem;
    cbn [for_list map collect]; [reflexivity|].
  rewrite run_bind. pose proof (Hitem x w (or_introl eq_refl)) as Hx.
  destruct (run h (f x) w) as [[[y | e] w1] t1]; cbn [outcome fst] in Hx;
    rewrite <- Hx; [|reflexivity].
  rewrite run_bind.
  assert (Hrest : outcome (run h (for_list f items) w1) = collect (map value items))
    by (apply IH; intros x' w' Hin; apply Hitem; right; exact Hin).
  destruct (run h (for_list f items) w1) as [[[ys | e] w2] t2];
    cbn [outcome fst] in Hrest; rewrite <- Hrest; reflexivity.
Qed.

End Threads.

Section ThreadsClaim.

Context {DF : Type} {engine : DataFrameEngine DF} {utils : Utils}.
Context {W : Type} (h : handler DF W).

(** C9: when the per-item operation returns, for every item, a value that
    the item determines, the thread pool and the sequential loop give the
    same list: the values of the items, as many as the items and in their
    order, whatever order the scheduler ran the tasks in.  So
    [describe_objects] returns the same dictionary and [read_csv] the same
    dataframe with use_threads=True as with use_threads=False. *)
Theorem threads_keep_order (w : W) :
  (forall (A R : Type) (f : A -> prog DF R) (items : list A) (value : A -> R),
      (forall x w', In x items -> outcome (run h (f x) w') = Ok (value x)) ->
      outcome (run h (executor_map f items) w) = Ok (map value items) /\
      outcome (run h (for_list f items) w) = Ok (map value items)) /\
  (forall path wait_time paths w1 t1 (desc : string -> attributes),
      run h (_path2list path) w = (Ok paths, w1, t1) ->
      (forall p w', In p paths ->
                    outcome (run h (_describe_object p wait_time) w') = Ok (p, desc p)) ->
      outcome (run h (describe_objects path wait_time true) w)
      = Ok (dict (map (fun p => (p, desc p)) paths)) /\
      outcome (run h (describe_objects path wait_time false) w)
      = Ok (dict (map (fun p => (p, desc p)) paths))) /\
  (forall path pandas_kwargs paths w1 t1 (frame : string -> DF),
      run h (_path2list path) w = (Ok paths, w1, t1) ->
      (forall p w', In p paths ->
                    outcome (run h (_read_csv p pandas_kwargs) w') = Ok (frame p)) ->
      outcome (run h (read_csv path true pandas_kwargs) w) = concat (map frame paths) /\
      outcome (run h (read_csv path false pandas_kwargs) w) = concat (map frame paths)).
Proof.
  assert (Hpool : forall (A R : Type) (f : A -> prog DF R) (items : list A)
                         (value : A -> R) (w0 : W),
             (forall x w', In x items -> outcome (run h (f x) w') = Ok (value x)) ->
             outcome (run h (executor_map f items) w0) = Ok (map value items) /\
             outcome (run h (for_list f items) w0) = Ok (map value items)).
  { intros A R f items value w0 Hitem. split.
    - rewrite (run_executor_map h f items (fun x => Ok (value x)) Hitem).
      apply collect_values.
    - rewrite (run_for_list h A R f items (fun x => Ok (value x)) w0 Hitem).
      apply collect_values. }
  split; [intros A R f items value; apply Hpool|]. split.
  - intros path wait_time paths w1 t1 desc Hres Hitem.
    destruct (Hpool _ _ (fun p => _describe_object p wait_time) paths
                    (fun p => (p, desc p)) w1 Hitem) as [Hthreads Hloop].
    unfold describe_objects. rewrite !run_bind, Hres.
    destruct paths as [ | p paths]; [split; reflexivity|].
    cbn [length Nat.ltb Nat.leb negb]. rewrite !run_bind.
    destruct (run h (executor_map (fun p0 => _describe_object p0 wait_time) (p :: paths)) w1)
      as [[r1 w2] t2].
    destruct (run h (for_list (fun p0 => _describe_object p0 wait_time) (p :: paths)) w1)
      as [[r2 w3] t3].
    cbn [outcome fst] in Hthreads, Hloop. subst r1 r2. split; reflexivity.
  - intros path pandas_kwargs paths w1 t1 frame Hres Hitem.
    destruct (Hpool _ _ (fun p => _read_csv p pandas_kwargs) paths frame w1 Hitem)
      as [Hthreads Hloop].
    unfold read_csv. rewrite !run_bind, Hres. cbn [negb]. rewrite !run_bind.
    destruct (run h (executor_map (fun p => _read_csv p pandas_kwargs) paths) w1)
      as [[r1 w2] t2].
    destruct (run h (for_list (fun p => _read_csv p pandas_kwargs) paths) w1)
      as [[r2 w3] t3].
    cbn [outcome fst] in Hthreads, Hloop. subst r1 r2.
    rewrite !run_lift. split; reflexivity.
Qed.

End ThreadsClaim.

Lemma threads_keep_order_witness :
  outcome (run Reference.steady
               (describe_objects (PList ["s3://bucket/k0"; "s3://bucket/k1";
                                         "s3://bucket/k2"]) None true) [2; 0; 5])
  = Ok [("s3://bucket/k0", [("ETag", "k0")]);
        ("s3://bucket/k1", [("ETag", "k1")]);
        ("s3://bucket/k2", [("ETag", "k2")])]
  /\
  outcome (run Reference.steady
               (describe_objects (PList ["s3://bucket/k0"; "s3://bucket/k1";
                                         "s3://bucket/k2"]) None false) [2; 0; 5])
  = Ok [("s3://bucket/k0", [("ETag", "k0")]);
        ("s3://bucket/k1", [("ETag", "k1")]);
        ("s3://bucket/k2", [("ETag", "k2")])].
Proof.
  apply (proj1 (proj2 (threads_keep_order Reference.steady [2; 0; 5]))
               (PList ["s3://bucket/k0"; "s3://bucket/k1"; "s3://bucket/k2"])
               None
               ["s3://bucket/k0"; "s3://bucket/k1"; "s3://bucket/k2"]
               [2; 0; 5] []
               (fun p => match Reference.spec_parse_path p with
                         | Ok (_, k) => [("ETag", k)]
                         | Err _ => []
                         end)).
  - reflexivity.
  - intros p w' [<- | [<- | [<- | []]]]; reflexivity.
Defined.

(** ** The module at work on the reference store *)

Example replace_and_split :
  replace_scheme "s3://bucket/prefix/key" = "bucket/prefix/key" /\
  replace_scheme "s3:/s3://x" = "s3:/x" /\
  split1 "bucket/prefix/key" = ("bucket", Some "prefix/key") /\
  split1 "bucket" = ("bucket", None) /\
  with_slash "s3://bucket/prefix" = Ok "s3://bucket/prefix/" /\
  with_slash "s3://bucket/prefix/" = Ok "s3://bucket/prefix/" /\
  with_slash "" = Err IndexError.
Proof. repeat split. Qed.

(** Two partition columns give two segments, in the order of the columns;
    an integer is written in decimal. *)
Example subdir_of_two_columns :
  subdir_of ["year"; "city"] [VInt 2020; VStr "Recife"] = "year=2020/city=Recife" /\
  group_path "s3://bucket/prefix/" ["year"; "city"] ".gz"
             (KTuple [VInt 2020; VStr "Recife"]) "0f"
  = "s3://bucket/prefix/year=2020/city=Recife/0f.gz.parquet" /\
  group_path "s3://bucket/prefix/" ["city"] ".snappy" (KScalar (VStr "Recife")) "0f"
  = "s3://bucket/prefix/city=Recife/0f.snappy.parquet".
Proof. repeat split. Qed.

(** A dictionary keeps the place of a key's first entry and its last value. *)
Example dict_of_pairs :
  dict [("a", 1%nat); ("b", 2%nat); ("a", 3%nat)] = [("a", 3%nat); ("b", 2%nat)].
Proof. reflexivity. Qed.

(** 2001 keys of one bucket go in three bulk deletes: 1000, 1000 and 1. *)
Example delete_2001_keys :
  map (fun bk => (fst bk, length (snd bk)))
      (delete_requests
         (trace (run Reference.serve
                     (delete_objects (PList (Reference.numbered_paths 2001)) false)
                     Reference.empty_store)))
  = [("bucket", 1000%nat); ("bucket", 1000%nat); ("bucket", 1%nat)].
Proof. vm_compute. reflexivity. Qed.

(** Overwriting a dataset leaves the new files only under its prefix. *)
Example overwrite_leaves_new_files :
  map fst (Reference.objects
             (final (run Reference.serve
                         (to_parquet Reference.example_df "s3://bucket/prefix" false
                                     (Some "gzip") true true (Some ["b"])
                                     (Some "overwrite"))
                         Reference.dataset_store)))
  = [("bucket", "elsewhere/file.parquet");
     ("bucket", "prefix/b=x/0.gz.parquet");
     ("bucket", "prefix/b=y/1.gz.parquet")].
Proof. vm_compute. reflexivity. Qed.

(** The upsert mode replaces the partitions that are written and keeps
    the others. *)
Example upsert_replaces_partitions :
  let first :=
    to_parquet Reference.example_df "s3://bucket/prefix" false None false true
               (Some ["b"]) None in
  let second :=
    to_parquet {| Reference.columns := ["a"; "b"];
                  Reference.rows := [[VInt 7; VStr "y"]] |}
               "s3://bucket/prefix" false None false true
               (Some ["b"]) (Some "partitions_upsert") in
  map fst (Reference.objects
             (final (run Reference.serve (first ;; second) Reference.empty_store)))
  = [("bucket", "prefix/b=x/0.parquet"); ("bucket", "prefix/b=y/2.parquet")].
Proof. vm_compute. reflexivity. Qed.

(** A float below one second still gives one try, and so does a negative
    one; 2.7 seconds give two; an infinite or undefined waiting time gives
    an exception instead of a number of tries. *)
Example tries_of_floats :
  tries_of (Some (PyFloat (1 # 2))) = Ok 1%Z /\
  tries_of (Some (PyFloat (27 # 10))) = Ok 2%Z /\
  tries_of (Some (PyFloat (-27 # 10))) = Ok 1%Z /\
  tries_of (Some (PyInt (-3))) = Ok 1%Z /\
  tries_of None = Ok 1%Z /\
  tries_of (Some (PyInf false)) = Err OverflowError /\
  tries_of (Some (PyInf true)) = Err OverflowError /\
  tries_of (Some PyNaN) = Err ValueError.
Proof. repeat split. Qed.

(** * Further properties of the module *)

(** ** Locators *)

Lemma replace_scheme_clean (s : string) :
  has_scheme s = false -> replace_scheme s = s.
Proof.
  unfold replace_scheme. induction s as [ | c s IH]; [reflexivity|].
  cbn [has_scheme replace_scheme_from]. intros H.
  apply orb_false_iff in H. destruct H as [Hp Hs].
  rewrite Hp, (IH Hs). reflexivity.
Qed.

Lemma replace_scheme_head (s : string) :
  replace_scheme ("s3://" ++ s) = replace_scheme s.
Proof.
  unfold replace_scheme.
  assert (Hp : prefix "s3://" ("s3://" ++ s) = true)
    by (cbn; destruct s; reflexivity).
  cbn [append] in *. cbn [replace_scheme_from]. rewrite Hp. reflexivity.
Qed.

Lemma split1_join (bucket rest : string) :
  has_slash bucket = false ->
  split1 (bucket ++ "/" ++ rest) = (bucket, Some rest).
Proof.
  change ("/" ++ rest)%string with (String "/"%char rest).
  induction bucket as [ | c bucket IH]; cbn [has_slash append split1].
  - reflexivity.
  - intros H. apply orb_false_iff in H. destruct H as [Hc Hb].
    rewrite Hc, (IH Hb). reflexivity.
Qed.

Lemma split1_no_slash (s : string) :
  has_slash s = false -> split1 s = (s, None).
Proof.
  induction s as [ | c s IH]; cbn [has_slash split1]; [reflexivity|].
  intros H. apply orb_false_iff in H. destruct H as [Hc Hs].
  rewrite Hc, (IH Hs). reflexivity.
Qed.

Section Locators.

Context {DF W : Type} (h : handler DF W).

(** X1: [does_object_exists] on the locator [s3://<bucket>/<key>] looks up
    exactly that bucket and key, once, provided the bucket has no "/" and
    "s3://" does not occur again inside bucket and key (every occurrence
    is removed, not just the leading one); a path that has no "/" left
    once "s3://" is removed raises ValueError and nothing is looked up. *)
Theorem does_object_exists_locator (w : W) :
  (forall bucket key,
      has_slash bucket = false ->
      has_scheme (bucket ++ "/" ++ key) = false ->
      requests (trace (run h (does_object_exists ("s3://" ++ bucket ++ "/" ++ key)) w))
      = [HeadObject bucket key]) /\
  (forall path,
      has_slash (replace_scheme path) = false ->
      run h (does_object_exists path) w = (Err ValueError, w, [])).
Proof.
  split.
  - intros bucket key Hb Hs. unfold does_object_exists.
    rewrite replace_scheme_head, (replace_scheme_clean _ Hs), (split1_join _ _ Hb).
    rewrite run_bind, run_call.
    destruct (h (HeadObject bucket key) w) as [a w1]. cbn [fst snd].
    destruct a as [d | e]; [reflexivity|].
    destruct e; try reflexivity.
    destruct (HTTPStatusCode =? 404)%Z; reflexivity.
  - intros path Hp. unfold does_object_exists.
    rewrite (split1_no_slash _ Hp). reflexivity.
Qed.

End Locators.

Lemma does_object_exists_locator_witness :
  requests (trace (run Reference.serve
                       (does_object_exists ("s3://" ++ "bucket" ++ "/" ++ "prefix/key"))
                       Reference.empty_store))
  = [HeadObject "bucket" "prefix/key"] /\
  run Reference.serve (does_object_exists "s3://bucket") Reference.empty_store
  = (Err ValueError, Reference.empty_store, []).
Proof.
  split.
  - apply (proj1 (does_object_exists_locator Reference.serve Reference.empty_store));
      reflexivity.
  - apply (proj2 (does_object_exists_locator Reference.serve Reference.empty_store));
      reflexivity.
Defined.

(** Why the second condition is there: the key [a/s3://b] is looked up as
    [a/b]. *)
Example does_object_exists_inner_scheme :
  requests (trace (run Reference.serve (does_object_exists "s3://bucket/a/s3://b")
                       Reference.empty_store))
  = [HeadObject "bucket" "a/b"].
Proof. reflexivity. Qed.

(** ** A prefix that does not parse *)

Section UnparsablePrefix.

Context {DF : Type} {engine : DataFrameEngine DF} {utils : Utils}.
Context {W : Type} (h : handler DF W).

(** X2: when [parse_path] refuses a prefix, listing, deleting, describing,
    sizing and reading it all raise the parser's exception, and none of
    them has made a request by then. *)
Theorem unparsable_prefix_fails_fast (w : W) (path : string) (e : exn)
        (use_threads : bool) (wait_time : option number) (pandas_kwargs : kwargs) :
  parse_path path = Err e ->
  run h (list_objects path) w = (Err e, w, []) /\
  run h (delete_objects (PStr path) use_threads) w = (Err e, w, []) /\
  run h (describe_objects (PStr path) wait_time use_threads) w = (Err e, w, []) /\
  run h (size_objects (PStr path) wait_time use_threads) w = (Err e, w, []) /\
  run h (read_csv (PStr path) use_threads pandas_kwargs) w = (Err e, w, []).
Proof.
  intros Hparse.
  assert (Hlist : run h (list_objects path) w = (Err e, w, []))
    by (unfold list_objects; rewrite run_bind, run_lift, Hparse; reflexivity).
  split; [exact Hlist|].
  unfold delete_objects, size_objects, describe_objects, read_csv.
  cbn [_path2list]. rewrite !run_bind, Hlist. repeat split.
Qed.

End UnparsablePrefix.

Lemma unparsable_prefix_fails_fast_witness :
  run Reference.serve (delete_objects (PStr "s3://bucket") true) Reference.dataset_store
  = (Err (OtherError "InvalidArgument"), Reference.dataset_store, []).
Proof.
  apply (unparsable_prefix_fails_fast Reference.serve Reference.dataset_store
           "s3://bucket" (OtherError "InvalidArgument") true None []).
  reflexivity.
Defined.

(** ** Nothing is lost between the locators and the buckets *)

Lemma distinct_from (keys acc : list string) :
  NoDup acc ->
  let d := fold_left (fun acc k => if existsb (String.eqb k) acc then acc else acc ++ [k])
                     keys acc in
  NoDup d /\ forall x, In x d <-> In x acc \/ In x keys.
Proof.
  revert acc. induction keys as [ | k keys IH]; intros acc Hnd; cbv zeta.
  - cbn. split; [exact Hnd | intuition].
  - cbn [fold_left]. destruct (existsb (String.eqb k) acc) eqn:E.
    + destruct (IH acc Hnd) as [Hd Hin]. split; [exact Hd|].
      intros x. rewrite Hin. cbn [In]. apply existsb_exists in E.
      destruct E as (y & Hy & Heq). apply String.eqb_eq in Heq. subst y.
      intuition (subst; auto).
    + assert (Hnot : ~ In k acc).
      { intros Hk.
        assert (Ht : existsb (String.eqb k) acc = true)
          by (apply existsb_exists; exists k; split;
              [exact Hk | apply String.eqb_refl]).
        rewrite Ht in E. discriminate E. }
      assert (Hnd' : NoDup (acc ++ [k])).
      { apply NoDup_app; [exact Hnd | repeat constructor; intros [] |].
        intros x Hx [<- | []]. exact (Hnot Hx). }
      destruct (IH (acc ++ [k]) Hnd') as [Hd Hin]. split; [exact Hd|].
      intros x. rewrite Hin, in_app_iff. cbn [In]. intuition.
Qed.

(** [distinct] keeps every key, once. *)
Lemma distinct_spec (keys : list string) :
  NoDup (distinct keys) /\ forall x, In x (distinct keys) <-> In x keys.
Proof.
  destruct (distinct_from keys [] (NoDup_nil _)) as [Hnd Hin].
  split; [exact Hnd|]. intros x. unfold distinct. rewrite Hin. cbn. intuition.
Qed.

Lemma dict_append_flatten (d : list (string * list string)) (b k : string) :
  Permutation (flatten (dict_append d b k)) (flatten d ++ [(b, k)]).
Proof.
  unfold flatten. induction d as [ | [b0 ks] d IH]; cbn [dict_append flat_map fst snd].
  - reflexivity.
  - destruct (String.eqb_spec b0 b) as [-> | Hne]; cbn [flat_map fst snd].
    + rewrite map_app. cbn [map]. rewrite <- !app_assoc.
      apply Permutation_app_head. apply Permutation_app_comm.
    + rewrite IH, app_assoc. reflexivity.
Qed.

Lemma dict_append_names (d : list (string * list string)) (b k : string) :
  map fst (dict_append d b k)
  = if existsb (String.eqb b) (map fst d) then map fst d else map fst d ++ [b].
Proof.
  induction d as [ | [b0 ks] d IH]; cbn [dict_append map fst existsb]; [reflexivity|].
  rewrite (String.eqb_sym b b0).
  destruct (String.eqb_spec b0 b) as [-> | Hne]; cbn [map fst orb]; [reflexivity|].
  rewrite IH. destruct (existsb (String.eqb b) (map fst d)); reflexivity.
Qed.

Lemma dict_append_nonempty (d : list (string * list string)) (b k : string) :
  Forall (fun bk => snd bk <> []) d ->
  Forall (fun bk => snd bk <> []) (dict_append d b k).
Proof.
  induction d as [ | [b0 ks] d IH]; cbn [dict_append]; intros H.
  - constructor; [discriminate | constructor].
  - inversion H as [ | ? ? Hks Hd]; subst.
    destruct (String.eqb b0 b); constructor; auto.
    cbn [snd]. destruct ks; discriminate.
Qed.

Lemma group_keys_conserves (parsed : list (string * string))
      (d : list (string * list string)) :
  Permutation (flatten (group_keys parsed d)) (flatten d ++ parsed) /\
  map fst (group_keys parsed d)
  = fold_left (fun acc k => if existsb (String.eqb k) acc then acc else acc ++ [k])
              (map fst parsed) (map fst d) /\
  (Forall (fun bk => snd bk <> []) d ->
   Forall (fun bk => snd bk <> []) (group_keys parsed d)).
Proof.
  revert d. induction parsed as [ | [b k] parsed IH]; intros d.
  - cbn. rewrite app_nil_r. auto.
  - cbn [group_keys fold_left fst snd map].
    destruct (IH (dict_append d b k)) as (Hperm & Hnames & Hne).
    unfold group_keys in *. split; [|split].
    + rewrite Hperm, dict_append_flatten, <- app_assoc. reflexivity.
    + rewrite Hnames, dict_append_names. reflexivity.
    + intros H. apply Hne. apply dict_append_nonempty. exact H.
Qed.

Section SplitPaths.

Context {utils : Utils}.

Lemma split_paths_error (paths : list string) (d : list (string * list string))
      (e : exn) :
  split_paths paths d = Err e ->
  exists good p rest,
    paths = good ++ p :: rest /\
    Forall (fun q => exists bk, parse_path q = Ok bk) good /\
    parse_path p = Err e.
Proof.
  revert d. induction paths as [ | q paths IH]; intros d; cbn [split_paths];
    [discriminate|].
  destruct (parse_path q) as [[b k] | e'] eqn:E.
  - intros H. destruct (IH _ H) as (good & p & rest & -> & Hgood & Hp).
    exists (q :: good), p, rest. split; [reflexivity|]. split; [|exact Hp].
    constructor; [eauto | exact Hgood].
  - intros [= ->]. exists [], q, paths. split; [reflexivity|].
    split; [constructor | exact E].
Qed.

(** X3: [_split_paths_by_bucket] loses no locator and invents none: the
    bucket and key pairs of its result are those of the locators, up to
    order; the buckets come in the order of their first locator, and no
    bucket has an empty list of keys.  When a locator does not parse, the
    exception is that of the first such locator. *)
Theorem split_paths_by_bucket_conserves (paths : list string) :
  (forall buckets,
      _split_paths_by_bucket paths = Ok buckets ->
      exists parsed,
        Forall2 (fun p bk => parse_path p = Ok bk) paths parsed /\
        Permutation (flatten buckets) parsed /\
        map fst buckets = distinct (map fst parsed) /\
        Forall (fun bk => snd bk <> []) buckets) /\
  (forall e,
      _split_paths_by_bucket paths = Err e ->
      exists good p rest,
        paths = good ++ p :: rest /\
        Forall (fun q => exists bk, parse_path q = Ok bk) good /\
        parse_path p = Err e).
Proof.
  split.
  - intros buckets H.
    destruct (split_paths_parsed _ _ _ H) as (parsed & Hall & ->).
    destruct (group_keys_conserves parsed []) as (Hperm & Hnames & Hne).
    exists parsed. split; [exact Hall|]. split; [exact Hperm|].
    split; [exact Hnames | apply Hne; constructor].
  - intros e H. exact (split_paths_error _ _ _ H).
Qed.

End SplitPaths.

Lemma split_paths_by_bucket_conserves_witness :
  (exists parsed,
      Forall2 (fun p bk => parse_path p = Ok bk)
              ["s3://a/k1"; "s3://b/k2"; "s3://a/k3"] parsed /\
      Permutation (flatten [("a", ["k1"; "k3"]); ("b", ["k2"])]) parsed /\
      map fst [("a", ["k1"; "k3"]); ("b", ["k2"])] = distinct (map fst parsed) /\
      Forall (fun bk => snd bk <> []) [("a", ["k1"; "k3"]); ("b", ["k2"])]) /\
  (exists good p rest,
      ["s3://a/k1"; "nowhere"; "s3://a/k3"] = good ++ p :: rest /\
      Forall (fun q => exists bk, parse_path q = Ok bk) good /\
      parse_path p = Err (OtherError "InvalidArgument")).
Proof.
  split.
  - apply (proj1 (split_paths_by_bucket_conserves
                    ["s3://a/k1"; "s3://b/k2"; "s3://a/k3"])).
    reflexivity.
  - apply (proj2 (split_paths_by_bucket_conserves
                    ["s3://a/k1"; "nowhere"; "s3://a/k3"])).
    reflexivity.
Defined.

(** ** What a delete asks the store to delete *)

Lemma flatten_app (l1 l2 : list (string * list string)) :
  flatten (l1 ++ l2) = flatten l1 ++ flatten l2.
Proof. apply flat_map_app. Qed.

Lemma flatten_chunks (b : string) (chunks : list (list string)) :
  flatten (map (pair b) chunks) = map (pair b) (List.concat chunks).
Proof.
  unfold flatten. induction chunks as [ | c chunks IH]; cbn [map flat_map List.concat fst snd];
    [reflexivity|]. rewrite IH, map_app. reflexivity.
Qed.

Lemma flatten_chunk_deletes (buckets : list (string * list string)) :
  flatten (chunk_deletes buckets) = flatten buckets.
Proof.
  induction buckets as [ | [b keys] buckets IH]; [reflexivity|].
  unfold chunk_deletes in *. cbn [flat_map fst snd].
  rewrite flatten_app, IH, flatten_chunks.
  destruct (chunkify_spec keys 1000 ltac:(lia)) as (-> & _). reflexivity.
Qed.

Lemma flatten_incl (l1 l2 : list (string * list string)) :
  incl l1 l2 -> incl (flatten l1) (flatten l2).
Proof.
  intros H x Hx. unfold flatten in *. apply in_flat_map in Hx.
  destruct Hx as (bk & Hbk & Hx). apply in_flat_map. exists bk. auto.
Qed.

Section DeleteExact.

Context {DF : Type} {utils : Utils} {W : Type} (h : handler DF W).

Lemma run_delete_chunks_incl (bucket : string) (chunks : list (list string)) (w : W) :
  incl (delete_requests (trace (run h (for_each (_delete_objects bucket) chunks) w)))
       (map (pair bucket) chunks).
Proof.
  revert w. induction chunks as [ | chunk chunks IH]; intros w.
  - cbn. apply incl_refl.
  - cbn [for_each]. rewrite run_bind, run_delete_one.
    destruct (h (DeleteObjects bucket chunk) w) as [a w1]. cbn [fst snd].
    destruct a as [[] | e].
    + specialize (IH w1).
      destruct (run h (for_each (_delete_objects bucket) chunks) w1) as [[res w2] t].
      cbn [trace snd app] in *. rewrite delete_requests_cons. cbn [ev_request app map].
      apply incl_cons; [left; reflexivity | apply incl_tl; exact IH].
    + cbn [trace snd]. rewrite delete_requests_cons. cbn [ev_request app map].
      apply incl_cons; [left; reflexivity | intros x []].
Qed.

Lemma run_delete_buckets_incl (use_threads : bool)
      (buckets : list (string * list string)) (w : W) :
  incl (delete_requests (trace (run h (for_each (delete_bucket use_threads) buckets) w)))
       (chunk_deletes buckets).
Proof.
  revert w. induction buckets as [ | bk buckets IH]; intros w.
  - cbn. apply incl_refl.
  - cbn [for_each]. rewrite run_bind.
    assert (H1 : incl (delete_requests (trace (run h (delete_bucket use_threads bk) w)))
                      (map (pair (fst bk)) (chunkify (snd bk) 1000))).
    { destruct use_threads.
      - destruct (run_delete_bucket h true bk w) as (_ & Hok & Hd).
        destruct (Hd (or_introl (Hok eq_refl))) as (_ & Hperm & _).
        intros x Hx. exact (Permutation_in _ Hperm Hx).
      - destruct bk as [b keys]. apply run_delete_chunks_incl. }
    destruct (run h (delete_bucket use_threads bk) w) as [[[[] | e] w1] t1];
      cbn [trace snd] in H1; unfold chunk_deletes; cbn [flat_map].
    + specialize (IH w1).
      destruct (run h (for_each (delete_bucket use_threads) buckets) w1)
        as [[res w2] t2].
      cbn [trace snd] in *. rewrite delete_requests_app.
      apply incl_app; [apply incl_appl; exact H1 | apply incl_appr; exact IH].
    + cbn [trace snd]. apply incl_appl. exact H1.
Qed.

Lemma split_paths_of_parsed (paths : list string) (parsed : list (string * string))
      (d : list (string * list string)) :
  Forall2 (fun p bk => parse_path p = Ok bk) paths parsed ->
  split_paths paths d = Ok (group_keys parsed d).
Proof.
  intros H. revert d. induction H as [ | p [b k] paths parsed Hp _ IH]; intros d.
  - reflexivity.
  - cbn [split_paths]. rewrite Hp. apply IH.
Qed.

Lemma run_path2list_cleanup (path : path_arg) (w : W) :
  Forall (fun q => is_cleanup q = true) (requests (trace (run h (_path2list path) w))).
Proof.
  destruct path as [s | l | ]; cbn [_path2list]; try constructor.
  unfold list_objects.
  apply run_bind_requests; [apply run_lift_requests|]. intros [b p] w1.
  apply run_bind_requests; [apply run_call_requests; reflexivity|]. intros pages w2.
  apply run_bind_requests; [apply run_lift_requests|]. intros pgs w3. constructor.
Qed.

(** X4: [delete_objects] makes no request but the listing that resolves a
    prefix, bulk deletes and the picks of the scheduler.  What its bulk
    deletes name is always among the resolved locators; and with threads,
    or when no bulk delete fails, every resolved locator is named, as
    often as it was given. *)
Theorem delete_objects_exact (w : W) (path : path_arg) (use_threads : bool)
        (paths : list string) (w1 : W) (t1 : list (event DF))
        (parsed : list (string * string)) :
  run h (_path2list path) w = (Ok paths, w1, t1) ->
  Forall2 (fun p bk => parse_path p = Ok bk) paths parsed ->
  let r := run h (delete_objects path use_threads) w in
  Forall (fun q => is_cleanup q = true) (requests (trace r)) /\
  exists t2,
    trace r = t1 ++ t2 /\
    incl (flatten (delete_requests t2)) parsed /\
    (use_threads = true \/ deletes_succeed t2 ->
     Permutation (flatten (delete_requests t2)) parsed).
Proof.
  intros Hres Hparsed. cbv zeta. unfold delete_objects. rewrite run_bind, Hres.
  pose proof (run_path2list_cleanup path w) as Hk1. rewrite Hres in Hk1.
  cbn [trace snd] in Hk1.
  pose proof (run_delete_paths h use_threads paths w1) as H. cbv zeta in H.
  destruct H as (Hk2 & Hnil & _ & Hcons).
  pose proof (split_paths_of_parsed paths parsed [] Hparsed) as Hsplit.
  fold (_split_paths_by_bucket paths) in Hsplit.
  destruct (group_keys_conserves parsed []) as (Hperm & _). cbn [flatten flat_map app] in Hperm.
  assert (Hincl : incl (delete_requests (trace (run h (delete_paths use_threads paths) w1)))
                       (chunk_deletes (group_keys parsed []))).
  { unfold delete_paths. destruct paths as [ | p paths]; [intros x []|].
    cbn [length Nat.ltb Nat.leb]. rewrite run_bind, run_lift, Hsplit.
    pose proof (run_delete_buckets_incl use_threads (group_keys parsed []) w1) as Hi.
    destruct (run h (for_each (delete_bucket use_threads) (group_keys parsed [])) w1)
      as [[res w2] t]. exact Hi. }
  destruct (run h (delete_paths use_threads paths) w1) as [[res w2] t2].
  cbn [outcome trace fst snd] in *.
  split; [rewrite requests_app; apply Forall_app; split; assumption|].
  exists t2. split; [reflexivity|]. split.
  - intros x Hx. apply (Permutation_in _ Hperm).
    rewrite <- (flatten_chunk_deletes (group_keys parsed [])).
    exact (flatten_incl _ _ Hincl x Hx).
  - intros Hor. destruct paths as [ | p paths].
    + inversion Hparsed; subst. specialize (Hnil eq_refl).
      injection Hnil as _ _ ->. constructor.
    + destruct (Hcons _ ltac:(discriminate) Hsplit) as (Ht & Hd).
      assert (Hor' : res = Ok tt \/ deletes_succeed t2)
        by (destruct Hor as [Hu | Hs]; [left; exact (Ht Hu) | right; exact Hs]).
      destruct (Hd Hor') as (_ & Hp & _).
      rewrite <- Hperm, <- (flatten_chunk_deletes (group_keys parsed [])).
      unfold flatten. apply Permutation_flat_map. exact Hp.
Qed.

End DeleteExact.

Lemma delete_objects_exact_witness :
  let r := run Reference.serve (delete_objects (PStr "s3://bucket/prefix/") false)
               Reference.dataset_store in
  Forall (fun q => is_cleanup q = true) (requests (trace r)) /\
  exists t2,
    trace r = [Event (Paginate "bucket" "prefix/" 1000)
                     (Ok [page_of_keys ["prefix/old0.parquet"; "prefix/old1.parquet"]])]
              ++ t2 /\
    incl (flatten (delete_requests t2))
         [("bucket", "prefix/old0.parquet"); ("bucket", "prefix/old1.parquet")] /\
    (false = true \/ deletes_succeed t2 ->
     Permutation (flatten (delete_requests t2))
                 [("bucket", "prefix/old0.parquet"); ("bucket", "prefix/old1.parquet")]).
Proof.
  apply (delete_objects_exact Reference.serve Reference.dataset_store
           (PStr "s3://bucket/prefix/") false
           ["s3://bucket/prefix/old0.parquet"; "s3://bucket/prefix/old1.parquet"]
           Reference.dataset_store).
  - reflexivity.
  - repeat constructor.
Defined.

(** ** Outcomes of a batch, whatever the store does in between *)

Lemma Forall2_map_left {X Y Z : Type} (P : Y -> Z -> Prop) (f : X -> Y)
      (l : list X) (l' : list Z) :
  Forall2 P (map f l) l' -> Forall2 (fun a b => P (f a) b) l l'.
Proof.
  revert l'. induction l as [ | x l IH]; intros l' H; inversion H; subst;
    constructor; auto.
Qed.

Lemma Forall2_seq_items {X Y : Type} (P : option X -> Y -> Prop) (items : list X)
      (rs : list Y) :
  Forall2 (fun idx r => P (nth_error items idx) r) (seq 0 (length items)) rs ->
  Forall2 (fun x r => P (Some x) r) items rs.
Proof.
  revert rs. induction items as [ | x items IH]; intros rs H; cbn [length seq] in H.
  - inversion H. constructor.
  - inversion H as [ | ? r ? rs' H0 Hrest]; subst. constructor; [exact H0|].
    apply IH. rewrite <- seq_shift in Hrest.
    apply Forall2_map_left in Hrest. exact Hrest.
Qed.

Lemma Forall2_member_right {X Y : Type} (P : X -> Y -> Prop) (l : list X)
      (l' : list Y) (y : Y) :
  Forall2 P l l' -> In y l' -> exists x, In x l /\ P x y.
Proof.
  induction 1 as [ | x y0 l l' Hp _ IH]; intros Hin; [destruct Hin|].
  destruct Hin as [<- | Hin].
  - exists x. split; [left; reflexivity | exact Hp].
  - destruct (IH Hin) as (x' & Hx & Hp'). exists x'. split; [right|]; assumption.
Qed.

Lemma collect_sound {A R : Type} (Qv : A -> R -> Prop) (items : list A)
      (rs : list (result R)) :
  Forall2 (fun x r => exists v, r = Ok v /\ Qv x v) items rs ->
  exists vs, collect rs = Ok vs /\ Forall2 Qv items vs.
Proof.
  induction 1 as [ | x r items rs (v & -> & Hv) _ (vs & Hc & Hvs)].
  - exists []. split; [reflexivity | constructor].
  - exists (v :: vs). cbn [collect]. rewrite Hc. split; [reflexivity|].
    constructor; assumption.
Qed.

Section BatchSound.

Context {DF W : Type} (h : handler DF W).

(** The pool ends with an outcome for every task, and it is the outcome of
    a run of the task inside the run of the pool: whatever holds of the
    outcome and the trace of task [idx] wherever it starts, and keeps
    holding when the trace grows, holds of what is stored under [idx] and
    the trace of the pool. *)
Lemma run_pool_sound (R : Type) (Q : nat -> result R -> list (event DF) -> Prop)
      (n : nat) :
  (forall idx r t t', incl t t' -> Q idx r t -> Q idx r t') ->
  forall (pending : list (nat * prog DF R)) (done : list (nat * result R)) (w : W)
         (t0 : list (event DF)),
    length pending = n ->
    NoDup (map fst pending ++ map fst done) ->
    (forall idx t w', In (idx, t) pending ->
                      Q idx (outcome (run h t w')) (trace (run h t w'))) ->
    (forall idx r, In (idx, r) done -> Q idx r t0) ->
    exists done',
      outcome (run h (pool n pending done) w) = Ok done' /\
      forall idx, In idx (map fst pending ++ map fst done) ->
                  exists r, future done' idx = Some r /\
                            Q idx r (t0 ++ trace (run h (pool n pending done) w)).
Proof.
  intros Hmono.
  induction n as [ | n IH]; intros pending done w t0 Hlen Hnd Htasks Hdone.
  - destruct pending; [|discriminate]. cbn [pool run outcome trace fst snd].
    exists done. split; [reflexivity|]. cbn [map app]. intros idx Hin.
    destruct (future_member R done idx Hin) as (r & Hf & Hm).
    exists r. split; [exact Hf|].
    apply (Hmono idx r t0); [apply incl_appl, incl_refl | exact (Hdone idx r Hm)].
  - destruct pending as [ | x0 l]; [discriminate|].
    cbn [pool]. rewrite run_bind, run_call.
    destruct (h (Pick (length (x0 :: l))) w) as [i w1]. cbn [fst snd].
    pose proof (extract_perm i x0 l) as Hperm.
    destruct (extract i x0 l) as [[zi zt] rest]. cbn [fst snd] in *.
    rewrite run_bind, run_catch.
    pose proof (Htasks zi zt w1
                  (Permutation_in _ (Permutation_sym Hperm) (or_introl eq_refl)))
      as Hz.
    destruct (run h zt w1) as [[r w2] t]. cbn [outcome trace fst snd] in Hz.
    assert (Hp : Permutation (map fst (x0 :: l) ++ map fst done)
                             (map fst rest ++ map fst ((zi, r) :: done))).
    { cbn [map fst]. apply Permutation_trans with ((zi :: map fst rest) ++ map fst done).
      - apply Permutation_app_tail. exact (Permutation_map fst Hperm).
      - apply Permutation_middle. }
    set (pick := Event (Pick (length (x0 :: l))) i) in *.
    destruct (IH rest ((zi, r) :: done) w2 (t0 ++ pick :: t))
      as (done' & Hout & Hfut).
    + pose proof (Permutation_length Hperm) as Hl. cbn [length] in Hl, Hlen. lia.
    + exact (Permutation_NoDup Hp Hnd).
    + intros idx t' w' Hin. apply Htasks.
      apply (Permutation_in _ (Permutation_sym Hperm)). right. exact Hin.
    + intros idx r' [[= <- <-] | Hin].
      * apply (Hmono zi r t); [|exact Hz].
        apply incl_appr, incl_tl, incl_refl.
      * apply (Hmono idx r' t0); [apply incl_appl, incl_refl | auto].
    + destruct (run h (pool n rest ((zi, r) :: done)) w2) as [[res w3] t'].
      cbn [outcome trace fst snd] in Hout, Hfut. subst res.
      exists done'. split; [reflexivity|].
      intros idx Hin. destruct (Hfut idx (Permutation_in _ Hp Hin)) as (r' & Hf & Hq).
      exists r'. split; [exact Hf|]. cbn [outcome trace fst snd app].
      rewrite <- app_assoc in Hq. exact Hq.
Qed.

Lemma run_submit_all_sound (R : Type) (tasks : list (prog DF R))
      (Q : nat -> result R -> list (event DF) -> Prop) (w : W) :
  (forall idx r t t', incl t t' -> Q idx r t -> Q idx r t') ->
  (forall idx t w', nth_error tasks idx = Some t ->
                    Q idx (outcome (run h t w')) (trace (run h t w'))) ->
  exists rs,
    run h (submit_all tasks) w
    = (Ok rs, final (run h (submit_all tasks) w), trace (run h (submit_all tasks) w)) /\
    Forall2 (fun idx r => Q idx r (trace (run h (submit_all tasks) w)))
            (seq 0 (length tasks)) rs.
Proof.
  intros Hmono Htasks. unfold submit_all. rewrite run_bind.
  destruct (run_pool_sound R Q (length tasks) Hmono (enumerate tasks) [] w [])
    as (done' & Hout & Hfut).
  - apply enumerate_length.
  - cbn [map]. rewrite app_nil_r, enumerate_fst. apply seq_NoDup.
  - intros idx t w' Hin. apply Htasks. apply enumerate_member. exact Hin.
  - intros idx r [].
  - destruct (run h (pool (length tasks) (enumerate tasks) []) w) as [[res w1] t1].
    cbn [outcome trace fst snd app] in Hout, Hfut. subst res.
    cbn [run outcome final trace fst snd]. rewrite app_nil_r.
    eexists. split; [reflexivity|].
    cbn [map] in Hfut. rewrite app_nil_r, enumerate_fst in Hfut.
    induction (seq 0 (length tasks)) as [ | idx idxs IH]; cbn [flat_map];
      [constructor|].
    destruct (Hfut idx (or_introl eq_refl)) as (r & Hf & Hq). rewrite Hf.
    cbn [app]. constructor; [exact Hq|].
    apply IH. intros idx' Hin. apply Hfut. right. exact Hin.
Qed.

Section PerItemSound.

Context {A R : Type} (f : A -> prog DF R) (items : list A)
        (Qv : A -> R -> list (event DF) -> Prop).

Hypothesis grows : forall x v t t', incl t t' -> Qv x v t -> Qv x v t'.

Hypothesis run_item_sound :
  forall x w', In x items ->
               exists v, outcome (run h (f x) w') = Ok v /\
                         Qv x v (trace (run h (f x) w')).

(** When no item can make the operation raise, [executor.map] returns one
    value per item, in the order of the items, each the value of a run of
    its item's task inside this run. *)
Lemma run_executor_map_sound (w : W) :
  exists vs,
    outcome (run h (executor_map f items) w) = Ok vs /\
    Forall2 (fun x v => Qv x v (trace (run h (executor_map f items) w))) items vs.
Proof.
  unfold executor_map. rewrite run_bind.
  set (P := fun (o : option A) (r : result R) (t : list (event DF)) =>
              match o with
              | Some x => exists v, r = Ok v /\ Qv x v t
              | None => True
              end).
  destruct (run_submit_all_sound R (map f items)
              (fun idx r t => P (nth_error items idx) r t) w) as (rs & Hrun & Hall).
  - intros idx r t t' Hincl. unfold P.
    destruct (nth_error items idx) as [x | ]; [|auto].
    intros (v & Hv & Hq). exists v. split; [exact Hv|].
    exact (grows x v t t' Hincl Hq).
  - intros idx t w' Hnth. rewrite nth_error_map in Hnth.
    destruct (nth_error items idx) as [x | ] eqn:E; [|discriminate].
    injection Hnth as <-. cbn.
    destruct (run_item_sound x w' (nth_error_In _ _ E)) as (v & Hv & Hq).
    exists v. auto.
  - rewrite length_map in Hall. rewrite Hrun. rewrite run_results.
    set (T := trace (run h (submit_all (map f items)) w)) in *.
    apply (Forall2_seq_items (fun o r => P o r T)) in Hall.
    destruct (collect_sound (fun x v => Qv x v T) items rs Hall) as (vs & Hc & Hvs).
    rewrite Hc. cbn [outcome trace fst snd]. rewrite app_nil_r.
    exists vs. split; [reflexivity | exact Hvs].
Qed.

(** The same of the list comprehension. *)
Lemma run_for_list_sound (w : W) :
  exists vs,
    outcome (run h (for_list f items) w) = Ok vs /\
    Forall2 (fun x v => Qv x v (trace (run h (for_list f items) w))) items vs.
Proof.
  revert w run_item_sound.
  induction items as [ | x xs IH]; intros w Hitem; cbn [for_list].
  - exists []. split; [reflexivity | constructor].
  - rewrite run_bind.
    destruct (Hitem x w (or_introl eq_refl)) as (v & Hv & Hq).
    destruct (run h (f x) w) as [[r w1] t1]. cbn [outcome trace fst snd] in Hv, Hq.
    subst r. rewrite run_bind.
    destruct (IH w1) as (vs & Hvs & Hall);
      [intros x' w' Hin; apply Hitem; right; exact Hin|].
    destruct (run h (for_list f xs) w1) as [[r w2] t2].
    cbn [outcome trace fst snd] in Hvs, Hall. subst r.
    cbn [run outcome trace fst snd]. rewrite app_nil_r.
    exists (v :: vs). split; [reflexivity|]. constructor.
    + apply (grows x v t1); [apply incl_appl, incl_refl | exact Hq].
    + apply Forall2_impl with (R1 := fun x v => Qv x v t2); [|exact Hall].
      intros a b. apply grows. apply incl_appr, incl_refl.
Qed.

End PerItemSound.

End BatchSound.

(** ** Describing and sizing objects that may be missing *)

Lemma dict_set_names {V : Type} (d : list (string * V)) (k : string) (v : V) :
  map fst (dict_set d k v)
  = if existsb (String.eqb k) (map fst d) then map fst d else map fst d ++ [k].
Proof.
  induction d as [ | [k' v'] d IH]; cbn [dict_set map fst existsb]; [reflexivity|].
  rewrite (String.eqb_sym k k').
  destruct (String.eqb k' k); cbn [map fst orb]; [reflexivity|].
  rewrite IH. destruct (existsb (String.eqb k) (map fst d)); reflexivity.
Qed.

Lemma dict_set_member {V : Type} (d : list (string * V)) (k : string) (v : V)
      (x : string * V) :
  In x (dict_set d k v) -> x = (k, v) \/ In x d.
Proof.
  induction d as [ | [k' v'] d IH]; cbn [dict_set In].
  - intros [<- | []]. auto.
  - destruct (String.eqb_spec k' k) as [-> | Hne]; cbn [In].
    + intros [<- | Hin]; auto.
    + intros [<- | Hin]; [auto|]. destruct (IH Hin); auto.
Qed.

(** [dict(items)] has the keys of the items, each once, in the order of
    their first occurrence, and every entry of it is one of the items. *)
Lemma dict_spec {V : Type} (items : list (string * V)) :
  map fst (dict items) = distinct (map fst items) /\
  forall x, In x (dict items) -> In x items.
Proof.
  unfold dict, distinct.
  assert (H : forall d,
             map fst (fold_left (fun d kv => dict_set d (fst kv) (snd kv)) items d)
             = fold_left (fun acc k => if existsb (String.eqb k) acc then acc
                                       else acc ++ [k]) (map fst items) (map fst d) /\
             forall x, In x (fold_left (fun d kv => dict_set d (fst kv) (snd kv)) items d) ->
                       In x d \/ In x items).
  { induction items as [ | [k v] items IH]; intros d; cbn [fold_left map fst snd].
    - auto.
    - destruct (IH (dict_set d k v)) as [Hn Hin]. split.
      + rewrite Hn, dict_set_names. reflexivity.
      + intros x Hx. destruct (Hin x Hx) as [Hd | Hi]; [|right; right; exact Hi].
        destruct (dict_set_member d k v x Hd) as [-> | Hd']; [right; left|left]; auto. }
  destruct (H []) as [Hn Hin]. split; [exact Hn|].
  intros x Hx. destruct (Hin x Hx) as [[] | Hi]. exact Hi.
Qed.

Section Tolerant.

Context {DF : Type} {utils : Utils} {W : Type} (h : handler DF W).

(** The store finds an object or answers 404, nothing else. *)
Hypothesis only_not_found :
  forall b k w, match fst (h (HeadObject b k) w) with
                | Ok _ => True
                | Err e => e = ClientError 404
                end.

Lemma describe_loop_tolerant (bucket key : string) (i : nat) (w : W) :
  let r := run h (describe_loop bucket key i) w in
  exists desc,
    outcome r = Ok desc /\
    (desc = [] \/ In (Event (HeadObject bucket key) (Ok desc)) (trace r)).
Proof.
  cbv zeta. revert w. induction i as [ | i IH]; intros w.
  - exists []. split; [reflexivity | left; reflexivity].
  - cbn [describe_loop]. rewrite run_bind, run_call.
    pose proof (only_not_found bucket key w) as Hw.
    destruct (h (HeadObject bucket key) w) as [a w1] eqn:E. cbn [fst snd] in *.
    destruct a as [desc | e].
    + exists desc. split; [reflexivity|]. right. left. reflexivity.
    + subst e. cbn [Z.eqb Pos.eqb]. destruct (Nat.eqb (S i) 1).
      * exists []. split; [reflexivity | left; reflexivity].
      * rewrite run_bind, run_call. destruct (h (Sleep 1) w1) as [[] w2].
        cbn [fst snd]. destruct (IH w2) as (desc & Hd & Hor).
        destruct (run h (describe_loop bucket key i) w2) as [[res w3] t].
        cbn [outcome trace fst snd] in Hd, Hor. subst res.
        exists desc. split; [reflexivity|].
        destruct Hor as [-> | Hin]; [left; reflexivity|].
        right. cbn [trace snd app]. right. right. exact Hin.
Qed.

Lemma finite_tries (wait_time : option number) :
  finite wait_time -> exists tries, tries_of wait_time = Ok tries.
Proof.
  destruct wait_time as [[z | q | negative | ] | ]; cbn [finite];
    try contradiction; intros _; eexists; reflexivity.
Qed.

Lemma describe_object_tolerant (wait_time : option number) (p : string) (w : W) :
  finite wait_time ->
  (exists bk, parse_path p = Ok bk) ->
  let r := run h (_describe_object p wait_time) w in
  exists v, outcome r = Ok v /\ described (trace r) p v.
Proof.
  intros Hfinite ([b k] & Hp). cbv zeta. unfold _describe_object.
  destruct (finite_tries wait_time Hfinite) as (tries & Htries).
  rewrite run_bind, run_lift, Htries. cbv iota.
  rewrite run_bind, run_lift, Hp. cbv iota. rewrite run_bind.
  destruct (describe_loop_tolerant b k (Z.to_nat tries) w) as (desc & Hd & Hor).
  destruct (run h (describe_loop b k (Z.to_nat tries)) w) as [[res w1] t].
  cbn [outcome trace fst snd] in Hd, Hor. subst res.
  exists (p, desc). cbn [run outcome trace fst snd app]. rewrite app_nil_r.
  split; [reflexivity|]. split; [reflexivity|]. cbn [snd].
  destruct Hor as [-> | Hin]; [left; reflexivity|].
  right. exists b, k. auto.
Qed.

Lemma described_grows (p : string) (v : string * attributes)
      (t t' : list (event DF)) :
  incl t t' -> described t p v -> described t' p v.
Proof.
  intros Hincl [Hp [Hnil | (b & k & Hbk & Hin)]]; (split; [exact Hp|]).
  - left. exact Hnil.
  - right. exists b, k. split; [exact Hbk | exact (Hincl _ Hin)].
Qed.

Lemma run_describe_objects_tolerant (w : W) (paths : list string)
      (wait_time : option number) (use_threads : bool) :
  finite wait_time ->
  Forall (fun p => exists bk, parse_path p = Ok bk) paths ->
  let r := run h (describe_objects (PList paths) wait_time use_threads) w in
  exists descs,
    outcome r = Ok descs /\
    map fst descs = distinct paths /\
    forall p desc,
      In (p, desc) descs ->
      desc = [] \/
      exists b k, parse_path p = Ok (b, k) /\
                  In (Event (HeadObject b k) (Ok desc)) (trace r).
Proof.
  intros Hfinite Hparse. cbv zeta. rewrite Forall_forall in Hparse.
  unfold describe_objects. cbn [_path2list]. rewrite run_bind. cbn [run].
  destruct paths as [ | p0 paths].
  - exists []. cbn. repeat split. intros p desc [].
  - cbn [length Nat.ltb Nat.leb]. set (ps := p0 :: paths) in *.
    set (batch := if negb use_threads
                  then for_list (fun p => _describe_object p wait_time) ps
                  else executor_map (fun p => _describe_object p wait_time) ps).
    assert (Hbatch : exists vs,
               outcome (run h batch w) = Ok vs /\
               Forall2 (described (trace (run h batch w))) ps vs).
    { subst batch. destruct use_threads; cbn [negb].
      - apply (run_executor_map_sound h (fun p => _describe_object p wait_time) ps
                 (fun p v t => described t p v)).
        + intros x v t t'. apply described_grows.
        + intros x w' Hin. apply describe_object_tolerant; [exact Hfinite|].
          apply Hparse. exact Hin.
      - apply (run_for_list_sound h (fun p => _describe_object p wait_time) ps
                 (fun p v t => described t p v)).
        + intros x v t t'. apply described_grows.
        + intros x w' Hin. apply describe_object_tolerant; [exact Hfinite|].
          apply Hparse. exact Hin. }
    destruct Hbatch as (vs & Hout & Hall). rewrite run_bind.
    destruct (run h batch w) as [[res w1] t1].
    cbn [outcome trace fst snd] in Hout, Hall. subst res.
    cbn [run outcome trace fst snd app]. rewrite !app_nil_r.
    exists (dict vs). split; [reflexivity|].
    destruct (dict_spec vs) as [Hnames Hmem].
    assert (Hfst : map fst vs = ps).
    { clear - Hall. induction Hall as [ | x v xs vs' [Hx _] _ IH]; [reflexivity|].
      cbn [map]. rewrite Hx, IH. reflexivity. }
    split; [rewrite Hnames, Hfst; reflexivity|].
    intros p desc Hin. apply Hmem in Hin.
    destruct (Forall2_member_right _ _ _ _ Hall Hin) as (x & _ & [Hx Hor]).
    cbn [fst snd] in Hx, Hor. subst x. exact Hor.
Qed.

(** X5: when the store answers a point lookup with attributes or with
    404 and nothing else, the waiting time is None, an integer or a
    finite float, and the locators parse, [describe_objects] raises
    nothing, with or without threads: it returns one entry per distinct
    locator, in the order of first occurrence, whose attributes are empty
    or the answer the store gave, in this run, to a lookup of that
    locator. *)
Theorem describe_objects_tolerates_missing (w : W) (paths : list string)
        (wait_time : option number) (use_threads : bool) :
  finite wait_time ->
  Forall (fun p => exists bk, parse_path p = Ok bk) paths ->
  let r := run h (describe_objects (PList paths) wait_time use_threads) w in
  exists descs,
    outcome r = Ok descs /\
    map fst descs = distinct paths /\
    forall p desc,
      In (p, desc) descs ->
      desc = [] \/
      exists b k, parse_path p = Ok (b, k) /\
                  In (Event (HeadObject b k) (Ok desc)) (trace r).
Proof. apply run_describe_objects_tolerant. Qed.

Lemma attribute_member (d : attributes) (key s : string) :
  attribute d key = Some s -> In (key, s) d.
Proof.
  induction d as [ | [k v] d IH]; cbn [attribute]; [discriminate|].
  destruct (String.eqb_spec k key) as [-> | Hne].
  - intros [= ->]. left. reflexivity.
  - intros H. right. exact (IH H).
Qed.

(** X6: under the same conditions [size_objects] returns one entry per
    distinct locator, and a size it reports is the ContentLength of
    attributes the store gave, in this run, to a lookup of that locator;
    so the size of an object that no lookup of the run has found is
    None. *)
Theorem size_objects_of_missing (w : W) (paths : list string)
        (wait_time : option number) (use_threads : bool) :
  finite wait_time ->
  Forall (fun p => exists bk, parse_path p = Ok bk) paths ->
  let r := run h (size_objects (PList paths) wait_time use_threads) w in
  exists sizes,
    outcome r = Ok sizes /\
    map fst sizes = distinct paths /\
    forall p size b k,
      In (p, size) sizes -> parse_path p = Ok (b, k) ->
      (forall s, size = Some s ->
                 exists desc, In (Event (HeadObject b k) (Ok desc)) (trace r) /\
                              In ("ContentLength", s) desc) /\
      ((forall desc, ~ In (Event (HeadObject b k) (Ok desc)) (trace r)) ->
       size = None).
Proof.
  intros Hfinite Hparse. cbv zeta.
  destruct (run_describe_objects_tolerant w paths wait_time use_threads Hfinite Hparse)
    as (descs & Hout & Hnames & Hdesc).
  unfold size_objects. rewrite run_bind.
  destruct (run h (describe_objects (PList paths) wait_time use_threads) w)
    as [[res w1] t1].
  cbn [outcome trace fst snd] in Hout, Hdesc. subst res.
  cbn [run outcome trace fst snd]. rewrite app_nil_r.
  exists (sizes_of descs). split; [reflexivity|]. split.
  - unfold sizes_of. rewrite map_map. cbn [fst]. exact Hnames.
  - intros p size b k Hin Hp. unfold sizes_of in Hin. apply in_map_iff in Hin.
    destruct Hin as ([p' desc] & [= -> <-] & Hin). cbn [snd].
    assert (Hsome : forall s, attribute desc "ContentLength" = Some s ->
                exists desc', In (Event (HeadObject b k) (Ok desc')) t1 /\
                              In ("ContentLength", s) desc').
    { intros s Hs. destruct (Hdesc p desc Hin) as [-> | (b' & k' & Hp' & Hev)].
      - discriminate Hs.
      - rewrite Hp in Hp'. injection Hp' as <- <-.
        exists desc. split; [exact Hev | exact (attribute_member _ _ _ Hs)]. }
    split; [exact Hsome|].
    intros Hnever. destruct (attribute desc "ContentLength") as [s | ] eqn:E;
      [|reflexivity].
    destruct (Hsome s eq_refl) as (desc' & Hev & _). exfalso. exact (Hnever desc' Hev).
Qed.

End Tolerant.

Lemma serve_only_not_found (b k : string) (w : Reference.s3) :
  match fst (Reference.serve (HeadObject b k) w) with
  | Ok _ => True
  | Err e => e = ClientError 404
  end.
Proof. cbn. destruct (Reference.find_object b k w); [exact I | reflexivity]. Qed.

Lemma describe_objects_tolerates_missing_witness :
  let r := run Reference.serve
               (describe_objects (PList ["s3://bucket/prefix/old0.parquet";
                                         "s3://bucket/missing";
                                         "s3://bucket/prefix/old0.parquet"])
                                 (Some (PyFloat (5 # 2))) true)
               Reference.dataset_store in
  outcome r = Ok [("s3://bucket/prefix/old0.parquet", [("ContentLength", "3")]);
                  ("s3://bucket/missing", [])] /\
  exists descs,
    outcome r = Ok descs /\
    map fst descs = distinct ["s3://bucket/prefix/old0.parquet";
                              "s3://bucket/missing";
                              "s3://bucket/prefix/old0.parquet"] /\
    forall p desc,
      In (p, desc) descs ->
      desc = [] \/
      exists b k, parse_path p = Ok (b, k) /\
                  In (Event (HeadObject b k) (Ok desc)) (trace r).
Proof.
  cbv zeta. split; [reflexivity|].
  apply (describe_objects_tolerates_missing Reference.serve serve_only_not_found).
  - exact I.
  - repeat constructor; eexists; reflexivity.
Defined.

Lemma size_objects_of_missing_witness :
  let r := run Reference.serve
               (size_objects (PList ["s3://bucket/prefix/old0.parquet";
                                     "s3://bucket/missing"]) None false)
               Reference.dataset_store in
  (forall desc, ~ In (Event (HeadObject "bucket" "missing") (Ok desc)) (trace r)) /\
  exists sizes,
    outcome r = Ok sizes /\
    map fst sizes = distinct ["s3://bucket/prefix/old0.parquet"; "s3://bucket/missing"] /\
    forall p size b k,
      In (p, size) sizes -> parse_path p = Ok (b, k) ->
      (forall s, size = Some s ->
                 exists desc, In (Event (HeadObject b k) (Ok desc)) (trace r) /\
                              In ("ContentLength", s) desc) /\
      ((forall desc, ~ In (Event (HeadObject b k) (Ok desc)) (trace r)) ->
       size = None).
Proof.
  cbv zeta. split.
  - intros desc [H | [H | []]];
      [apply (f_equal ev_request) in H
      | apply (f_equal (fun ev => head_answers [ev])) in H];
      discriminate H.
  - apply (size_objects_of_missing Reference.serve serve_only_not_found).
    + exact I.
    + repeat constructor; eexists; reflexivity.
Defined.

(** The sizes of an object that is there and of one that is not. *)
Example size_objects_example :
  outcome (run Reference.serve
               (size_objects (PList ["s3://bucket/prefix/old0.parquet";
                                     "s3://bucket/missing"]) None false)
               Reference.dataset_store)
  = Ok [("s3://bucket/prefix/old0.parquet", Some "3"); ("s3://bucket/missing", None)].
Proof. reflexivity. Qed.

(** ** Reading delimited files *)

Section ReadCsv.

Context {DF : Type} {engine : DataFrameEngine DF} {utils : Utils}.
Context {W : Type} (h : handler DF W).

Lemma run_read_one (path : string) (pandas_args : kwargs) (w : W) :
  run h (_read_csv path pandas_args) w
  = (fst (h (ReadCsv path pandas_args) w), snd (h (ReadCsv path pandas_args) w),
     [Event (ReadCsv path pandas_args) (fst (h (ReadCsv path pandas_args) w))]).
Proof.
  unfold _read_csv. rewrite run_bind, run_call, run_lift.
  rewrite app_nil_r. reflexivity.
Qed.

Lemma read_answers_read (path : string) (kw : kwargs) (a : result DF)
      (t : list (event DF)) :
  read_answers (Event (ReadCsv path kw) a :: t) = a :: read_answers t.
Proof. reflexivity. Qed.

(** The list comprehension of [read_csv]: the files are read in order, up
    to the first read that fails. *)
Lemma run_read_loop (kw : kwargs) (paths : list string) (w : W) :
  let r := run h (for_list (fun p => _read_csv p kw) paths) w in
  exists n,
    (n <= length paths)%nat /\
    requests (trace r) = map (fun p => ReadCsv p kw) (firstn n paths) /\
    ((exists frames,
         read_answers (trace r) = map Ok frames /\
         n = length paths /\ outcome r = Ok frames) \/
     (exists frames e,
         read_answers (trace r) = map Ok frames ++ [Err e] /\
         n = S (length frames) /\ outcome r = Err e)).
Proof.
  revert w. induction paths as [ | p paths IH]; intros w; cbv zeta.
  - exists 0%nat. cbn. split; [lia|]. split; [reflexivity|].
    left. exists []. auto.
  - cbn [for_list]. rewrite run_bind, run_read_one.
    destruct (h (ReadCsv p kw) w) as [a w1]. cbn [fst snd].
    destruct a as [df | e].
    + rewrite run_bind. specialize (IH w1). cbv zeta in IH.
      destruct (run h (for_list (fun p0 => _read_csv p0 kw) paths) w1)
        as [[res w2] t].
      cbn [outcome trace fst snd] in IH.
      destruct IH as (n & Hn & Hreq & Hcase).
      exists (S n). split; [cbn [length]; lia|].
      destruct res as [frames0 | e0];
        cbn [run outcome trace fst snd app]; rewrite ?app_nil_r;
        cbn [requests map ev_request firstn]; fold (requests t);
        rewrite read_answers_read, Hreq; (split; [reflexivity|]).
      * destruct Hcase as [(frames & Ha & -> & [= ->]) | (frames & e & _ & _ & He)];
          [|discriminate He].
        left. exists (df :: frames). rewrite Ha. auto.
      * destruct Hcase as [(frames & _ & _ & He) | (frames & e & Ha & -> & [= ->])];
          [discriminate He|].
        right. exists (df :: frames), e. rewrite Ha. auto.
    + exists 1%nat. cbn [length]. split; [lia|].
      cbn [outcome trace fst snd requests map ev_request firstn].
      split; [reflexivity|]. right. exists [], e. auto.
Qed.

(** X7: without threads [read_csv] reads the files in the order of the
    locators and stops at the first read that fails: the requests are the
    reads of the first [n] locators; either all of them succeeded, every
    locator was read and the result is the concatenation of what was
    read, in order, or the last of them failed and its exception is
    raised, no later file being read. *)
Theorem read_csv_sequential (w : W) (paths : list string) (pandas_kwargs : kwargs) :
  let r := run h (read_csv (PList paths) false pandas_kwargs) w in
  exists n,
    (n <= length paths)%nat /\
    requests (trace r) = map (fun p => ReadCsv p pandas_kwargs) (firstn n paths) /\
    ((exists frames,
         read_answers (trace r) = map Ok frames /\
         n = length paths /\ outcome r = concat frames) \/
     (exists frames e,
         read_answers (trace r) = map Ok frames ++ [Err e] /\
         n = S (length frames) /\ outcome r = Err e)).
Proof.
  cbv zeta. unfold read_csv. cbn [_path2list negb]. rewrite run_bind. cbn [run].
  rewrite run_bind.
  destruct (run_read_loop pandas_kwargs paths w) as (n & Hn & Hreq & Hcase).
  destruct (run h (for_list (fun p => _read_csv p pandas_kwargs) paths) w)
    as [[res w1] t].
  cbn [outcome trace fst snd] in *.
  exists n. split; [exact Hn|].
  destruct res as [frames0 | e0]; rewrite ?run_lift;
    cbn [outcome trace fst snd app]; rewrite ?app_nil_r; (split; [exact Hreq|]).
  - destruct Hcase as [(frames & Ha & Hlen & [= ->]) | (frames & e & _ & _ & He)];
      [|discriminate He].
    left. exists frames. auto.
  - destruct Hcase as [(frames & _ & _ & He) | (frames & e & Ha & Hlen & [= ->])];
      [discriminate He|].
    right. exists frames, e. auto.
Qed.

(** X8: when the argument resolves to no locator at all, [describe_objects]
    and [size_objects] return the empty dictionary and [read_csv] hands
    the dataframe engine an empty list to concatenate; with or without
    threads, none of them makes a request beyond the resolution. *)
Theorem nothing_to_process (w w1 : W) (path : path_arg) (t1 : list (event DF))
        (wait_time : option number) (use_threads : bool) (pandas_kwargs : kwargs) :
  run h (_path2list path) w = (Ok [], w1, t1) ->
  run h (describe_objects path wait_time use_threads) w = (Ok [], w1, t1) /\
  run h (size_objects path wait_time use_threads) w = (Ok [], w1, t1) /\
  run h (read_csv path use_threads pandas_kwargs) w = (concat [], w1, t1).
Proof.
  intros Hres.
  assert (Hd : run h (describe_objects path wait_time use_threads) w = (Ok [], w1, t1)).
  { unfold describe_objects. rewrite run_bind, Hres. cbn. rewrite app_nil_r.
    reflexivity. }
  split; [exact Hd|]. split.
  - unfold size_objects. rewrite run_bind, Hd. cbn. rewrite app_nil_r. reflexivity.
  - unfold read_csv. rewrite run_bind, Hres.
    destruct use_threads; cbn [negb]; rewrite run_bind; cbn; rewrite run_lift;
      cbn; rewrite app_nil_r; reflexivity.
Qed.

End ReadCsv.

Lemma nothing_to_process_witness :
  run Reference.serve (read_csv (PStr "s3://bucket/nothing/") true [])
      Reference.dataset_store
  = (Err ValueError, Reference.dataset_store,
     [Event (Paginate "bucket" "nothing/" 1000) (Ok [])]).
Proof.
  destruct (nothing_to_process Reference.serve Reference.dataset_store
              Reference.dataset_store (PStr "s3://bucket/nothing/")
              [Event (Paginate "bucket" "nothing/" 1000) (Ok [])] None true [])
    as (_ & _ & Hread); [reflexivity|].
  exact Hread.
Defined.

(** ** A dataset write that fails after its cleanup *)

Section DatasetFailure.

Context {DF : Type} {engine : DataFrameEngine DF} {utils : Utils}.
Context {W : Type} (h : handler DF W).

(** X9: in mode "overwrite", a partition column the dataframe engine
    refuses is noticed after the cleanup only: the run is the run of the
    delete of the whole prefix, request for request and state for state;
    no file is written, and the engine's exception is raised once the
    delete has returned. *)
Theorem overwrite_deletes_before_grouping (w : W) (df : DF) (path dir : string)
        (index : bool) (compression : option string) (ext : string)
        (use_threads : bool) (c : string) (cols : list string) (e : exn) :
  get _COMPRESSION_2_EXT compression = Some ext ->
  with_slash path = Ok dir ->
  groupby df (c :: cols) = Err e ->
  let r := run h (to_parquet df path index compression use_threads true
                             (Some (c :: cols)) (Some "overwrite")) w in
  let cleanup := run h (delete_objects (PStr dir) use_threads) w in
  trace r = trace cleanup /\
  final r = final cleanup /\
  write_requests (trace r) = [] /\
  (outcome cleanup = Ok tt -> outcome r = Err e) /\
  (forall e', outcome cleanup = Err e' -> outcome r = Err e').
Proof.
  intros Hext Hdir Hgroup. cbv zeta. unfold to_parquet. rewrite Hext. cbn [negb].
  unfold _to_parquet_dataset. rewrite run_bind, run_lift, Hdir. cbv iota.
  change (mode_in "overwrite" ["append"; "overwrite"; "partitions_upsert"]) with true.
  change ("overwrite" =? "overwrite")%string with true.
  cbn [negb orb truthy_cols cols_of]. rewrite run_bind.
  destruct (run_delete_prefix h use_threads dir w) as (Hkind & _).
  apply cleanup_no_write in Hkind. destruct Hkind as [Hnw _].
  destruct (run h (delete_objects (PStr dir) use_threads) w) as [[res w1] tc].
  cbn [trace snd] in Hnw.
  destruct res as [[] | e'].
  - rewrite run_bind, run_lift, Hgroup. cbn. rewrite app_nil_r.
    repeat split; try exact Hnw. discriminate.
  - cbn. repeat split; try exact Hnw; congruence.
Qed.

End DatasetFailure.

Lemma overwrite_deletes_before_grouping_witness :
  let r := run Reference.serve
               (to_parquet Reference.example_df "s3://bucket/prefix" false None false
                           true (Some ["region"]) (Some "overwrite"))
               Reference.dataset_store in
  outcome r = Err (OtherError "KeyError") /\
  map fst (Reference.objects (final r)) = [("bucket", "elsewhere/file.parquet")].
Proof.
  destruct (overwrite_deletes_before_grouping Reference.serve Reference.dataset_store
              Reference.example_df "s3://bucket/prefix" "s3://bucket/prefix/" false
              None "" false "region" [] (OtherError "KeyError"))
    as (_ & Hfinal & _ & Hok & _); try reflexivity.
  cbv zeta. split; [apply Hok; reflexivity|].
  rewrite Hfinal. reflexivity.
Defined.

(** ** Cleanup first, files after *)

Section DatasetPhases.

Context {DF : Type} {engine : DataFrameEngine DF} {utils : Utils}.
Context {W : Type} (h : handler DF W).

(** X10: unless the mode is the upsert mode with partition columns, the
    requests of a dataset write come in two phases: listing and bulk
    deletes first, then names and files; once the first name is drawn
    nothing is listed or deleted any more, so a write that fails leaves
    the files written before it where they are. *)
Theorem dataset_write_phases (w : W) (df : DF) (path : string) (index : bool)
        (compression : option string) (use_threads : bool)
        (partition_cols : option (list string)) (mode : option string) :
  (mode = Some "partitions_upsert" ->
   partition_cols = None \/ partition_cols = Some []) ->
  let r := run h (to_parquet df path index compression use_threads true
                             partition_cols mode) w in
  exists cleanup files,
    trace r = cleanup ++ files /\
    Forall (fun q => is_cleanup q = true) (requests cleanup) /\
    Forall (fun q => is_cleanup q = false) (requests files).
Proof.
  intros Hmode. cbv zeta.
  assert (Hnone : exists cleanup files : list (event DF),
             [] = cleanup ++ files /\
             Forall (fun q => is_cleanup q = true) (requests cleanup) /\
             Forall (fun q => is_cleanup q = false) (requests files))
    by (exists [], []; repeat split; constructor).
  unfold to_parquet.
  destruct (get _COMPRESSION_2_EXT compression) as [ext | ]; [|exact Hnone].
  cbn [negb]. unfold _to_parquet_dataset. rewrite run_bind, run_lift.
  destruct (with_slash path) as [dir | e]; [|exact Hnone].
  set (m := match mode with None => "append" | Some m => m end) in *.
  destruct (mode_in m ["append"; "overwrite"; "partitions_upsert"]);
    [|exact Hnone].
  cbn [negb app]. rewrite run_bind.
  assert (Hkind : Forall (fun q => is_cleanup q = true)
                         (requests (trace (run h
                            (if (m =? "overwrite")%string
                                || ((m =? "partitions_upsert")%string
                                    && negb (truthy_cols partition_cols))
                             then delete_objects (PStr dir) use_threads
                             else Ret tt) w)))).
  { destruct ((m =? "overwrite")%string
              || ((m =? "partitions_upsert")%string
                  && negb (truthy_cols partition_cols))).
    - apply run_delete_prefix.
    - constructor. }
  match type of Hkind with
  | context [run h ?p w] => destruct (run h p w) as [[res w1] tc]
  end.
  cbn [trace snd] in Hkind.
  destruct res as [[] | e].
  2:{ exists tc, []. rewrite app_nil_r. repeat split; [exact Hkind | constructor]. }
  assert (Hfiles : Forall (fun q => is_cleanup q = false)
                     (requests (trace (run h
                        (if negb (truthy_cols partition_cols)
                         then
                           hex <- call Uuid4 ;;
                           _to_parquet_file df (dir ++ hex ++ ext ++ ".parquet")%string
                                            index compression ;;
                           Ret [(dir ++ hex ++ ext ++ ".parquet")%string]
                         else
                           groups <- lift (groupby df (cols_of partition_cols)) ;;
                           write_groups dir index compression ext use_threads m
                                        (cols_of partition_cols) groups) w1)))).
  { destruct (truthy_cols partition_cols) eqn:Hcols; cbn [negb].
    - apply run_bind_requests; [apply run_lift_requests|]. intros groups w2.
      apply write_groups_no_cleanup.
      destruct (String.eqb_spec m "partitions_upsert") as [Hm | ]; [|reflexivity].
      exfalso. destruct mode as [m' | ]; [|discriminate Hm].
      subst m. subst m'.
      destruct (Hmode eq_refl) as [-> | ->]; discriminate Hcols.
    - apply run_bind_requests; [apply run_call_requests; reflexivity|]. intros hex w2.
      apply run_bind_requests.
      { rewrite run_to_parquet_file. constructor; [reflexivity | constructor]. }
      intros _ w3. constructor. }
  match type of Hfiles with
  | context [run h ?p w1] => destruct (run h p w1) as [[res w2] tf]
  end.
  cbn [trace snd] in *. exists tc, tf. auto.
Qed.

End DatasetPhases.

Lemma dataset_write_phases_witness :
  let r := run Reference.serve
               (to_parquet Reference.example_df "s3://bucket/prefix" false None false
                           true (Some ["b"]) (Some "overwrite"))
               Reference.dataset_store in
  exists cleanup files,
    trace r = cleanup ++ files /\
    Forall (fun q => is_cleanup q = true) (requests cleanup) /\
    Forall (fun q => is_cleanup q = false) (requests files).
Proof.
  apply (dataset_write_phases Reference.serve Reference.dataset_store
           Reference.example_df "s3://bucket/prefix" false None false
           (Some ["b"]) (Some "overwrite")).
  discriminate.
Defined.

(** ** The upsert of partitions *)

Lemma app_eq_app_cons_cases {X : Type} (l1 l2 t1 t2 : list X) (x : X) :
  l1 ++ l2 = t1 ++ x :: t2 ->
  (exists t2', l1 = t1 ++ x :: t2') \/
  (exists t1', t1 = l1 ++ t1' /\ l2 = t1' ++ x :: t2).
Proof.
  revert t1. induction l1 as [ | a l1 IH]; intros t1 H.
  - right. exists t1. auto.
  - destruct t1 as [ | y t1]; cbn [app] in H; injection H as Ha H.
    + left. exists l1. rewrite Ha. reflexivity.
    + destruct (IH t1 H) as [(t2' & ->) | (t1' & -> & ->)].
      * left. exists t2'. rewrite Ha. reflexivity.
      * right. exists t1'. rewrite Ha. auto.
Qed.

Section Kinds.

Context {DF W : Type} (h : handler DF W) (P : request DF -> Prop).

Lemma run_for_each_requests (A : Type) (f : A -> prog DF unit) (items : list A)
      (w : W) :
  (forall x w', Forall P (requests (trace (run h (f x) w')))) ->
  Forall P (requests (trace (run h (for_each f items) w))).
Proof.
  intros Hf. revert w. induction items as [ | x items IH]; intros w.
  - constructor.
  - cbn [for_each]. apply run_bind_requests; [apply Hf|]. intros _ w1. apply IH.
Qed.

Lemma run_pool_requests (R : Type) (n : nat) :
  (forall m, P (Pick m)) ->
  forall (pending : list (nat * prog DF R)) (done : list (nat * result R)) (w : W),
    (forall idx t w', In (idx, t) pending -> Forall P (requests (trace (run h t w')))) ->
    Forall P (requests (trace (run h (pool n pending done) w))).
Proof.
  intros Hpick. induction n as [ | n IH]; intros pending done w Htasks.
  - destruct pending; constructor.
  - destruct pending as [ | x0 l]; [constructor|].
    cbn [pool]. apply run_bind_requests; [apply run_call_requests; apply Hpick|].
    intros i w1. pose proof (extract_perm i x0 l) as Hperm.
    destruct (extract i x0 l) as [[zi zt] rest]. cbn [fst snd] in *.
    apply run_bind_requests.
    + rewrite run_catch.
      pose proof (Htasks zi zt w1
                    (Permutation_in _ (Permutation_sym Hperm) (or_introl eq_refl)))
        as Hz.
      destruct (run h zt w1) as [[r w2] t]. exact Hz.
    + intros r w2. apply IH. intros idx t w' Hin. apply (Htasks idx).
      apply (Permutation_in _ (Permutation_sym Hperm)). right. exact Hin.
Qed.

Lemma run_submit_all_requests (R : Type) (tasks : list (prog DF R)) (w : W) :
  (forall m, P (Pick m)) ->
  (forall t w', In t tasks -> Forall P (requests (trace (run h t w')))) ->
  Forall P (requests (trace (run h (submit_all tasks) w))).
Proof.
  intros Hpick Htasks. unfold submit_all.
  apply run_bind_requests; [|intros done w1; constructor].
  apply run_pool_requests; [exact Hpick|].
  intros idx t w' Hin. apply Htasks.
  apply enumerate_member in Hin. exact (nth_error_In tasks idx Hin).
Qed.

End Kinds.

Section Upsert.

Context {DF : Type} {engine : DataFrameEngine DF} {utils : Utils}.
Context {W : Type} (h : handler DF W).

(** Once its argument is resolved, a delete lists nothing. *)
Lemma run_delete_paths_requests (use_threads : bool) (paths : list string) (w : W) :
  Forall (fun q => is_listing q = false)
         (requests (trace (run h (delete_paths use_threads paths) w))).
Proof.
  unfold delete_paths. destruct (length paths <? 1)%nat; [constructor|].
  apply run_bind_requests; [apply run_lift_requests|]. intros buckets w1.
  apply run_for_each_requests. intros [b keys] w2. unfold delete_bucket.
  assert (Hone : forall chunk w', Forall (fun q : request DF => is_listing q = false)
                                    (requests (trace (run h (_delete_objects b chunk) w')))).
  { intros chunk w'. rewrite run_delete_one. constructor; [reflexivity | constructor]. }
  destruct use_threads; cbn [negb].
  - apply run_bind_requests; [|intros x w3; constructor].
    apply run_submit_all_requests; [reflexivity|].
    intros t w' Hin. apply in_map_iff in Hin. destruct Hin as (chunk & <- & _).
    apply Hone.
  - apply run_for_each_requests. intros chunk w'. apply Hone.
Qed.

(** The one listing of the delete of a prefix is the listing of that
    prefix, by pages of 1000. *)
Lemma run_delete_prefix_listing (use_threads : bool) (path : string) (w : W)
      (ev : event DF) (b p : string) (size : Z) :
  In ev (trace (run h (delete_objects (PStr path) use_threads) w)) ->
  ev_request ev = Paginate b p size ->
  parse_path path = Ok (b, p) /\ size = 1000%Z.
Proof.
  unfold delete_objects. cbn [_path2list]. rewrite run_bind.
  destruct (parse_path path) as [[b0 p0] | e] eqn:Hparse.
  2:{ unfold list_objects. rewrite run_bind, run_lift, Hparse. intros []. }
  rewrite run_list_objects with (1 := Hparse).
  destruct (h (Paginate b0 p0 1000) w) as [a w1]. cbn [fst snd].
  assert (Hfirst : ev = Event (Paginate b0 p0 1000) a ->
                   ev_request ev = Paginate b p size ->
                   Ok (b0, p0) = Ok (b, p) /\ size = 1000%Z).
  { intros -> [= -> -> <-]. auto. }
  destruct a as [pages | e].
  - pose proof (run_delete_paths_requests use_threads
                  (flat_map (page_paths b0) pages) w1) as Hk.
    destruct (run h (delete_paths use_threads (flat_map (page_paths b0) pages)) w1)
      as [[res w2] t2].
    cbn [trace snd app] in *. intros [Hev | Hin] Hreq; [symmetry in Hev; auto|].
    rewrite Forall_forall in Hk. specialize (Hk _ (in_map _ _ _ Hin)).
    rewrite Hreq in Hk. discriminate Hk.
  - cbn [trace snd]. intros [Hev | []] Hreq. symmetry in Hev. auto.
Qed.

Lemma cleaned_within (t0 t t' : list (event DF)) (dir : string) :
  cleaned t dir -> cleaned (t0 ++ t ++ t') dir.
Proof.
  intros (bucket & prefix & pages & Hp & Hin & Hcover).
  exists bucket, prefix, pages. split; [exact Hp|]. split.
  - apply in_or_app. right. apply in_or_app. left. exact Hin.
  - intros p Hpin. destruct (Hcover p Hpin) as (b & k & keys & Hbk & Hd & Hk).
    exists b, k, keys. split; [exact Hbk|]. split; [|exact Hk].
    rewrite !delete_requests_app. apply in_or_app. right.
    apply in_or_app. left. exact Hd.
Qed.

(** The loop over the groups in the upsert mode: a file is written after
    the prefix of its own partition was listed and emptied, and nothing
    but prefixes of partitions is listed. *)
Lemma write_groups_upsert (dir : string) (index : bool) (compression : option string)
      (ext : string) (use_threads : bool) (cols : list string)
      (groups : list (group_key * DF)) :
  forall (w : W) (t1 : list (event DF)) (ev : event DF) (t2 : list (event DF)),
    trace (run h (write_groups dir index compression ext use_threads
                               "partitions_upsert" cols groups) w)
    = t1 ++ ev :: t2 ->
    (is_write (ev_request ev) = true ->
     exists keys sub frame hex,
       In (keys, sub) groups /\
       drop sub cols = Ok frame /\
       ev_request ev = WriteTable frame (group_path dir cols ext keys hex)
                                  index compression /\
       cleaned t1 (dir ++ subdir_of cols (as_tuple keys) ++ "/")%string) /\
    (forall b p size,
        ev_request ev = Paginate b p size ->
        size = 1000%Z /\
        exists keys sub,
          In (keys, sub) groups /\
          parse_path (dir ++ subdir_of cols (as_tuple keys) ++ "/")%string = Ok (b, p)).
Proof.
  induction groups as [ | [keys sub] groups IH]; intros w t1 ev t2 H.
  - cbn in H. destruct t1; discriminate H.
  - cbn [write_groups] in H. rewrite run_bind, run_lift in H.
    destruct (drop sub cols) as [frame | e] eqn:Hdrop;
      [|destruct t1; discriminate H].
    rewrite String.eqb_refl in H. cbn [app] in H. rewrite run_bind in H.
    set (part := (dir ++ subdir_of cols (as_tuple keys) ++ "/")%string) in *.
    pose proof (run_delete_prefix h use_threads part w) as Hclean. cbv zeta in Hclean.
    pose proof (run_delete_prefix_listing use_threads part w) as Hlisting.
    destruct (run h (delete_objects (PStr part) use_threads) w) as [[resc wc] tc].
    cbn [outcome trace fst snd] in Hclean, Hlisting.
    destruct Hclean as (Hkind & Hcleaned).
    (* an event of the cleanup of this partition *)
    assert (Hin_tc : In ev tc ->
              (is_write (ev_request ev) = true ->
               exists keys0 sub0 frame0 hex0,
                 In (keys0, sub0) ((keys, sub) :: groups) /\
                 drop sub0 cols = Ok frame0 /\
                 ev_request ev = WriteTable frame0 (group_path dir cols ext keys0 hex0)
                                            index compression /\
                 cleaned t1 (dir ++ subdir_of cols (as_tuple keys0) ++ "/")%string) /\
              (forall b p size,
                  ev_request ev = Paginate b p size ->
                  size = 1000%Z /\
                  exists keys0 sub0,
                    In (keys0, sub0) ((keys, sub) :: groups) /\
                    parse_path (dir ++ subdir_of cols (as_tuple keys0) ++ "/")%string
                    = Ok (b, p))).
    { intros Hev. split.
      - intros Hw. rewrite (cleanup_not_write tc ev Hkind Hev) in Hw. discriminate Hw.
      - intros b p size Hreq. destruct (Hlisting ev b p size Hev Hreq) as [Hp ->].
        split; [reflexivity|]. exists keys, sub. split; [left; reflexivity | exact Hp]. }
    destruct resc as [[] | e].
    2:{ cbn [trace snd] in H. apply Hin_tc. rewrite H.
        apply in_or_app. right. left. reflexivity. }
    rewrite run_bind, run_call in H.
    destruct (h Uuid4 wc) as [hex wu]. cbn [fst snd] in H.
    rewrite run_bind, run_to_parquet_file in H.
    set (file := ((part ++ hex ++ ext ++ ".parquet")%string)) in *.
    destruct (h (WriteTable frame file index compression) wu) as [a ww].
    cbn [fst snd] in H.
    assert (Hshape : exists rest,
               tc ++ Event Uuid4 hex
                  :: Event (WriteTable frame file index compression) a :: rest
               = t1 ++ ev :: t2 /\
               (rest = [] \/
                rest = trace (run h (write_groups dir index compression ext use_threads
                                                  "partitions_upsert" cols groups) ww))).
    { destruct a as [[] | e].
      - rewrite run_bind in H.
        destruct (run h (write_groups dir index compression ext use_threads
                                      "partitions_upsert" cols groups) ww)
          as [[[paths | e] w5] t5]; cbn [run trace snd app] in H;
          rewrite ?app_nil_r in H; exists t5; auto.
      - cbn [trace snd app] in H. exists []. auto. }
    clear H. destruct Hshape as (rest & H & Hrest).
    destruct (app_eq_app_cons_cases _ _ _ _ _ H) as [(t2' & Htc) | (t1' & -> & H')].
    { apply Hin_tc. rewrite Htc. apply in_or_app. right. left. reflexivity. }
    destruct t1' as [ | x1 t1']; cbn [app] in H'.
    { injection H' as <- _. split; [discriminate | discriminate]. }
    injection H' as <- H'.
    destruct t1' as [ | x2 t1']; cbn [app] in H'.
    { injection H' as <- _. split; [|discriminate].
      intros _. exists keys, sub, frame, hex.
      split; [left; reflexivity|]. split; [exact Hdrop|]. split; [reflexivity|].
      pose proof (cleaned_within [] tc [Event Uuid4 hex] part (Hcleaned eq_refl)) as Hc.
      exact Hc. }
    injection H' as <- H'.
    destruct Hrest as [-> | ->]; [destruct t1'; discriminate H'|].
    destruct (IH ww t1' ev t2 H') as (Hw & Hl). split.
    + intros Hwrite. destruct (Hw Hwrite) as (k0 & s0 & f0 & x0 & Hin & Hd & Hreq & Hc).
      exists k0, s0, f0, x0. split; [right; exact Hin|]. split; [exact Hd|].
      split; [exact Hreq|].
      pose proof (cleaned_within
                    (tc ++ [Event Uuid4 hex;
                            Event (WriteTable frame file index compression) a])
                    t1' [] _ Hc) as Hc'.
      rewrite app_nil_r, <- app_assoc in Hc'. exact Hc'.
    + intros b p size Hreq. destruct (Hl b p size Hreq) as (Hs & k0 & s0 & Hin & Hp).
      split; [exact Hs|]. exists k0, s0. split; [right; exact Hin | exact Hp].
Qed.

(** X11: in the upsert mode with partition columns, a file is written
    only after the prefix of its own partition was listed and every
    locator of that listing named in a bulk delete; and every listing of
    the run is the listing, by pages of 1000, of the prefix of a partition
    of the dataframe: the dataset as a whole is never listed. *)
Theorem upsert_cleans_each_partition (w : W) (df : DF) (path : string)
        (index : bool) (compression : option string) (use_threads : bool)
        (c : string) (cols : list string)
        (t1 : list (event DF)) (ev : event DF) (t2 : list (event DF)) :
  trace (run h (to_parquet df path index compression use_threads true
                           (Some (c :: cols)) (Some "partitions_upsert")) w)
  = t1 ++ ev :: t2 ->
  exists dir ext groups,
    with_slash path = Ok dir /\
    get _COMPRESSION_2_EXT compression = Some ext /\
    groupby df (c :: cols) = Ok groups /\
    (is_write (ev_request ev) = true ->
     exists keys sub frame hex,
       In (keys, sub) groups /\
       drop sub (c :: cols) = Ok frame /\
       ev_request ev = WriteTable frame (group_path dir (c :: cols) ext keys hex)
                                  index compression /\
       cleaned t1 (dir ++ subdir_of (c :: cols) (as_tuple keys) ++ "/")%string) /\
    (forall b p size,
        ev_request ev = Paginate b p size ->
        size = 1000%Z /\
        exists keys sub,
          In (keys, sub) groups /\
          parse_path (dir ++ subdir_of (c :: cols) (as_tuple keys) ++ "/")%string
          = Ok (b, p)).
Proof.
  intros H. unfold to_parquet in H.
  destruct (get _COMPRESSION_2_EXT compression) as [ext | ];
    [|destruct t1; discriminate H].
  cbn [negb] in H. unfold _to_parquet_dataset in H. rewrite run_bind, run_lift in H.
  destruct (with_slash path) as [dir | e]; [|destruct t1; discriminate H].
  change (mode_in "partitions_upsert" ["append"; "overwrite"; "partitions_upsert"])
    with true in H.
  change ("partitions_upsert" =? "overwrite")%string with false in H.
  rewrite String.eqb_refl in H.
  cbn [negb orb andb truthy_cols cols_of app bind] in H.
  rewrite run_bind, run_lift in H.
  destruct (groupby df (c :: cols)) as [groups | e]; [|destruct t1; discriminate H].
  cbn [app] in H.
  exists dir, ext, groups. split; [reflexivity|]. split; [reflexivity|].
  split; [reflexivity|].
  apply (write_groups_upsert dir index compression ext use_threads (c :: cols)
                             groups w t1 ev t2).
  destruct (run h (write_groups dir index compression ext use_threads
                                "partitions_upsert" (c :: cols) groups) w)
    as [[res w1] t]. exact H.
Qed.

End Upsert.

Lemma upsert_cleans_each_partition_witness :
  let r := run Reference.serve
               (to_parquet Reference.example_df "s3://bucket/prefix" false
                           (Some "snappy") false true (Some ["b"])
                           (Some "partitions_upsert"))
               Reference.partitioned_store in
  trace r = Reference.upsert_cleanup ++ Reference.upsert_write :: skipn 4 (trace r) /\
  map fst (Reference.objects (final r))
  = [("bucket", "prefix/b=z/keep.snappy.parquet");
     ("bucket", "prefix/b=x/0.snappy.parquet");
     ("bucket", "prefix/b=y/1.snappy.parquet")] /\
  exists dir ext groups,
    with_slash "s3://bucket/prefix" = Ok dir /\
    get _COMPRESSION_2_EXT (Some "snappy") = Some ext /\
    groupby Reference.example_df ["b"] = Ok groups /\
    (is_write (ev_request Reference.upsert_write) = true ->
     exists keys sub frame hex,
       In (keys, sub) groups /\
       drop sub ["b"] = Ok frame /\
       ev_request Reference.upsert_write
       = WriteTable frame (group_path dir ["b"] ext keys hex) false (Some "snappy") /\
       cleaned Reference.upsert_cleanup
               (dir ++ subdir_of ["b"] (as_tuple keys) ++ "/")%string) /\
    (forall b p size,
        ev_request Reference.upsert_write = Paginate b p size ->
        size = 1000%Z /\
        exists keys sub,
          In (keys, sub) groups /\
          parse_path (dir ++ subdir_of ["b"] (as_tuple keys) ++ "/")%string = Ok (b, p)).
Proof.
  cbv zeta. split; [reflexivity|]. split; [reflexivity|].
  apply (upsert_cleans_each_partition Reference.serve Reference.partitioned_store
           Reference.example_df "s3://bucket/prefix" false (Some "snappy") false
           "b" [] Reference.upsert_cleanup Reference.upsert_write
           (skipn 4 (trace (run Reference.serve
                                (to_parquet Reference.example_df "s3://bucket/prefix"
                                            false (Some "snappy") false true
                                            (Some ["b"]) (Some "partitions_upsert"))
                                Reference.partitioned_store)))).
  reflexivity.
Defined.

(** ** The target of a dataset *)

Lemma prefix_append (s t : string) : prefix s (s ++ t) = true.
Proof.
  induction s as [ | c s IH]; cbn [append prefix].
  - destruct t; reflexivity.
  - destruct (ascii_dec c c) as [_ | Hne]; [exact IH | contradiction].
Qed.

Lemma last_char_slash (path : string) : last_char (path ++ "/") = Some "/"%char.
Proof.
  induction path as [ | c path IH]; [reflexivity|].
  cbn [append last_char]. rewrite IH. destruct path; reflexivity.
Qed.

Lemma with_slash_spec (path : string) :
  (forall c, last_char path = Some c -> c <> "/"%char ->
             with_slash path = Ok (path ++ "/")%string) /\
  (last_char path = Some "/"%char -> with_slash path = Ok path) /\
  (forall dir, with_slash path = Ok dir ->
               last_char dir = Some "/"%char /\ prefix path dir = true).
Proof.
  unfold with_slash. split; [|split].
  - intros c -> Hc. apply Ascii.eqb_neq in Hc. rewrite Hc. reflexivity.
  - intros ->. reflexivity.
  - intros dir. destruct (last_char path) as [c | ] eqn:E; [|discriminate].
    destruct (Ascii.eqb_spec c "/"%char) as [-> | Hne]; intros [= <-].
    + split; [exact E|]. clear E.
      induction path as [ | x p IH]; [reflexivity|].
      cbn [prefix]. destruct (ascii_dec x x) as [_ | Hne]; [exact IH | contradiction].
    + split; [apply last_char_slash | apply prefix_append].
Qed.

Section DatasetTarget.

Context {DF : Type} {engine : DataFrameEngine DF} {utils : Utils}.

(** X12: a dataset written to [path] and to [path/] is the same program:
    one separator is added when the last character is not "/", none when
    it is.  The empty path has no last character: with a recognized
    compression kind the write raises IndexError, whatever the mode, valid
    or not, and before any request. *)
Theorem dataset_path_separator (df : DF) (path : string) (index : bool)
        (compression : option string) (use_threads : bool)
        (partition_cols : option (list string)) (mode : option string) :
  (forall c, last_char path = Some c -> c <> "/"%char ->
             to_parquet df path index compression use_threads true partition_cols mode
             = to_parquet df (path ++ "/") index compression use_threads true
                          partition_cols mode) /\
  (forall (W : Type) (h : handler DF W) (w : W) ext,
      get _COMPRESSION_2_EXT compression = Some ext ->
      run h (to_parquet df "" index compression use_threads true partition_cols mode) w
      = (Err IndexError, w, [])).
Proof.
  split.
  - intros c Hlast Hc. unfold to_parquet.
    destruct (get _COMPRESSION_2_EXT compression) as [ext | ]; [|reflexivity].
    cbn [negb]. unfold _to_parquet_dataset.
    destruct (with_slash_spec path) as (Hadd & _).
    destruct (with_slash_spec (path ++ "/")) as (_ & Hkeep & _).
    rewrite (Hadd c Hlast Hc), (Hkeep (last_char_slash path)). reflexivity.
  - intros W h w ext Hext. unfold to_parquet. rewrite Hext. reflexivity.
Qed.

End DatasetTarget.

Lemma dataset_path_separator_witness :
  to_parquet Reference.example_df "s3://bucket/prefix" false None true true
             (Some ["b"]) (Some "overwrite")
  = to_parquet Reference.example_df ("s3://bucket/prefix" ++ "/") false None true true
               (Some ["b"]) (Some "overwrite") /\
  run Reference.serve
      (to_parquet Reference.example_df "" false None true true (Some ["b"])
                  (Some "no such mode")) Reference.dataset_store
  = (Err IndexError, Reference.dataset_store, []).
Proof.
  split.
  - apply (proj1 (dataset_path_separator Reference.example_df "s3://bucket/prefix"
                    false None true (Some ["b"]) (Some "overwrite")) "x"%char).
    + reflexivity.
    + discriminate.
  - apply (proj2 (dataset_path_separator Reference.example_df "s3://bucket/prefix"
                    false None true (Some ["b"]) (Some "no such mode"))
                 _ Reference.serve Reference.dataset_store "").
    reflexivity.
Defined.

(** ** A write that fails *)

Section FailedWrite.

Context {DF : Type} {engine : DataFrameEngine DF} {utils : Utils}.
Context {W : Type} (h : handler DF W).

Lemma write_error_is_write (ev : event DF) (e : exn) :
  write_error ev = Some e -> is_write (ev_request ev) = true.
Proof. destruct ev as [[] a]; cbn; try discriminate. reflexivity. Qed.

Lemma stops_bind (A B : Type) (p : prog DF A) (f : A -> prog DF B) :
  stops_at_failed_write h p ->
  (forall a, stops_at_failed_write h (f a)) ->
  stops_at_failed_write h (bind p f).
Proof.
  intros Hp Hf w t1 ev t2 e. rewrite run_bind.
  specialize (Hp w t1 ev).
  destruct (run h p w) as [[[a | e'] w1] t] eqn:Ep.
  - specialize (Hf a w1).
    destruct (run h (f a) w1) as [[r w2] t'] eqn:Ef.
    cbn [trace outcome fst snd] in *. intros Ht Hev.
    destruct (app_eq_app_cons_cases _ _ _ _ _ Ht) as [(t2' & Hl) | (t1' & -> & Hr)].
    + destruct (Hp t2' e Hl Hev) as [_ Hbad]. discriminate Hbad.
    + exact (Hf t1' ev t2 e Hr Hev).
  - cbn [trace outcome fst snd] in *. intros Ht Hev.
    destruct (Hp t2 e Ht Hev) as [Hnil [= ->]]. auto.
Qed.

Lemma stops_without_write (A : Type) (p : prog DF A) :
  (forall w, Forall (fun q => is_write q = false) (requests (trace (run h p w)))) ->
  stops_at_failed_write h p.
Proof.
  intros Hno w t1 ev t2 e Ht Hev. exfalso.
  apply write_error_is_write in Hev.
  specialize (Hno w). rewrite Ht in Hno. rewrite Forall_forall in Hno.
  rewrite (Hno (ev_request ev)) in Hev; [discriminate|].
  unfold requests. rewrite map_app. apply in_or_app. right. left. reflexivity.
Qed.

Lemma stops_cleanup (A : Type) (p : prog DF A) :
  (forall w, Forall (fun q => is_cleanup q = true) (requests (trace (run h p w)))) ->
  stops_at_failed_write h p.
Proof.
  intros Hc. apply stops_without_write. intros w.
  rewrite Forall_forall. intros q Hq. apply in_map_iff in Hq as (ev & <- & Hin).
  exact (cleanup_not_write _ ev (Hc w) Hin).
Qed.

Lemma stops_ret (A : Type) (a : A) : stops_at_failed_write h (Ret a).
Proof. apply stops_without_write. intros w. constructor. Qed.

Lemma stops_raise (A : Type) (e : exn) : stops_at_failed_write h (Raise (A := A) e).
Proof. apply stops_without_write. intros w. constructor. Qed.

Lemma stops_lift (A : Type) (x : result A) : stops_at_failed_write h (lift x).
Proof. destruct x; [apply stops_ret | apply stops_raise]. Qed.

Lemma stops_uuid : stops_at_failed_write h (call (DF := DF) Uuid4).
Proof.
  apply stops_without_write. intros w. rewrite run_call.
  constructor; [reflexivity | constructor].
Qed.

Lemma stops_to_parquet_file (df : DF) (path : string) (index : bool)
      (compression : option string) :
  stops_at_failed_write h (_to_parquet_file df path index compression).
Proof.
  intros w t1 ev t2 e. rewrite run_to_parquet_file. cbn [trace outcome fst snd].
  intros Ht Hev.
  destruct t1 as [ | x t1]; cbn [app] in Ht.
  - injection Ht as <- <-. split; [reflexivity|].
    destruct (h (WriteTable df path index compression) w) as [[[] | e'] w1];
      cbn in Hev; [discriminate Hev|]. injection Hev as ->. reflexivity.
  - injection Ht as _ Ht. destruct t1; discriminate Ht.
Qed.

Lemma stops_delete_prefix (use_threads : bool) (path : string) :
  stops_at_failed_write h (delete_objects (PStr path) use_threads).
Proof.
  apply stops_cleanup. intros w.
  pose proof (run_delete_prefix h use_threads path w) as Hp. cbv zeta in Hp.
  apply Hp.
Qed.

Lemma stops_write_groups (path : string) (index : bool) (compression : option string)
      (ext : string) (use_threads : bool) (mode : string) (cols : list string)
      (groups : list (group_key * DF)) :
  stops_at_failed_write h
    (write_groups path index compression ext use_threads mode cols groups).
Proof.
  induction groups as [ | [keys sub] groups IH]; [apply stops_ret|].
  cbn [write_groups].
  apply stops_bind; [apply stops_lift|]. intros f.
  apply stops_bind.
  { destruct (mode =? "partitions_upsert")%string;
      [apply stops_delete_prefix | apply stops_ret]. }
  intros _. apply stops_bind; [apply stops_uuid|]. intros hex.
  apply stops_bind; [apply stops_to_parquet_file|]. intros _.
  apply stops_bind; [exact IH|]. intros paths. apply stops_ret.
Qed.

(** X13: no write of [to_parquet] is retried or undone.  Whatever the
    arguments, when the store answers a table write with an exception,
    that write is the last request of the run and the run raises that
    exception: the groups after it are not written, and what was deleted
    or written before it stays as it is. *)
Theorem failed_write_ends_the_run (w : W) (df : DF) (path : string) (index : bool)
        (compression : option string) (use_threads dataset : bool)
        (partition_cols : option (list string)) (mode : option string)
        (t1 t2 : list (event DF)) (ev : event DF) (e : exn) :
  let r := run h (to_parquet df path index compression use_threads dataset
                             partition_cols mode) w in
  trace r = t1 ++ ev :: t2 ->
  write_error ev = Some e ->
  t2 = [] /\ outcome r = Err e.
Proof.
  cbv zeta. revert w t1 ev t2 e.
  change (stops_at_failed_write h
            (to_parquet df path index compression use_threads dataset
                        partition_cols mode)).
  unfold to_parquet.
  destruct (get _COMPRESSION_2_EXT compression) as [ext | ]; [|apply stops_raise].
  destruct dataset; cbn [negb].
  - unfold _to_parquet_dataset.
    apply stops_bind; [apply stops_lift|]. intros dir.
    destruct (negb (mode_in _ _)); [apply stops_raise|].
    apply stops_bind.
    { destruct (_ || _); [apply stops_delete_prefix | apply stops_ret]. }
    intros _. destruct (negb (truthy_cols partition_cols)).
    + apply stops_bind; [apply stops_uuid|]. intros hex.
      apply stops_bind; [apply stops_to_parquet_file|]. intros _. apply stops_ret.
    + apply stops_bind; [apply stops_lift|]. intros groups.
      apply stops_write_groups.
  - destruct (truthy_cols partition_cols); [apply stops_raise|].
    destruct (truthy_str mode); [apply stops_raise|].
    apply stops_bind; [apply stops_to_parquet_file|]. intros p. apply stops_ret.
Qed.

End FailedWrite.

Lemma failed_write_ends_the_run_witness :
  let r := run Reference.quota
               (to_parquet Reference.example_df "s3://bucket/prefix" false None
                           false true (Some ["a"]) (Some "append")) 1 in
  length (write_requests (trace r)) = 2 /\
  (exists groups, groupby Reference.example_df ["a"] = Ok groups /\ length groups = 3) /\
  skipn 4 (trace r) = [] /\ outcome r = Err (ClientError 403).
Proof.
  cbv zeta. split; [reflexivity|]. split; [eexists; split; reflexivity|].
  apply (failed_write_ends_the_run Reference.quota 1 Reference.example_df
           "s3://bucket/prefix" false None false true (Some ["a"]) (Some "append")
           (firstn 3 (trace (run Reference.quota
                                 (to_parquet Reference.example_df "s3://bucket/prefix"
                                             false None false true (Some ["a"])
                                             (Some "append")) 1)))
           (skipn 4 (trace (run Reference.quota
                                (to_parquet Reference.example_df "s3://bucket/prefix"
                                            false None false true (Some ["a"])
                                            (Some "append")) 1)))
           Reference.refused_write (ClientError 403)).
  - reflexivity.
  - reflexivity.
Defined.
